(** * Triangulation detection engines of dna-bukkets

    A shallow embedding of the clustering engines in
    [optimized_triangulation.py], [simple_triangulation.py] and
    [painter.py], of the surname rule and of the size-ranked report,
    together with the properties of the specification that concern them.

    Conventions.  A pandas row is a record [Row]; its index label (what
    [iterrows] yields as [idx], and [row.name]) is the field [row_name].
    Python integers are [Z], Python floats are binary64 [float]s, Python
    sets that are only queried for membership are [gset]s, lists are
    lists.  Narration ([print], [debug_output]) carries no result and is
    left out. *)

From Stdlib Require Import ZArith String Ascii Floats Lia.
From stdpp Require Import gmap list sorting strings.

Set Warnings "-clear-no-such-hyp".

(** ** Rows and data frames *)

Record Row := mkRow {
  row_name : Z;
  Match_Name : string;
  Chromosome : string;
  Start_Location : Z;
  End_Location : Z;
  Centimorgans : float;
  Matching_SNPs : Z
}.

(** The overlap of the specification:
    [max(0, min(A.end, B.end) - max(A.start, B.start))]. *)
Definition overlap_bp (A B : Row) : Z :=
  Z.max 0 (Z.min (End_Location A) (End_Location B)
           - Z.max (Start_Location A) (Start_Location B)).

(** ** [enumerate] *)

Fixpoint enumerate_from {A} (n : nat) (l : list A) : list (nat * A) :=
  match l with
  | [] => []
  | x :: l' => (n, x) :: enumerate_from (S n) l'
  end.

Definition enumerate {A} (l : list A) : list (nat * A) := enumerate_from 0 l.

(** ** [list.sort(key=...)]: the stable sort

    Python's sort is stable; its result is the one stable ascending
    arrangement of the input (see [stable_sort_unique] below), so any
    stable algorithm models it.  Insertion from the right is used. *)

Section stable_sort.
Context {A : Type} (key : A → Z).

Fixpoint insert_by (x : A) (l : list A) : list A :=
  match l with
  | [] => [x]
  | y :: l' => if decide (key x ≤ key y)%Z then x :: y :: l'
               else y :: insert_by x l'
  end.

Fixpoint sort_by (l : list A) : list A :=
  match l with
  | [] => []
  | x :: l' => insert_by x (sort_by l')
  end.

Definition key_le (x y : A) : Prop := (key x ≤ key y)%Z.

(** The rows of [l] whose key is [k], in the order of [l]. *)
Definition with_key (k : Z) (l : list A) : list A :=
  filter (λ x, key x = k) l.
End stable_sort.

(** ** The optimized engine, one chromosome *)

Module Optimized.

Record segment := mkSegment {
  index : Z;
  data : Row;
  start : Z;
  end_ : Z;
  match_name : string;
  cm : float
}.

Definition to_segment (row : Row) : segment :=
  {| index := row_name row;
     data := row;
     start := Start_Location row;
     end_ := End_Location row;
     match_name := Match_Name row;
     cm := Centimorgans row |}.

Definition actual_overlap (segment1 segment2 : segment) : Z :=
  let overlap_start := Z.max (start segment1) (start segment2) in
  let overlap_end := Z.min (end_ segment1) (end_ segment2) in
  Z.max 0 (overlap_end - overlap_start).

(** One turn of the inner loop [for j, segment2 in enumerate(segments)];
    the state is [(current_group, current_group_indices)]. *)
Definition collect_step (min_overlap_bp : Z) (i : nat) (segment1 : segment)
    (st : list segment * gset Z) (entry : nat * segment) : list segment * gset Z :=
  let '(current_group, current_group_indices) := st in
  let '(j, segment2) := entry in
  if decide (j = i ∨ index segment2 ∈ current_group_indices) then st
  else if decide (min_overlap_bp ≤ actual_overlap segment1 segment2)%Z
       then (current_group ++ [segment2], current_group_indices ∪ {[index segment2]})
       else st.

Definition collect (min_overlap_bp : Z) (segments : list segment)
    (i : nat) (segment1 : segment) : list segment * gset Z :=
  foldl (collect_step min_overlap_bp i segment1)
        ([segment1], {[index segment1]}) (enumerate segments).

(** [for seg in current_group: processed_indices.add(seg['index'])] *)
Definition mark_processed (processed_indices : gset Z) (current_group : list segment)
    : gset Z :=
  foldl (λ p seg, p ∪ {[index seg]}) processed_indices current_group.

(** One turn of the outer loop [for i, segment1 in enumerate(segments)];
    the state is [(groups, processed_indices)]. *)
Definition seed_step (min_overlap_bp min_group_size : Z) (segments : list segment)
    (st : list (list Row) * gset Z) (entry : nat * segment) : list (list Row) * gset Z :=
  let '(groups, processed_indices) := st in
  let '(i, segment1) := entry in
  if decide (index segment1 ∈ processed_indices) then st
  else
    let current_group := (collect min_overlap_bp segments i segment1).1 in
    if decide (min_group_size ≤ Z.of_nat (length current_group))%Z
    then (groups ++ [data <$> current_group],
          mark_processed processed_indices current_group)
    else st.

(** The loops over a list of segments that is already in iteration order. *)
Definition seed_and_collect (min_overlap_bp min_group_size : Z)
    (segments : list segment) : list (list Row) :=
  (foldl (seed_step min_overlap_bp min_group_size segments)
         ([], ∅) (enumerate segments)).1.

Definition sort_by_start (segments : list segment) : list segment :=
  sort_by start segments.

(** [_process_chromosome_optimized(args)] with
    [args = (chromosome, chr_data, min_overlap_bp, min_group_size, debug)];
    [debug] only selects what is printed. *)
Definition _process_chromosome_optimized
    (args : string * list Row * Z * Z) : list (list Row) :=
  let '(chromosome, chr_data, min_overlap_bp, min_group_size) := args in
  let segments := to_segment <$> chr_data in
  let segments := sort_by_start segments in
  seed_and_collect min_overlap_bp min_group_size segments.

End Optimized.

(** ** The simple engine, one chromosome *)

Module Simple.

Record segment := mkSegment {
  name : string;
  start : Z;
  end_ : Z;
  cm : float;
  data : Row
}.

Definition to_segment (row : Row) : segment :=
  {| name := Match_Name row;
     start := Start_Location row;
     end_ := End_Location row;
     cm := Centimorgans row;
     data := row |}.

(** No [max(0, ...)] here: the difference is compared as it is. *)
Definition actual_overlap (segment1 segment2 : segment) : Z :=
  let overlap_start := Z.max (start segment1) (start segment2) in
  let overlap_end := Z.min (end_ segment1) (end_ segment2) in
  overlap_end - overlap_start.

(** Inner loop; the state is [(current_group, current_indices)]. *)
Definition collect_step (min_overlap_bp : Z) (used_segments : gset nat)
    (i : nat) (segment1 : segment)
    (st : list segment * gset nat) (entry : nat * segment) : list segment * gset nat :=
  let '(current_group, current_indices) := st in
  let '(j, segment2) := entry in
  if decide (j = i ∨ j ∈ used_segments) then st
  else if decide (min_overlap_bp ≤ actual_overlap segment1 segment2)%Z
       then (current_group ++ [segment2], current_indices ∪ {[j]})
       else st.

Definition collect (min_overlap_bp : Z) (used_segments : gset nat)
    (segments : list segment) (i : nat) (segment1 : segment)
    : list segment * gset nat :=
  foldl (collect_step min_overlap_bp used_segments i segment1)
        ([segment1], {[i]}) (enumerate segments).

(** Outer loop; the state is [(groups, used_segments)]. *)
Definition seed_step (min_overlap_bp min_group_size : Z) (segments : list segment)
    (st : list (list Row) * gset nat) (entry : nat * segment)
    : list (list Row) * gset nat :=
  let '(groups, used_segments) := st in
  let '(i, segment1) := entry in
  if decide (i ∈ used_segments) then st
  else
    let '(current_group, current_indices) :=
      collect min_overlap_bp used_segments segments i segment1 in
    if decide (min_group_size ≤ Z.of_nat (length current_group))%Z
    then (groups ++ [data <$> current_group], used_segments ∪ current_indices)
    else st.

(** [_find_overlapping_groups_simple]; of the returned pair
    [(groups, debug_output)] the groups. *)
Definition _find_overlapping_groups_simple (segments : list segment)
    (min_overlap_bp min_group_size : Z) : list (list Row) :=
  (foldl (seed_step min_overlap_bp min_group_size segments)
         ([], ∅) (enumerate segments)).1.

(** The body of the per-chromosome loop of [detect_triangulation_simple]
    past the size test: rows to segments, no sort, then the grouping. *)
Definition chromosome_groups (chr_data : list Row)
    (min_overlap_bp min_group_size : Z) : list (list Row) :=
  _find_overlapping_groups_simple (to_segment <$> chr_data)
    min_overlap_bp min_group_size.

End Simple.

(** ** The original engine ([painter.py]) *)

Module Painter.

Definition overlap_length (row1 row2 : Row) : Z :=
  let overlap_start := Z.max (Start_Location row1) (Start_Location row2) in
  let overlap_end := Z.min (End_Location row1) (End_Location row2) in
  Z.max 0 (overlap_end - overlap_start).

(** [for member in current_group: if member.name == row2.name: ...] *)
Definition found_in_group (current_group : list Row) (row2 : Row) : bool :=
  bool_decide (Exists (λ member, row_name member = row_name row2) current_group).

(** Inner loop [for j, row2 in chr_data.iterrows()]; [i] and [j] are the
    rows' labels, and [i >= j] compares labels. *)
Definition collect_step (min_overlap_bp : Z) (row1 : Row)
    (current_group : list Row) (row2 : Row) : list Row :=
  if decide (row_name row2 ≤ row_name row1)%Z then current_group
  else if decide (min_overlap_bp ≤ overlap_length row1 row2)%Z
       then if found_in_group current_group row2 then current_group
            else current_group ++ [row2]
       else current_group.

Definition collect (min_overlap_bp : Z) (chr_data : list Row) (row1 : Row) : list Row :=
  foldl (collect_step min_overlap_bp row1) [row1] chr_data.

Definition group_names (group : list Row) : gset string :=
  list_to_set (Match_Name <$> group).

Definition is_duplicate (groups : list (list Row)) (current_group : list Row) : bool :=
  bool_decide (Exists (λ existing_group,
                         group_names current_group = group_names existing_group) groups).

(** Outer loop [for i, row1 in chr_data.iterrows()]. *)
Definition seed_step (min_overlap_bp min_group_size : Z) (chr_data : list Row)
    (groups : list (list Row)) (row1 : Row) : list (list Row) :=
  let current_group := collect min_overlap_bp chr_data row1 in
  if decide (min_group_size ≤ Z.of_nat (length current_group))%Z
  then if is_duplicate groups current_group then groups
       else groups ++ [current_group]
  else groups.

(** [Series.unique()]: the distinct values in order of first appearance. *)
Definition unique (values : list string) : list string :=
  foldl (λ seen v, if decide (v ∈ seen) then seen else seen ++ [v]) [] values.

(** [detect_triangulation_groups].  [sort_values] stands for
    [chr_data.sort_values('Start Location')]: pandas sorts with quicksort
    unless told otherwise, so the order of rows with equal starts is left
    to this parameter. *)
Definition detect_triangulation_groups (sort_values : list Row → list Row)
    (data : list Row) (min_overlap_bp min_group_size : Z) : list (list Row) :=
  concat ((λ chromosome,
             let chr_data := filter (λ row, Chromosome row = chromosome) data in
             let chr_data := sort_values chr_data in
             foldl (seed_step min_overlap_bp min_group_size chr_data) [] chr_data)
          <$> unique (Chromosome <$> data)).

End Painter.

(** ** Exceptions *)

Inductive outcome (A : Type) : Type :=
  | Returned (value : A)
  | Raised (exception : string).
Arguments Returned {A} value.
Arguments Raised {A} exception.

Definition bind {A B} (m : outcome A) (f : A → outcome B) : outcome B :=
  match m with
  | Returned value => f value
  | Raised exception => Raised exception
  end.

(** [[f(x) for x in l]]: the first exception ends the evaluation. *)
Fixpoint map_raising {A B} (f : A → outcome B) (l : list A) : outcome (list B) :=
  match l with
  | [] => Returned []
  | x :: l' => bind (f x) (λ y, bind (map_raising f l') (λ ys, Returned (y :: ys)))
  end.

(** What a list evaluates to, empty when the evaluation raises. *)
Definition chunk_result {A B} (func : A → outcome B) (chunk : list A) : list B :=
  match map_raising func chunk with
  | Returned ys => ys
  | Raised _ => []
  end.

(** ** [DataFrame.groupby('Chromosome')]

    The groups come in ascending key order, each with its rows in the
    order of the frame. *)

Fixpoint insert_key (c : string) (keys : list string) : list string :=
  match keys with
  | [] => [c]
  | c' :: keys' =>
      if String.eqb c c' then keys
      else if String.ltb c c' then c :: keys
      else c' :: insert_key c keys'
  end.

Definition sorted_keys (values : list string) : list string :=
  foldr insert_key [] values.

Definition groupby_Chromosome (data : list Row) : list (string * list Row) :=
  (λ chromosome, (chromosome, filter (λ row, Chromosome row = chromosome) data))
  <$> sorted_keys (Chromosome <$> data).

(** ** [multiprocessing.Pool.map]

    The pool cuts the argument list into chunks, one task per chunk; a
    task evaluates its chunk in order and stops at the first exception;
    the tasks finish in some order, the [schedule]; the result of chunk
    [i] is stored under [i], and the first failure to arrive is kept.
    At the end the stored chunks are read in index order, or the kept
    exception is raised. *)

Module Pool.

Definition chunksize (length_iterable processes : nat) : nat :=
  if decide (length_iterable = 0) then 0
  else
    let chunksize := length_iterable `div` (processes * 4) in
    let extra := length_iterable `mod` (processes * 4) in
    if decide (extra = 0) then chunksize else chunksize + 1.

(** [_get_tasks]: [islice] pieces of [size] items until one is empty. *)
Fixpoint get_tasks {A} (fuel : nat) (size : nat) (it : list A) : list (list A) :=
  match fuel with
  | 0 => []
  | S fuel' =>
      match take size it with
      | [] => []
      | x => x :: get_tasks fuel' size (drop size it)
      end
  end.

Record MapResult (B : Type) := mkMapResult {
  success : bool;
  value : gmap nat (list B);
  failure : string
}.
Arguments mkMapResult {B}.
Arguments success {B}.
Arguments value {B}.
Arguments failure {B}.

(** [MapResult._set(i, (success, result))] *)
Definition set_result {B} (r : MapResult B) (i : nat) (result : outcome (list B))
    : MapResult B :=
  match result with
  | Returned chunk =>
      if success r then mkMapResult true (<[i := chunk]> (value r)) (failure r)
      else r
  | Raised exception =>
      if success r then mkMapResult false (value r) exception
      else r
  end.

(** The chunks of one [map] call. *)
Definition tasks {A} (processes : nat) (iterable : list A) : list (list A) :=
  get_tasks (length iterable) (chunksize (length iterable) processes) iterable.

(** The arrival of the result of task [i]. *)
Definition arrival {A B} (func : A → outcome B) (tasks : list (list A))
    (r : MapResult B) (i : nat) : MapResult B :=
  match tasks !! i with
  | Some chunk => set_result r i (map_raising func chunk)
  | None => r
  end.

(** [Pool(processes).map(func, iterable)], the tasks finishing in the
    order [schedule]. *)
Definition map {A B} (processes : nat) (schedule : list nat)
    (func : A → outcome B) (iterable : list A) : outcome (list B) :=
  let tasks := tasks processes iterable in
  let final := foldl (arrival func tasks) (mkMapResult true ∅ "") schedule in
  if success final
  then Returned (concat ((λ i, default [] (value final !! i)) <$> seq 0 (length tasks)))
  else Raised (failure final).

(** A schedule runs every task once. *)
Definition complete_schedule (n_tasks : nat) (schedule : list nat) : Prop :=
  schedule ≡ₚ seq 0 n_tasks.

End Pool.

(** ** The optimized engine, all chromosomes *)

Module Scheduler.

Definition task : Type := string * list Row * Z * Z.

(** [args_list]: one entry per chromosome with enough segments. *)
Definition args_list (data : list Row) (min_overlap_bp min_group_size : Z) : list task :=
  (λ g, (g.1, g.2, min_overlap_bp, min_group_size))
  <$> filter (λ g, (min_group_size ≤ Z.of_nat (length g.2))%Z) (groupby_Chromosome data).

(** [max_workers], by default [max(1, cpu_count() - 1)]. *)
Definition workers (cpu_count : nat) (max_workers : option nat) : nat :=
  match max_workers with
  | None => Nat.max 1 (cpu_count - 1)
  | Some n => n
  end.

(** [detect_triangulation_groups_optimized] around any per-chromosome
    function, which may raise.  [cpu_count] and [schedule] are the
    machine's; [Pool(processes=0)] raises [ValueError]. *)
Definition detect_with (process_chromosome : task → outcome (list (list Row)))
    (cpu_count : nat) (schedule : list nat)
    (data : list Row) (min_overlap_bp min_group_size : Z)
    (max_workers : option nat) : outcome (list (list Row)) :=
  let max_workers := workers cpu_count max_workers in
  let args_list := args_list data min_overlap_bp min_group_size in
  if decide (0 < length args_list) then
    if decide (max_workers < 1)
    then Raised "ValueError: Number of processes must be at least 1"
    else bind (Pool.map max_workers schedule process_chromosome args_list)
              (λ results, Returned (concat results))
  else Returned [].

(** A run the machine can make: at least one worker process, and the
    chunks finishing in some order, each once. *)
Definition possible_run (cpu_count : nat) (schedule : list nat)
    (data : list Row) (min_overlap_bp min_group_size : Z)
    (max_workers : option nat) : Prop :=
  1 ≤ workers cpu_count max_workers ∧
  Pool.complete_schedule
    (length (Pool.tasks (workers cpu_count max_workers)
                        (args_list data min_overlap_bp min_group_size)))
    schedule.

(** The engine as shipped: the per-chromosome function is
    [_process_chromosome_optimized]. *)
Definition detect_triangulation_groups_optimized
    (cpu_count : nat) (schedule : list nat)
    (data : list Row) (min_overlap_bp min_group_size : Z)
    (max_workers : option nat) : outcome (list (list Row)) :=
  detect_with (λ args, Returned (Optimized._process_chromosome_optimized args))
    cpu_count schedule data min_overlap_bp min_group_size max_workers.

(** [detect_triangulation_simple]: a plain loop over the chromosomes. *)
Definition detect_triangulation_simple
    (data : list Row) (min_overlap_bp min_group_size : Z) : list (list Row) :=
  concat ((λ g, Simple.chromosome_groups g.2 min_overlap_bp min_group_size)
          <$> filter (λ g, ¬ (Z.of_nat (length g.2) < min_group_size)%Z)
                (groupby_Chromosome data)).

(** What [run_analysis] hands to the window: the report, or, from its
    [except Exception] clause, one error message. *)
Inductive gui_event : Type :=
  | update_triangulation_results (results_text : string)
  | show_triangulation_error (error_msg : string).

Definition run_analysis (analysis : outcome string) : gui_event :=
  match analysis with
  | Returned results_text => update_triangulation_results results_text
  | Raised e => show_triangulation_error ("Error during analysis: " ++ e)
  end.

End Scheduler.

(** ** The strict pass of the optimized engine *)

Module Verify.
Import Optimized.

#[export] Instance segment_inhabited : Inhabited segment :=
  populate (to_segment (mkRow 0 "" "" 0 0 0%float 0)).

(** [_verify_triangulation_group], the branch for at most five segments:
    one pass that keeps a candidate when it overlaps a segment kept so far. *)
Definition small_group_step (min_overlap_bp : Z)
    (valid_segments : list segment) (candidate : segment) : list segment :=
  let overlaps_with_valid_group :=
    existsb (λ valid_seg,
               bool_decide (min_overlap_bp ≤ actual_overlap candidate valid_seg)%Z)
            valid_segments in
  if overlaps_with_valid_group then valid_segments ++ [candidate]
  else valid_segments.

(** [adjacency[i].add(j)] *)
Definition add_neighbor (adjacency : gmap nat (gset nat)) (i j : nat)
    : gmap nat (gset nat) :=
  <[i := adjacency !!! i ∪ {[j]}]> adjacency.

(** The two nested [range] loops that fill the adjacency sets. *)
Definition adjacency_step (min_overlap_bp : Z) (segments : list segment)
    (i : nat) (adjacency : gmap nat (gset nat)) (j : nat) : gmap nat (gset nat) :=
  let seg1 := segments !!! i in
  let seg2 := segments !!! j in
  if decide (min_overlap_bp ≤ actual_overlap seg1 seg2)%Z
  then add_neighbor (add_neighbor adjacency i j) j i
  else adjacency.

(** [adjacency], from [{i: set() for i in range(len(segments))}]. *)
Definition build_adjacency (min_overlap_bp : Z) (segments : list segment)
    : gmap nat (gset nat) :=
  let n := length segments in
  foldl (λ adjacency i,
           foldl (adjacency_step min_overlap_bp segments i) adjacency
                 (seq (i + 1) (n - (i + 1))))
        (list_to_map ((λ i, (i, ∅)) <$> seq 0 n))
        (seq 0 n).

(** The [while stack:] loop.  The stack is kept top first, so
    [stack.pop()] takes the head and a run of [stack.append] leaves the
    last neighbour on top.  [iter] is the order in which Python iterates
    over a set.  [None] when the fuel runs out. *)
Fixpoint dfs (fuel : nat) (iter : gset nat → list nat)
    (adjacency : gmap nat (gset nat)) (segments : list segment)
    (stack : list nat) (visited : gset nat) (component : list segment)
    : option (gset nat * list segment) :=
  match fuel with
  | 0 => None
  | S fuel' =>
      match stack with
      | [] => Some (visited, component)
      | node :: stack =>
          if decide (node ∈ visited)
          then dfs fuel' iter adjacency segments stack visited component
          else
            let visited := visited ∪ {[node]} in
            let component := component ++ [segments !!! node] in
            let stack :=
              foldl (λ stack neighbor,
                       if decide (neighbor ∈ visited) then stack
                       else neighbor :: stack)
                    stack (iter (adjacency !!! node)) in
            dfs fuel' iter adjacency segments stack visited component
      end
  end.

(** Enough turns of the [while] loop for a graph of [n] nodes. *)
Definition dfs_fuel (n : nat) : nat := S (S (n * S n)).

(** One turn of [for start_node in range(len(segments))]; the state is
    [(visited, largest_component)]. *)
Definition component_step (iter : gset nat → list nat)
    (adjacency : gmap nat (gset nat)) (segments : list segment)
    (st : option (gset nat * list segment)) (start_node : nat)
    : option (gset nat * list segment) :=
  match st with
  | None => None
  | Some (visited, largest_component) =>
      if decide (start_node ∈ visited) then st
      else
        match dfs (dfs_fuel (length segments)) iter adjacency segments
                  [start_node] visited [] with
        | None => None
        | Some (visited, component) =>
            if decide (length largest_component < length component)
            then Some (visited, component)
            else Some (visited, largest_component)
        end
  end.

(** [_find_connected_components]; [None] only if a traversal ran out of
    fuel, which [find_connected_components_largest] excludes. *)
Definition _find_connected_components (iter : gset nat → list nat)
    (segments : list segment) (min_overlap_bp : Z) : option (list segment) :=
  if decide (length segments < 2) then Some segments
  else
    let adjacency := build_adjacency min_overlap_bp segments in
    snd <$> foldl (component_step iter adjacency segments)
                  (Some (∅, [])) (seq 0 (length segments)).

(** [_verify_triangulation_group] *)
Definition _verify_triangulation_group (iter : gset nat → list nat)
    (segments : list segment) (min_overlap_bp : Z) : option (list segment) :=
  if decide (length segments < 2) then Some segments
  else if decide (length segments ≤ 5) then
    match segments with
    | [] => Some []
    | first :: rest => Some (foldl (small_group_step min_overlap_bp) [first] rest)
    end
  else _find_connected_components iter segments min_overlap_bp.

(** *** The overlap graph of a candidate set *)

(** Nodes are positions in [segments]; an edge joins two different
    positions whose segments overlap by at least the threshold. *)
Definition edge (min_overlap_bp : Z) (segments : list segment) (i j : nat) : Prop :=
  i < length segments ∧ j < length segments ∧ i ≠ j ∧
  (min_overlap_bp ≤ actual_overlap (segments !!! i) (segments !!! j))%Z.

Definition connected (min_overlap_bp : Z) (segments : list segment) : relation nat :=
  rtc (edge min_overlap_bp segments).

(** [nodes] lists, once each, the positions connected to [r]. *)
Definition component_of (min_overlap_bp : Z) (segments : list segment)
    (r : nat) (nodes : list nat) : Prop :=
  r < length segments ∧ NoDup nodes ∧
  ∀ j, j ∈ nodes ↔ connected min_overlap_bp segments r j.

(** [result] is a largest connected component of the overlap graph. *)
Definition largest_component (min_overlap_bp : Z) (segments result : list segment)
    : Prop :=
  ∃ r nodes,
    component_of min_overlap_bp segments r nodes ∧
    result = (λ j, segments !!! j) <$> nodes ∧
    ∀ r' nodes', component_of min_overlap_bp segments r' nodes' →
                 length nodes' ≤ length nodes.

(** The segments at two positions overlap by at least the threshold. *)
Definition overlapping (min_overlap_bp : Z) (segments : list segment) (i j : nat)
    : Prop :=
  (min_overlap_bp ≤ actual_overlap (segments !!! i) (segments !!! j))%Z.

(** The state of one traversal, started at [s] with [V0] visited, for the
    proofs: [nodes] are the positions visited since, in order. *)
Definition dfs_inv (T : Z) (segments : list segment)
    (V0 : gset nat) (s : nat) (stack : list nat) (visited : gset nat)
    (nodes : list nat) : Prop :=
  visited = V0 ∪ list_to_set nodes
  ∧ NoDup nodes
  ∧ (∀ v, v ∈ nodes → v ∉ V0)
  ∧ (∀ v, v ∈ nodes → connected T segments s v)
  ∧ (∀ v, v ∈ stack → connected T segments s v)
  ∧ (∀ v w, v ∈ visited → edge T segments v w → w ∈ visited ∨ w ∈ stack)
  ∧ (s ∈ visited ∨ s ∈ stack).

(** The state between two traversals, for the proofs. *)
Definition outer_inv (T : Z) (segments : list segment)
    (visited : gset nat) (largest : list segment) : Prop :=
  (∀ v w, v ∈ visited → edge T segments v w → w ∈ visited)
  ∧ (∀ v, v ∈ visited → v < length segments)
  ∧ ∃ lnodes,
      largest = (λ j, segments !!! j) <$> lnodes
      ∧ ((visited = ∅ ∧ lnodes = []) ∨ ∃ r, component_of T segments r lnodes)
      ∧ (∀ v nodes, v ∈ visited → component_of T segments v nodes →
                    length nodes ≤ length lnodes).

End Verify.

(** ** Python strings

    A [string] stands for a Python [str] whose code points are below 256,
    one character per code point. *)

Module Str.

(** [str.isspace] on one character: tab to carriage return, the four
    separators 28 to 31, space, NEL and no-break space. *)
Definition isspace (c : ascii) : bool :=
  let n := nat_of_ascii c in
  ((9 <=? n) && (n <=? 13)) || ((28 <=? n) && (n <=? 32)) || (n =? 133) || (n =? 160).

(** [s.replace(old, "")] for a non-empty [old]: the occurrences are found
    from the left and do not overlap.  [skip] counts the characters of an
    occurrence still to drop. *)
Fixpoint replace_from (old : string) (skip : nat) (s : string) : string :=
  match s with
  | EmptyString => EmptyString
  | String c s' =>
      match skip with
      | S skip' => replace_from old skip' s'
      | 0 => if String.prefix old s
             then replace_from old (String.length old - 1) s'
             else String c (replace_from old 0 s')
      end
  end.

Definition remove (old s : string) : string := replace_from old 0 s.

Fixpoint lstrip (s : string) : string :=
  match s with
  | EmptyString => EmptyString
  | String c s' => if isspace c then lstrip s' else s
  end.

Fixpoint rstrip (s : string) : string :=
  match s with
  | EmptyString => EmptyString
  | String c s' =>
      let r := rstrip s' in
      if isspace c && bool_decide (r = EmptyString) then EmptyString else String c r
  end.

(** [s.strip()] *)
Definition strip (s : string) : string := rstrip (lstrip s).

(** [s.split()]: the maximal runs of characters that are not whitespace.
    [word] is the run being read. *)
Fixpoint split_from (word : string) (s : string) : list string :=
  match s with
  | EmptyString => if decide (word = EmptyString) then [] else [word]
  | String c s' =>
      if isspace c
      then (if decide (word = EmptyString) then split_from EmptyString s'
            else word :: split_from EmptyString s')
      else split_from (word ++ String c EmptyString) s'
  end.

Definition split (s : string) : list string := split_from EmptyString s.

(** [sep.join(lines)] *)
Fixpoint join (sep : string) (lines : list string) : string :=
  match lines with
  | [] => EmptyString
  | [line] => line
  | line :: lines' => line ++ sep ++ join sep lines'
  end.

(** [c * n] *)
Fixpoint times (c : ascii) (n : nat) : string :=
  match n with
  | 0 => EmptyString
  | S n' => String c (times c n')
  end.

End Str.

(** A string without whitespace. *)
Definition solid (t : string) : Prop :=
  Forall (λ c, Str.isspace c = false) (list_ascii_of_string t).

(** ** Surnames *)

(** [extract_surname], the same text in [optimized_triangulation.py] and
    [simple_triangulation.py]; [None] is a missing name. *)
Definition extract_surname (match_name : option string) : string :=
  match match_name with
  | None => "Unknown"
  | Some EmptyString => "Unknown"
  | Some match_name =>
      let name_parts :=
        Str.split (Str.strip (Str.remove "Ph.D." (Str.remove "Dr."
                     (Str.remove "Mrs." (Str.remove "Mr." match_name))))) in
      if decide (2 ≤ length name_parts)
      then default EmptyString (last name_parts)
      else match name_parts with
           | first :: _ => first
           | [] => "Unknown"
           end
  end.

(** The rule in the words of the specification: strip the four literal
    substrings, trim, split on whitespace; the last token if at least two
    remain, else the sole token, else ["Unknown"]. *)
Definition surname_rule (match_name : string) : string :=
  let stripped :=
    Str.remove "Ph.D." (Str.remove "Dr." (Str.remove "Mrs." (Str.remove "Mr." match_name))) in
  let tokens := Str.split (Str.strip stripped) in
  match tokens with
  | [] => "Unknown"
  | [sole] => sole
  | _ :: _ :: _ => default EmptyString (last tokens)
  end.

(** ** The reports by size *)

(** What the reports take from the Python runtime without looking inside:
    the formatting of numbers in f-strings, [sum] over floats, and true
    division. *)
Record PythonRuntime := {
  fmt_int : Z → string;                 (* f"{n}" *)
  fmt_int_commas : Z → string;          (* f"{n:,}" *)
  fmt_float : float → string;           (* f"{x}" *)
  fmt_float_1 : float → string;         (* f"{x:.1f}" *)
  sum_floats : list float → float;      (* sum(...) *)
  truediv_int : Z → Z → float;          (* a / b, both int *)
  truediv_float_int : float → Z → float (* x / n *)
}.

Module Report.

Definition newline : string := String (ascii_of_nat 10) EmptyString.

(** [min(...)] and [max(...)] over a generator: [ValueError] when it is
    empty. *)
Definition py_min (values : list Z) : outcome Z :=
  match values with
  | [] => Raised "ValueError: min() arg is an empty sequence"
  | v :: values' => Returned (foldl Z.min v values')
  end.

Definition py_max (values : list Z) : outcome Z :=
  match values with
  | [] => Raised "ValueError: max() arg is an empty sequence"
  | v :: values' => Returned (foldl Z.max v values')
  end.

(** [group[0]['Chromosome']] *)
Definition first_chromosome (group : list Row) : outcome string :=
  match group with
  | [] => Raised "IndexError: list index out of range"
  | member :: _ => Returned (Chromosome member)
  end.

(** [sorted(groups, key=len, reverse=True)]: largest first, groups of
    equal size in their stored order. *)
Definition sorted_by_size {A} (groups : list (list A)) : list (list A) :=
  sort_by (λ group, - Z.of_nat (length group))%Z groups.

(** [family_groups[surname].append(member)] on a [defaultdict(list)],
    whose keys keep their order of insertion. *)
Fixpoint family_append (surname : string) (member : Row)
    (family_groups : list (string * list Row)) : list (string * list Row) :=
  match family_groups with
  | [] => [(surname, [member])]
  | (name, members) :: rest =>
      if String.eqb name surname then (name, members ++ [member]) :: rest
      else (name, members) :: family_append surname member rest
  end.

Definition family_groups (group : list Row) : list (string * list Row) :=
  foldl (λ families member,
           family_append (extract_surname (Some (Match_Name member))) member families)
        [] group.

(** [sorted(family_groups.items(), key=lambda x: len(x[1]), reverse=True)] *)
Definition sorted_families (families : list (string * list Row))
    : list (string * list Row) :=
  sort_by (λ family, - Z.of_nat (length family.2))%Z families.

(** [sorted(family_members, key=lambda x: x['Centimorgans'], reverse=True)]:
    strongest first, equal strengths in their order of arrival; the
    strengths are taken to be numbers (no NaN), as the data model has
    them. *)
Fixpoint insert_by_cm (member : Row) (members : list Row) : list Row :=
  match members with
  | [] => [member]
  | other :: members' =>
      if PrimFloat.ltb (Centimorgans member) (Centimorgans other)
      then other :: insert_by_cm member members'
      else member :: members
  end.

Definition sorted_members (family_members : list Row) : list Row :=
  foldr insert_by_cm [] family_members.

(** [if min_cm_filter and min_cm_filter > 0] *)
Definition filter_applies (min_cm_filter : option float) : bool :=
  match min_cm_filter with
  | None => false
  | Some x => negb (PrimFloat.eqb x 0) && PrimFloat.ltb 0 x
  end.

(** The lines that [min_cm_filter] adds to the header: one or none. *)
Definition filter_lines (py : PythonRuntime) (min_cm_filter : option float)
    : list string :=
  match min_cm_filter with
  | Some x =>
      if filter_applies min_cm_filter
      then ["(Filtered to show only matches ≥ " +:+ fmt_float py x +:+ " cM)"]
      else []
  | None => []
  end.

Definition size_text (py : PythonRuntime) {A} (l : list A) : string :=
  fmt_int py (Z.of_nat (length l)).

(** The lines that open the entry of a group, shared by both reports. *)
Definition group_heading (py : PythonRuntime) (rank : nat) (group : list Row)
    : outcome (list string) :=
  bind (py_min (Start_Location <$> group)) (λ min_start,
  bind (py_max (End_Location <$> group)) (λ max_end,
  let group_length_mb := truediv_int py (max_end - min_start) 1000000 in
  bind (first_chromosome group) (λ chromosome,
  let total_cm := sum_floats py (Centimorgans <$> group) in
  let avg_cm := truediv_float_int py total_cm (Z.of_nat (length group)) in
  Returned
    [ "RANK #" +:+ fmt_int py (Z.of_nat rank) +:+ ": " +:+ size_text py group
        +:+ " PEOPLE SHARE DNA HERE";
      "Location: Chromosome " +:+ chromosome +:+ ", " +:+ fmt_int_commas py min_start
        +:+ " - " +:+ fmt_int_commas py max_end +:+ " bp ("
        +:+ fmt_float_1 py group_length_mb +:+ " Mb)";
      "Strength: Average " +:+ fmt_float_1 py avg_cm +:+ " cM per person, Total "
        +:+ fmt_float_1 py total_cm +:+ " cM";
      "" ]))).

(** The loop [for i, member in enumerate(sorted_members)] with its
    [break]; [member_line] is the line of one member. *)
Fixpoint member_lines (py : PythonRuntime) (member_line : Row → string)
    (group_size family_size : nat) (surname : string)
    (i : nat) (members : list Row) : list string :=
  match members with
  | [] => []
  | member :: members' =>
      if decide (group_size ≤ 20 ∨ i < 5)
      then member_line member
           :: member_lines py member_line group_size family_size surname (S i) members'
      else if decide (i = 5)
           then ["    ... and " +:+ fmt_int py (Z.of_nat family_size - 5)
                   +:+ " more " +:+ surname +:+ " family members"]
           else member_lines py member_line group_size family_size surname (S i) members'
  end.

Definition family_lines (py : PythonRuntime) (member_line : Row → string)
    (group : list Row) (family : string * list Row) : list string :=
  let '(surname, family_members) := family in
  ("  " +:+ surname +:+ " family (" +:+ size_text py family_members +:+ " people):")
  :: member_lines py member_line (length group) (length family_members) surname 0
       (sorted_members family_members).

(** [enumerate(sorted_groups, 1)], each group to its lines, in order; the
    first exception ends the report. *)
Fixpoint ranked_lines (entry : nat → list Row → outcome (list string))
    (rank : nat) (groups : list (list Row)) : outcome (list string) :=
  match groups with
  | [] => Returned []
  | group :: groups' =>
      bind (entry rank group) (λ lines,
      bind (ranked_lines entry (S rank) groups') (λ rest,
      Returned (lines ++ rest)))
  end.

Definition summary_lines (py : PythonRuntime) (sorted_groups : list (list Row))
    : list string :=
  [ "SUMMARY: Found " +:+ size_text py sorted_groups +:+ " triangulation groups";
    "Largest group: " +:+ size_text py (default [] (head sorted_groups)) +:+ " people";
    "Smallest group: " +:+ size_text py (default [] (last sorted_groups)) +:+ " people";
    "";
    Str.times "=" 60;
    "" ].

End Report.

Module OptimizedReport.
Import Report.

Definition member_line (py : PythonRuntime) (member : Row) : string :=
  let cm_str := fmt_float_1 py (Centimorgans member) +:+ " cM" in
  let snp_str := fmt_int_commas py (Matching_SNPs member) +:+ " SNPs" in
  "    • " +:+ Match_Name member +:+ " (" +:+ cm_str +:+ ", " +:+ snp_str +:+ ")".

Definition suggestion_lines (families : list (string * list Row)) : list string :=
  if decide (length families = 1)
  then
    let family_name := default EmptyString (head families.*1) in
    [ "";
      "  → SUGGESTION: This appears to be a pure " +:+ family_name +:+ " ancestral line";
      "    Consider assigning to a " +:+ family_name +:+ " ancestor" ]
  else
    [ "";
      "  → SUGGESTION: Mixed families (" +:+ Str.join ", " families.*1 +:+ ")";
      "    This may represent a common ancestor shared by these families" ].

Definition group_lines (py : PythonRuntime) (rank : nat) (group : list Row)
    : outcome (list string) :=
  bind (group_heading py rank group) (λ heading,
  let family_groups := family_groups group in
  Returned
    (heading
     ++ ["PEOPLE IN THIS GROUP (by family name):"]
     ++ concat (family_lines py (member_line py) group <$> sorted_families family_groups)
     ++ suggestion_lines family_groups
     ++ [ "";
          "  MANUAL ASSIGNMENT: ________________________________";
          "  (Write the ancestor name you want to assign this group to)";
          "";
          Str.times "-" 60;
          "" ])).

(** The list [report] as it stands before the final [join]. *)
Definition report_lines (py : PythonRuntime) (triangulation_groups : list (list Row))
    (min_cm_filter : option float) : outcome (list string) :=
  let sorted_groups := sorted_by_size triangulation_groups in
  bind (ranked_lines (group_lines py) 1 sorted_groups) (λ entries,
  Returned
    ([ "DNA TRIANGULATION GROUPS - SORTED BY SIZE";
       Str.times "=" 60;
       "(Largest groups first - these represent your strongest ancestral lines)" ]
     ++ filter_lines py min_cm_filter
     ++ [""]
     ++ summary_lines py sorted_groups
     ++ entries)).

(** [create_triangulation_report_by_size] of the optimized engine, on the
    stored list [self.triangulation_groups]. *)
Definition create_triangulation_report_by_size (py : PythonRuntime)
    (triangulation_groups : list (list Row)) (min_cm_filter : option float)
    : outcome string :=
  match triangulation_groups with
  | [] => Returned "No triangulation groups found."
  | _ => bind (report_lines py triangulation_groups min_cm_filter)
              (λ report, Returned (Str.join newline report))
  end.

End OptimizedReport.

Module SimpleReport.
Import Report.

Definition member_line (py : PythonRuntime) (member : Row) : string :=
  let cm_str := fmt_float_1 py (Centimorgans member) +:+ " cM" in
  let start_mb := truediv_int py (Start_Location member) 1000000 in
  let end_mb := truediv_int py (End_Location member) 1000000 in
  let pos_str := fmt_float_1 py start_mb +:+ "-" +:+ fmt_float_1 py end_mb +:+ "Mb" in
  "    • " +:+ Match_Name member +:+ " (" +:+ cm_str +:+ ", " +:+ pos_str +:+ ")".

Definition group_lines (py : PythonRuntime) (rank : nat) (group : list Row)
    : outcome (list string) :=
  bind (group_heading py rank group) (λ heading,
  let family_groups := family_groups group in
  Returned
    (heading
     ++ ["PEOPLE IN THIS GROUP (by family name):"]
     ++ concat (family_lines py (member_line py) group <$> sorted_families family_groups)
     ++ [ ""; Str.times "-" 60; "" ])).

Definition report_lines (py : PythonRuntime) (triangulation_groups : list (list Row))
    (min_cm_filter : option float) : outcome (list string) :=
  let sorted_groups := sorted_by_size triangulation_groups in
  bind (ranked_lines (group_lines py) 1 sorted_groups) (λ entries,
  Returned
    ([ "SIMPLE DNA TRIANGULATION GROUPS - SORTED BY SIZE";
       Str.times "=" 60;
       "(Largest groups first - using simple overlap detection)" ]
     ++ filter_lines py min_cm_filter
     ++ [""]
     ++ (if decide (sorted_groups = []) then
           ["SUMMARY: Found " +:+ size_text py sorted_groups +:+ " triangulation groups";
            ""; Str.times "=" 60; ""]
         else summary_lines py sorted_groups)
     ++ entries)).

(** [create_triangulation_report_by_size] of the simple engine. *)
Definition create_triangulation_report_by_size (py : PythonRuntime)
    (triangulation_groups : list (list Row)) (min_cm_filter : option float)
    : outcome string :=
  match triangulation_groups with
  | [] => Returned "No triangulation groups found."
  | _ => bind (report_lines py triangulation_groups min_cm_filter)
              (λ report, Returned (Str.join newline report))
  end.

End SimpleReport.

(** Two results of a report, made with the filters [f1] and [f2], agree
    in everything but the filter line: they are the same, or they are the
    same lines around the line or no line that each filter adds. *)
Definition differ_only_in_filter_line (py : PythonRuntime) (f1 f2 : option float)
    (r1 r2 : outcome string) : Prop :=
  r1 = r2
  ∨ ∃ before after,
      r1 = Returned (Str.join Report.newline
                       (before ++ Report.filter_lines py f1 ++ after))
      ∧ r2 = Returned (Str.join Report.newline
                         (before ++ Report.filter_lines py f2 ++ after)).

(** ** Reading a group off a list of rows *)

(** [group] holds the rows of [rows] that stand at [positions], in that
    order. *)
Definition at_positions (rows : list Row) (positions : list nat) (group : list Row)
    : Prop :=
  Forall2 (λ j row, rows !! j = Some row) positions group.

(** The star of a seed at threshold [T]: the seed first, then rows that
    each overlap the seed by at least [T]. *)
Definition star (T : Z) (group : list Row) : Prop :=
  ∃ seed members,
    group = seed :: members ∧ Forall (λ m, (T ≤ overlap_bp seed m)%Z) members.

(** The record of one emitted group, for the proofs: the seed's position,
    the seed, and the collected entries. *)
Definition simple_positions (t : nat * Simple.segment * list (nat * Simple.segment))
    : list nat :=
  t.1.1 :: t.2.*1.

Definition simple_group (t : nat * Simple.segment * list (nat * Simple.segment))
    : list Row :=
  Simple.data <$> (t.1.2 :: t.2.*2).

(** The same with the seed counted among the members. *)
Definition whole_star (T : Z) (group : list Row) : Prop :=
  ∃ seed, head group = Some seed ∧ Forall (λ m, (T ≤ overlap_bp seed m)%Z) group.

(** ** Seeds in sorted order *)

(** An engine, as a function of one chromosome's rows, tries its seeds
    in ascending order of start, ties in input order: it returns what it
    returns on the stably sorted rows, and the seeds, the first row of
    each group, follow the sorted rows. *)
Definition seeds_follow (rows : list Row) (groups : list (list Row)) : Prop :=
  ∃ seeds, seeds `sublist_of` rows ∧ Forall2 (λ g seed, head g = Some seed) groups seeds.

Definition seeds_in_sorted_order (engine : list Row → list (list Row)) : Prop :=
  ∀ chr_data,
    engine chr_data = engine (sort_by Start_Location chr_data)
    ∧ seeds_follow (sort_by Start_Location chr_data) (engine chr_data).

(** ** Sample rows *)

Definition sample_row (label : Z) (who chrom : string) (s e : Z) : Row :=
  mkRow label who chrom s e 10%float 1000.

Definition rowX : Row := sample_row 0 "Ann Xu" "1" 0 10.
Definition rowY : Row := sample_row 1 "Bo Young" "1" 5 20.
Definition rowZ : Row := sample_row 2 "Cy Zed" "1" 12 25.

(** A long row and two short ones that overlap it but not each other. *)
Definition rowS : Row := sample_row 0 "Sy Long" "1" 0 100.
Definition rowA : Row := sample_row 1 "Al Left" "1" 0 40.
Definition rowB : Row := sample_row 2 "Bea Right" "1" 60 100.

(** Candidate sets for the strict pass. *)
Definition rowFar : Row := sample_row 3 "Fay Far" "1" 100 110.
Definition rowNear : Row := sample_row 4 "Ned Near" "1" 105 120.
Definition rowLone : Row := sample_row 5 "Lou Lone" "1" 200 210.

Definition small_candidates : list Optimized.segment :=
  Optimized.to_segment <$> [rowFar; rowX; rowY].

Definition six_candidates : list Optimized.segment :=
  Optimized.to_segment <$> [rowFar; rowX; rowLone; rowY; rowNear; rowZ].

(** Five chromosomes, two overlapping rows on each. *)
Definition sample_data : list Row :=
  [ sample_row 0 "Ann Xu" "1" 0 10; sample_row 1 "Bo Young" "1" 5 20;
    sample_row 2 "Cy Zed" "2" 0 10; sample_row 3 "Di Wu" "2" 5 20;
    sample_row 4 "Ed Vo" "3" 0 10; sample_row 5 "Flo Ut" "3" 5 20;
    sample_row 6 "Gus Ty" "4" 0 10; sample_row 7 "Hal Su" "4" 5 20;
    sample_row 8 "Ida Ro" "5" 0 10; sample_row 9 "Jo Qi" "5" 5 20 ].


(** ** Numbered loops that may raise *)

(** [for number, x in enumerate(l, start)] around a body that yields
    some records or raises; the first exception ends the loop. *)
Fixpoint numbered {A B} (body : nat → A → outcome (list B))
    (number : nat) (l : list A) : outcome (list B) :=
  match l with
  | [] => Returned []
  | x :: l' =>
      bind (body number x) (λ records,
      bind (numbered body (S number) l') (λ rest,
      Returned (records ++ rest)))
  end.

(** ** The original engine: surnames and the export ([painter.py]) *)

Module PainterCsv.

(** One row of [triangulation_groups.csv]. *)
Record record := mkRecord {
  Group_ID : Z;
  Match_Name : string;
  Surname : string;
  Chromosome : string;
  Start_Location : Z;
  End_Location : Z;
  Centimorgans : float;
  Matching_SNPs : Z
}.

End PainterCsv.

Module Browser.

(** [extract_surname] of [DNAChromosomeBrowser]:
    [match_name.split()[-1] if match_name else "Unknown"]. *)
Definition extract_surname (match_name : option string) : outcome string :=
  match match_name with
  | None => Returned "Unknown"
  | Some EmptyString => Returned "Unknown"
  | Some match_name =>
      match last (Str.split match_name) with
      | Some word => Returned word
      | None => Raised "IndexError: list index out of range"
      end
  end.

(** The body of the loop over chromosomes of
    [detect_triangulation_groups]: the list [groups] of one chromosome. *)
Definition chromosome_groups (sort_values : list Row → list Row)
    (data : list Row) (min_overlap_bp min_group_size : Z) (chromosome : string)
    : list (list Row) :=
  let chr_data := filter (λ row, Chromosome row = chromosome) data in
  let chr_data := sort_values chr_data in
  foldl (Painter.seed_step min_overlap_bp min_group_size chr_data) [] chr_data.

Definition member_record (group_id : nat) (member : Row) : outcome PainterCsv.record :=
  bind (extract_surname (Some (Match_Name member))) (λ surname,
  Returned
    {| PainterCsv.Group_ID := Z.of_nat group_id;
       PainterCsv.Match_Name := Match_Name member;
       PainterCsv.Surname := surname;
       PainterCsv.Chromosome := Chromosome member;
       PainterCsv.Start_Location := Start_Location member;
       PainterCsv.End_Location := End_Location member;
       PainterCsv.Centimorgans := Centimorgans member;
       PainterCsv.Matching_SNPs := Matching_SNPs member |}).

(** [export_triangulation_csv]: the list [export_data] that is written
    to the file, or [None] when there are no groups and nothing is
    written. *)
Definition export_triangulation_csv (triangulation_groups : list (list Row))
    : outcome (option (list PainterCsv.record)) :=
  match triangulation_groups with
  | [] => Returned None
  | _ =>
      bind (numbered (λ group_id group, map_raising (member_record group_id) group)
              1 triangulation_groups)
           (λ export_data, Returned (Some export_data))
  end.

End Browser.

(** ** The export of the optimized engine *)

Module OptimizedCsv.

(** One row of [optimized_triangulation.csv]. *)
Record record := mkRecord {
  Group_ID : Z;
  Group_Size : Z;
  Group_Length_Mb : float;
  Group_Start : Z;
  Group_End : Z;
  Match_Name : string;
  Surname : string;
  Chromosome : string;
  Start_Location : Z;
  End_Location : Z;
  Centimorgans : float;
  Matching_SNPs : Z
}.

End OptimizedCsv.

Module OptimizedExport.
Import Report.

(** The records of one group; [round_2] is [round(x, 2)]. *)
Definition group_records (py : PythonRuntime) (round_2 : float → float)
    (group_id : nat) (group : list Row) : outcome (list OptimizedCsv.record) :=
  bind (py_min (Start_Location <$> group)) (λ min_start,
  bind (py_max (End_Location <$> group)) (λ max_end,
  let group_length := truediv_int py (max_end - min_start) 1000000 in
  Returned
    ((λ member,
        {| OptimizedCsv.Group_ID := Z.of_nat group_id;
           OptimizedCsv.Group_Size := Z.of_nat (length group);
           OptimizedCsv.Group_Length_Mb := round_2 group_length;
           OptimizedCsv.Group_Start := min_start;
           OptimizedCsv.Group_End := max_end;
           OptimizedCsv.Match_Name := Match_Name member;
           OptimizedCsv.Surname := extract_surname (Some (Match_Name member));
           OptimizedCsv.Chromosome := Chromosome member;
           OptimizedCsv.Start_Location := Start_Location member;
           OptimizedCsv.End_Location := End_Location member;
           OptimizedCsv.Centimorgans := Centimorgans member;
           OptimizedCsv.Matching_SNPs := Matching_SNPs member |}) <$> group))).

(** The list [export_data] of [export_optimized_results]. *)
Definition export_data (py : PythonRuntime) (round_2 : float → float)
    (triangulation_groups : list (list Row)) : outcome (list OptimizedCsv.record) :=
  numbered (group_records py round_2) 1 triangulation_groups.

(** [export_optimized_results]: what it returns, [None] when there are no
    groups, else the number of records written. *)
Definition export_optimized_results (py : PythonRuntime) (round_2 : float → float)
    (triangulation_groups : list (list Row)) : outcome (option nat) :=
  match triangulation_groups with
  | [] => Returned None
  | _ => bind (export_data py round_2 triangulation_groups)
              (λ export_data, Returned (Some (length export_data)))
  end.

End OptimizedExport.

(** ** The quick summary of the optimized engine *)

(** The padded formats of [create_simple_group_list]. *)
Record QuickFormat := {
  fmt_int_2 : Z → string;          (* f"{n:2d}" *)
  fmt_int_3 : Z → string;          (* f"{n:3d}" *)
  fmt_float_5_1 : float → string   (* f"{x:5.1f}" *)
}.

Module QuickList.
Import Report.

(** [f"{s:2s}"]: a string is padded with spaces on the right to two
    characters. *)
Definition fmt_str_2 (s : string) : string :=
  s +:+ Str.times " " (2 - String.length s).

(** [family_groups[surname] += 1] on a [defaultdict(int)]. *)
Fixpoint count_append (surname : string) (family_groups : list (string * nat))
    : list (string * nat) :=
  match family_groups with
  | [] => [(surname, 1)]
  | (name, n) :: rest =>
      if String.eqb name surname then (name, S n) :: rest
      else (name, n) :: count_append surname rest
  end.

Definition family_counts (group : list Row) : list (string * nat) :=
  foldl (λ counts member,
           count_append (extract_surname (Some (Match_Name member))) counts)
        [] group.

(** [max(items, key=lambda x: x[1])]: the first item with the largest
    count. *)
Definition max_by_count (items : list (string * nat)) : outcome (string * nat) :=
  match items with
  | [] => Raised "ValueError: max() arg is an empty sequence"
  | first :: items' =>
      Returned (foldl (λ best item, if decide (best.2 < item.2) then item else best)
                      first items')
  end.

Definition group_line (py : PythonRuntime) (qf : QuickFormat)
    (rank : nat) (group : list Row) : outcome (list string) :=
  bind (first_chromosome group) (λ chromosome,
  bind (py_min (Start_Location <$> group)) (λ min_start,
  bind (py_max (End_Location <$> group)) (λ max_end,
  let group_length_mb := truediv_int py (max_end - min_start) 1000000 in
  let family_groups := family_counts group in
  bind (max_by_count family_groups) (λ dominant_family,
  let family_mix :=
    if decide (length family_groups = 1)
    then dominant_family.1 +:+ " (" +:+ fmt_int py (Z.of_nat dominant_family.2) +:+ ")"
    else "Mixed: " +:+ size_text py family_groups +:+ " families" in
  Returned
    [ fmt_int_2 qf (Z.of_nat rank) +:+ ". " +:+ fmt_int_3 qf (Z.of_nat (length group))
        +:+ " people | Chr " +:+ fmt_str_2 chromosome +:+ " | "
        +:+ fmt_float_5_1 qf group_length_mb +:+ " Mb | " +:+ family_mix ])))).

Definition report_lines (py : PythonRuntime) (qf : QuickFormat)
    (triangulation_groups : list (list Row)) : outcome (list string) :=
  let sorted_groups := sorted_by_size triangulation_groups in
  bind (numbered (group_line py qf) 1 sorted_groups) (λ entries,
  Returned (["QUICK GROUP SUMMARY (Largest First)"; Str.times "=" 50] ++ entries)).

(** [create_simple_group_list] on the stored list of groups. *)
Definition create_simple_group_list (py : PythonRuntime) (qf : QuickFormat)
    (triangulation_groups : list (list Row)) : outcome string :=
  match triangulation_groups with
  | [] => Returned "No triangulation groups found."
  | _ => bind (report_lines py qf triangulation_groups)
              (λ report, Returned (Str.join newline report))
  end.

End QuickList.

(** ** The database of segments ([dna_database.py])

    The table [dna_segments] is the list of its rows in order of
    insertion; [id INTEGER PRIMARY KEY AUTOINCREMENT] takes the successor
    of the largest id that the table ever held, which SQLite keeps in
    [sqlite_sequence] and which is taken to be below its 64-bit bound.

    The file is one that exists, that [pd.read_csv] can read and that has
    the required columns.  A cell of the frame holds a value of its
    column's type (a [str] for a name or a chromosome, an [int] for a
    location or the SNPs, a [float] for the centimorgans) or is empty;
    pandas reads an empty cell as the float NaN. *)

Module Database.

Record Segment := mkSegment {
  id : Z;
  match_name : string;
  chromosome : string;
  start_location : Z;
  end_location : Z;
  centimorgans : float;
  matching_snps : Z;
  source_file : option string;
  import_date : string;
  assigned_family : option string;
  notes : option string
}.

Record Import := mkImport {
  filename : string;
  file_path : string;
  segments_imported : Z;
  history_date : string
}.

Record State := mkState {
  dna_segments : list Segment;
  sqlite_sequence : Z;
  import_history : list Import
}.

(** A row of the frame read from the file; [None] is an empty cell, and
    an empty [Centimorgans] cell is the NaN that it is read as. *)
Record CsvRow := mkCsvRow {
  Match_Name : option string;
  Chromosome : option string;
  Start_Location : option Z;
  End_Location : option Z;
  Centimorgans : float;
  Matching_SNPs : option Z
}.

(** [init_database] on a new file: the tables are there and empty. *)
Definition init_database : State :=
  {| dna_segments := []; sqlite_sequence := 0; import_history := [] |}.

(** [str(row['Chromosome'])]; [str] of NaN is ["nan"]. *)
Definition py_str (cell : option string) : string := default "nan" cell.

(** [int(cell)] *)
Definition py_int (cell : option Z) : outcome Z :=
  match cell with
  | Some n => Returned n
  | None => Raised "ValueError: cannot convert float NaN to integer"
  end.

(** An integer of SQLite has 64 bits. *)
Definition sqlite_integer (n : Z) : Prop := (- 2 ^ 63 ≤ n < 2 ^ 63)%Z.

(** The binding of a Python [int] to a parameter of a statement. *)
Definition bind_int (n : Z) : outcome Z :=
  if decide (sqlite_integer n) then Returned n
  else Raised "OverflowError: Python int too large to convert to SQLite INTEGER".

(** [WHERE match_name = ? AND chromosome = ? AND start_location = ?
    AND end_location = ?].  An empty name cell is bound as NULL, and a
    comparison with NULL holds for no segment. *)
Definition same_segment (name : option string) (chrom : string) (start end_ : Z)
    (s : Segment) : Prop :=
  name = Some (match_name s) ∧ chromosome s = chrom
  ∧ start_location s = start ∧ end_location s = end_.

#[global] Instance same_segment_dec name chrom start end_ s :
  Decision (same_segment name chrom start end_ s).
Proof. unfold same_segment. apply _. Defined.

(** [SELECT COUNT( * ) FROM dna_segments WHERE ...] *)
Definition count_existing (name : option string) (chrom : string) (start end_ : Z)
    (table : list Segment) : nat :=
  length (filter (same_segment name chrom start end_) table).

(** [extract_surname] of this class, the text of the engines' function,
    on a cell.  NaN is not false, so it passes [if not match_name], and a
    float has no [replace]. *)
Definition extract_surname (match_name : option string) : outcome string :=
  match match_name with
  | Some name => Returned (extract_surname (Some name))
  | None => Raised "AttributeError: 'float' object has no attribute 'replace'"
  end.

(** [INSERT INTO dna_segments (...) VALUES (?, ?, ?, ?, ?, ?, ?, ?, ?)]
    once the parameters are bound: NULL, as which a NaN is stored, is
    refused by [NOT NULL]. *)
Definition insert_segment (table : list Segment) (sequence : Z)
    (name : option string) (chrom : string) (start end_ : Z) (cm : float) (snps : Z)
    (source_name import_date surname : string) : outcome (list Segment * Z) :=
  match name with
  | None => Raised "IntegrityError: NOT NULL constraint failed: dna_segments.match_name"
  | Some name =>
      if PrimFloat.is_nan cm
      then Raised "IntegrityError: NOT NULL constraint failed: dna_segments.centimorgans"
      else Returned (table ++ [ {| id := sequence + 1;
                                   match_name := name;
                                   chromosome := chrom;
                                   start_location := start;
                                   end_location := end_;
                                   centimorgans := cm;
                                   matching_snps := snps;
                                   source_file := Some source_name;
                                   import_date := import_date;
                                   assigned_family := Some surname;
                                   notes := None |} ],
                     (sequence + 1)%Z)
  end.

(** One turn of [for _, row in df.iterrows()]; the state is the table,
    the id counter, [imported_count] and [duplicate_count].  The
    parameters of a statement are evaluated, then bound, then the
    statement runs. *)
Definition import_row (source_name import_date : string)
    (st : list Segment * Z * nat * nat) (row : CsvRow)
    : outcome (list Segment * Z * nat * nat) :=
  let '(table, sequence, imported_count, duplicate_count) := st in
  let chrom := py_str (Chromosome row) in
  bind (py_int (Start_Location row)) (λ start,
  bind (py_int (End_Location row)) (λ end_,
  bind (bind_int start) (λ _,
  bind (bind_int end_) (λ _,
  if decide (count_existing (Match_Name row) chrom start end_ table = 0) then
    bind (extract_surname (Match_Name row)) (λ surname,
    bind (py_int (Matching_SNPs row)) (λ snps,
    bind (bind_int snps) (λ _,
    bind (insert_segment table sequence (Match_Name row) chrom start end_
            (Centimorgans row) snps source_name import_date surname)
         (λ inserted,
    Returned (inserted.1, inserted.2, S imported_count, duplicate_count)))))
  else Returned (table, sequence, imported_count, S duplicate_count))))).

(** The loop over the rows: the first exception ends it. *)
Fixpoint import_rows (source_name import_date : string)
    (st : list Segment * Z * nat * nat) (rows : list CsvRow)
    : outcome (list Segment * Z * nat * nat) :=
  match rows with
  | [] => Returned st
  | row :: rows' =>
      bind (import_row source_name import_date st row) (λ st,
      import_rows source_name import_date st rows')
  end.

(** [import_csv_data(file_path, source_name)]; [df] is the file read,
    [basename] is [os.path.basename(file_path)], [now] is
    [datetime.now().isoformat()].  The database afterwards, and the
    returned pair [(imported_count, duplicate_count)] or the exception.
    An exception leaves the function before [conn.commit()], so that
    nothing of the import is stored. *)
Definition import_csv_data (db : State) (df : list CsvRow)
    (path basename now : string) (source_name : option string)
    : State * outcome (nat * nat) :=
  let source_name :=
    match source_name with
    | None => basename
    | Some EmptyString => basename
    | Some name => name
    end in
  match import_rows source_name now (dna_segments db, sqlite_sequence db, 0, 0) df with
  | Returned (table, sequence, imported_count, duplicate_count) =>
      ({| dna_segments := table;
          sqlite_sequence := sequence;
          import_history :=
            import_history db
            ++ [ {| filename := basename; file_path := path;
                    segments_imported := Z.of_nat imported_count;
                    history_date := now |} ] |},
       Returned (imported_count, duplicate_count))
  | Raised e => (db, Raised e)
  end.

(** [UPDATE dna_segments SET assigned_family = ? WHERE id = ?] *)
Definition update_segment_family (db : State) (segment_id : Z) (family_name : string)
    : State :=
  {| dna_segments :=
       (λ s, if decide (id s = segment_id)
             then {| id := id s; match_name := match_name s;
                     chromosome := chromosome s;
                     start_location := start_location s;
                     end_location := end_location s;
                     centimorgans := centimorgans s;
                     matching_snps := matching_snps s;
                     source_file := source_file s;
                     import_date := import_date s;
                     assigned_family := Some family_name;
                     notes := notes s |}
             else s) <$> dna_segments db;
     sqlite_sequence := sqlite_sequence db;
     import_history := import_history db |}.

(** [DELETE FROM dna_segments WHERE id = ?] *)
Definition delete_segment (db : State) (segment_id : Z) : State :=
  {| dna_segments := filter (λ s, id s ≠ segment_id) (dna_segments db);
     sqlite_sequence := sqlite_sequence db;
     import_history := import_history db |}.

(** The four cells by which [import_csv_data] tells segments apart. *)
Definition key (s : Segment) : string * string * Z * Z :=
  (match_name s, chromosome s, start_location s, end_location s).

(** The four cells under which a row of the file is looked up, when the
    lookup can be made and can find a segment: the name is there, and the
    locations are there and fit a parameter. *)
Definition row_key (row : CsvRow) : option (string * string * Z * Z) :=
  match Match_Name row, Start_Location row, End_Location row with
  | Some name, Some start, Some end_ =>
      if decide (sqlite_integer start ∧ sqlite_integer end_)
      then Some (name, py_str (Chromosome row), start, end_)
      else None
  | _, _, _ => None
  end.

(** A row that can be stored: it has a key, its centimorgans are a
    number, and its SNPs are there and fit a parameter. *)
Definition complete (row : CsvRow) : Prop :=
  is_Some (row_key row)
  ∧ PrimFloat.is_nan (Centimorgans row) = false
  ∧ ∃ snps, Matching_SNPs row = Some snps ∧ sqlite_integer snps.

(** A table as the operations of this module leave it: no id twice, and
    no id above the counter. *)
Definition ids_in_order (db : State) : Prop :=
  NoDup (id <$> dna_segments db)
  ∧ Forall (λ s, (id s ≤ sqlite_sequence db)%Z) (dna_segments db).

End Database.

(** A row of a file without empty cells. *)
Definition csv_row (row : Row) : Database.CsvRow :=
  {| Database.Match_Name := Some (Match_Name row);
     Database.Chromosome := Some (Chromosome row);
     Database.Start_Location := Some (Start_Location row);
     Database.End_Location := Some (End_Location row);
     Database.Centimorgans := Centimorgans row;
     Database.Matching_SNPs := Some (Matching_SNPs row) |}.

(** ** The report of the original algorithm ([dna_gui_main.py]) *)

(** What [generate_original_report] takes from the runtime besides the
    formats of the reports by size. *)
Record OriginalFormat := {
  fmt_float_2 : float → string;              (* f"{x:.2f}" *)
  set_order : gset string → list string      (* the order in which a set is iterated *)
}.

Module OriginalReport.
Import Report.

(** The two lines of one member. *)
Definition member_text (py : PythonRuntime) (member : Row) : outcome string :=
  bind (Browser.extract_surname (Some (Match_Name member))) (λ surname,
  Returned
    ("    • " +:+ Match_Name member +:+ " (" +:+ surname +:+ ")" +:+ newline
     +:+ "      " +:+ fmt_int_commas py (Start_Location member) +:+ " - "
     +:+ fmt_int_commas py (End_Location member) +:+ " bp, "
     +:+ fmt_float py (Centimorgans member) +:+ " cM" +:+ newline)).

(** What one turn of the loop over the groups adds to [results_text]. *)
Definition group_text (py : PythonRuntime) (fmt : OriginalFormat)
    (i : nat) (group : list Row) : outcome (list string) :=
  bind (first_chromosome group) (λ chromosome,
  bind (py_min (Start_Location <$> group)) (λ min_start,
  bind (py_max (End_Location <$> group)) (λ max_end,
  bind (map_raising (member_text py) group) (λ members,
  bind (map_raising (λ member, Browser.extract_surname (Some (Match_Name member)))
                    group) (λ names,
  let surnames : gset string := list_to_set names in
  Returned
    ([ "GROUP " +:+ fmt_int py (Z.of_nat i) +:+ ":" +:+ newline;
       "  Chromosome: " +:+ chromosome +:+ newline;
       "  Region: " +:+ fmt_int_commas py min_start +:+ " - "
         +:+ fmt_int_commas py max_end +:+ " bp" +:+ newline;
       "  Length: " +:+ fmt_float_2 fmt (truediv_int py (max_end - min_start) 1000000)
         +:+ " Mb" +:+ newline;
       "  Members (" +:+ size_text py group +:+ "):" +:+ newline ]
     ++ members
     ++ [ if decide (size surnames = 1)
          then "  ✓ All members from "
               +:+ default EmptyString (head (set_order fmt surnames))
               +:+ " family" +:+ newline
          else "  ⚠ Mixed families: " +:+ Str.join ", " (set_order fmt surnames)
               +:+ newline;
          newline ])))))).

(** [generate_original_report(groups)] *)
Definition generate_original_report (py : PythonRuntime) (fmt : OriginalFormat)
    (groups : list (list Row)) : outcome string :=
  match groups with
  | [] =>
      Returned ("No triangulation groups found with the current parameters."
                +:+ newline +:+ "Try reducing the minimum overlap or group size.")
  | _ =>
      bind (numbered (group_text py fmt) 1 groups) (λ pieces,
      Returned
        (foldr String.append EmptyString
           ([ "TRIANGULATION ANALYSIS RESULTS (Original Algorithm)" +:+ newline;
              Str.times "=" 60 +:+ newline +:+ newline;
              "Found " +:+ size_text py groups
                +:+ " potential triangulation groups:" +:+ newline +:+ newline ]
            ++ pieces)))
  end.

End OriginalReport.

(** ** The triangulation tab ([dna_gui_main.py]) *)

Module Gui.

(** The frame that [pd.read_sql_query] makes of a result set, with the
    columns renamed for the engines: row [i] of the result has the label
    [i]. *)
Definition frame (result : list Database.Segment) : list Row :=
  imap (λ i s,
          {| row_name := Z.of_nat i;
             Match_Name := Database.match_name s;
             Chromosome := Database.chromosome s;
             Start_Location := Database.start_location s;
             End_Location := Database.end_location s;
             Centimorgans := Database.centimorgans s;
             Matching_SNPs := Database.matching_snps s |}) result.

(** The two filters of "Apply cM filters to data". *)
Definition apply_cm_filters (min_cm max_cm : float) (df : list Row) : list Row :=
  let df :=
    if PrimFloat.ltb 0 min_cm
    then filter (λ row, PrimFloat.leb min_cm (Centimorgans row) = true) df
    else df in
  let df :=
    if PrimFloat.ltb max_cm infinity
    then filter (λ row, PrimFloat.leb (Centimorgans row) max_cm = true) df
    else df in
  df.

(** A row that the filters keep. *)
Definition within_range (min_cm max_cm : float) (row : Row) : Prop :=
  (PrimFloat.ltb 0 min_cm = true → PrimFloat.leb min_cm (Centimorgans row) = true)
  ∧ (PrimFloat.ltb max_cm infinity = true
     → PrimFloat.leb (Centimorgans row) max_cm = true).

(** The groups that [run_analysis] computes, by the chosen algorithm. *)
Definition analysis_groups (sort_values : list Row → list Row)
    (cpu_count : nat) (schedule : list nat) (algorithm : string)
    (df : list Row) (min_overlap_bp min_group_size : Z) : outcome (list (list Row)) :=
  if decide (algorithm = "Simple (Debug)") then
    Returned (Scheduler.detect_triangulation_simple df min_overlap_bp min_group_size)
  else if decide (algorithm = "Optimized (Fast)") then
    Scheduler.detect_triangulation_groups_optimized cpu_count schedule df
      min_overlap_bp min_group_size None
  else
    Returned (Painter.detect_triangulation_groups sort_values df
                min_overlap_bp min_group_size).

(** How [run_triangulation] ends, past the reading of the parameters. *)
Inductive run : Type :=
  | no_data                 (* warning "No segments found in database" *)
  | declined                (* the large-dataset question answered with no *)
  | nothing_remains         (* "No segments remain after cM filtering" *)
  | analysis (groups : outcome (list (list Row))).

(** [run_triangulation]: [result] is what [get_all_segments] returns,
    [response] the answer to the large-dataset question. *)
Definition run_triangulation (sort_values : list Row → list Row)
    (cpu_count : nat) (schedule : list nat) (response : bool)
    (result : list Database.Segment) (algorithm : string)
    (min_overlap_bp min_group_size : Z) (min_cm max_cm : float) : run :=
  let df := frame result in
  match df with
  | [] => no_data
  | _ =>
      if bool_decide (5000 < length df ∧ algorithm = "Original (Slow)") && negb response
      then declined
      else
        let run_analysis df :=
          analysis (analysis_groups sort_values cpu_count schedule algorithm
                      df min_overlap_bp min_group_size) in
        if PrimFloat.ltb 0 min_cm || PrimFloat.ltb max_cm infinity then
          let df := apply_cm_filters min_cm max_cm df in
          match df with
          | [] => nothing_remains
          | _ => run_analysis df
          end
        else run_analysis df
  end.

(** [str(e)]: the message of an exception.  The outcomes of this
    development name an exception by its class, a colon and its message. *)
Fixpoint message_from (e : string) : option string :=
  match e with
  | EmptyString => None
  | String ":" (String " " message) => Some message
  | String _ e' => message_from e'
  end.

Definition exception_str (e : string) : string := default e (message_from e).

(** [run_analysis], the function inside [run_triangulation]: the report
    goes to the window, and the [except Exception as e] clause sends
    [f"Error during analysis: {str(e)}"]. *)
Definition run_analysis (analysis : outcome string) : Scheduler.gui_event :=
  match analysis with
  | Returned results_text => Scheduler.update_triangulation_results results_text
  | Raised e => Scheduler.show_triangulation_error ("Error during analysis: " ++ exception_str e)
  end.

(** What [run_analysis] hands to the window for the optimized
    algorithm: the quick summary or the report by size, made of the
    groups of the run with the filter [min_cm]. *)
Definition optimized_analysis (py : PythonRuntime) (qf : QuickFormat)
    (cpu_count : nat) (schedule : list nat) (report_format : string)
    (df : list Row) (min_overlap_bp min_group_size : Z) (min_cm : float)
    : Scheduler.gui_event :=
  run_analysis
    (bind (Scheduler.detect_triangulation_groups_optimized cpu_count schedule df
             min_overlap_bp min_group_size None) (λ groups,
     if decide (report_format = "Quick Summary")
     then QuickList.create_simple_group_list py qf groups
     else OptimizedReport.create_triangulation_report_by_size py groups (Some min_cm))).

(** The same for the original algorithm. *)
Definition original_analysis (py : PythonRuntime) (fmt : OriginalFormat)
    (sort_values : list Row → list Row)
    (df : list Row) (min_overlap_bp min_group_size : Z) : Scheduler.gui_event :=
  run_analysis
    (OriginalReport.generate_original_report py fmt
       (Painter.detect_triangulation_groups sort_values df
          min_overlap_bp min_group_size)).

End Gui.

(** ** What a run returns *)

(** A group as the engines return them: at least [k] rows, all rows of
    the data, all on one chromosome. *)
Definition group_of (data : list Row) (k : Z) (g : list Row) : Prop :=
  (k ≤ Z.of_nat (length g))%Z
  ∧ g ⊆ data
  ∧ ∃ c, Forall (λ m, Chromosome m = c) g.

(** The rows other than [seed] that overlap it by at least [T], in the
    order of [rows]. *)
Definition overlapping_rows (T : Z) (seed : Row) (rows : list Row) : list Row :=
  filter (λ r, row_name r ≠ row_name seed ∧ (T ≤ overlap_bp seed r)%Z) rows.

(** ** Names *)

(** A non-empty string of whitespace only. *)
Definition blank (s : string) : Prop :=
  s ≠ EmptyString ∧ Forall (λ c, Str.isspace c = true) (list_ascii_of_string s).

#[global] Instance blank_dec s : Decision (blank s).
Proof. unfold blank. apply _. Defined.

(** The surname under which the reports file a row. *)
Definition surname_of (member : Row) : string :=
  extract_surname (Some (Match_Name member)).

(** A family of a report, counted. *)
Definition family_size (family : string * list Row) : string * nat :=
  (family.1, length family.2).

(** A name with the four titles taken out, as [extract_surname] does it. *)
Definition without_titles (match_name : string) : string :=
  Str.remove "Ph.D." (Str.remove "Dr." (Str.remove "Mrs." (Str.remove "Mr." match_name))).

(** The rows of [rows] whose label is in no group. *)
Definition left_out (rows : list Row) (groups : list (list Row)) : list Row :=
  filter (λ r, row_name r ∉ row_name <$> concat groups) rows.

(** ** More sample data *)

(** A runtime for the examples: it prints every number as [#], adds up
    to zero and divides to zero. *)
Definition sample_runtime : PythonRuntime :=
  {| fmt_int := λ _, "#";
     fmt_int_commas := λ _, "#";
     fmt_float := λ _, "#";
     fmt_float_1 := λ _, "#";
     sum_floats := λ _, 0%float;
     truediv_int := λ _ _, 0%float;
     truediv_float_int := λ _ _, 0%float |}.

Definition sample_format : QuickFormat :=
  {| fmt_int_2 := λ _, "#"; fmt_int_3 := λ _, "#"; fmt_float_5_1 := λ _, "#" |}.

(** A database after one import of two rows. *)
Definition sample_db : Database.State :=
  (Database.import_csv_data Database.init_database (csv_row <$> [rowX; rowY])
     "/data/matches.csv" "matches.csv" "2025-09-28T10:00:00" None).1.

(** The row of [rowZ] with its name cell empty. *)
Definition csv_nameless : Database.CsvRow :=
  {| Database.Match_Name := None;
     Database.Chromosome := Some "1"%string;
     Database.Start_Location := Some 12%Z;
     Database.End_Location := Some 25%Z;
     Database.Centimorgans := 10%float;
     Database.Matching_SNPs := Some 1000%Z |}.

Definition sample_original_format : OriginalFormat :=
  {| fmt_float_2 := λ _, "#"; set_order := elements |}.

(** A name of blanks only. *)
Definition blank_name : string := "  ".

Definition rowBlank : Row := sample_row 7 blank_name "1" 0 10.

(** The rows with a label above the seed's that overlap it by at least
    [T], in the order of [rows]: what the original engine collects. *)
Definition later_overlapping_rows (T : Z) (seed : Row) (rows : list Row) : list Row :=
  filter (λ r, (row_name seed < row_name r)%Z ∧ (T ≤ overlap_bp seed r)%Z) rows.

(** The rows other than [seed], in none of the groups [earlier], whose
    overlap with the seed as the simple engine computes it is at least
    [T]: what the simple engine collects. *)
Definition unused_overlapping_rows (T : Z) (earlier : list (list Row))
    (seed : Row) (rows : list Row) : list Row :=
  filter (λ r, row_name r ≠ row_name seed
               ∧ (row_name r ∉ row_name <$> concat earlier)
               ∧ (T ≤ Simple.actual_overlap (Simple.to_segment seed)
                                            (Simple.to_segment r))%Z) rows.





(** A fourth row on the chromosome of [rowX], [rowY] and [rowZ]; it
    overlaps [rowZ] and [rowY]. *)
Definition rowW : Row := sample_row 3 "Wes Wu" "1" 14 30.

(** * Properties *)

(** ** [enumerate] *)

Lemma enumerate_from_snd {A} n (l : list A) : (enumerate_from n l).*2 = l.
Proof. revert n; induction l as [|x l IH]; intros n; simpl; [done|]. by rewrite IH. Qed.

Lemma enumerate_from_fst {A} n (l : list A) : (enumerate_from n l).*1 = seq n (length l).
Proof. revert n; induction l as [|x l IH]; intros n; simpl; [done|]. by rewrite IH. Qed.

Lemma elem_of_enumerate_from {A} n (l : list A) j x :
  (j, x) ∈ enumerate_from n l ↔ n ≤ j ∧ l !! (j - n) = Some x.
Proof.
  revert n; induction l as [|y l IH]; intros n; simpl.
  - rewrite elem_of_nil. naive_solver.
  - rewrite elem_of_cons, IH. split.
    + intros [[= -> ->]|[Hle Hl]].
      * split; [lia|]. by replace (n - n) with 0 by lia.
      * split; [lia|]. by replace (j - n) with (S (j - S n)) by lia.
    + intros [Hle Hl]. destruct (decide (j = n)) as [->|Hne].
      * left. replace (n - n) with 0 in Hl by lia. naive_solver.
      * right. split; [lia|]. by replace (j - n) with (S (j - S n)) in Hl by lia.
Qed.

Lemma elem_of_enumerate {A} (l : list A) j x :
  (j, x) ∈ enumerate l ↔ l !! j = Some x.
Proof.
  unfold enumerate. rewrite elem_of_enumerate_from.
  replace (j - 0) with j by lia. intuition lia.
Qed.

Lemma enumerate_from_app {A} n (l1 l2 : list A) :
  enumerate_from n (l1 ++ l2)
  = enumerate_from n l1 ++ enumerate_from (n + length l1) l2.
Proof.
  revert n; induction l1 as [|x l1 IH]; intros n; simpl.
  - by rewrite Nat.add_0_r.
  - rewrite IH. by replace (S n + length l1) with (n + S (length l1)) by lia.
Qed.

(** ** The stable sort *)

Section stable_sort_facts.
Context {A : Type} (key : A → Z).

Lemma insert_by_perm x l : insert_by key x l ≡ₚ x :: l.
Proof.
  induction l as [|y l IH]; simpl; [done|].
  case_decide; [done|]. rewrite IH. apply Permutation_swap.
Qed.

Lemma sort_by_perm l : sort_by key l ≡ₚ l.
Proof.
  induction l as [|x l IH]; simpl; [done|].
  by rewrite insert_by_perm, IH.
Qed.

Lemma insert_by_sorted x l :
  StronglySorted (key_le key) l → StronglySorted (key_le key) (insert_by key x l).
Proof.
  induction 1 as [|y l Hl IH Hy]; simpl.
  - repeat constructor.
  - case_decide as Hxy.
    + constructor; [by constructor|]. constructor; [done|].
      eapply Forall_impl; [exact Hy|]. unfold key_le. intros z Hz. lia.
    + constructor; [done|].
      rewrite insert_by_perm. constructor; [unfold key_le; lia|done].
Qed.

Lemma sort_by_sorted l : StronglySorted (key_le key) (sort_by key l).
Proof.
  induction l as [|x l IH]; simpl; [constructor|]. by apply insert_by_sorted.
Qed.

Lemma with_key_insert_by k x l :
  with_key key k (insert_by key x l) = with_key key k (x :: l).
Proof.
  unfold with_key. induction l as [|y l IH]; simpl; [done|].
  case_decide as Hxy; [done|].
  rewrite !filter_cons in *. repeat case_decide; simplify_eq; try done; try lia; by rewrite IH.
Qed.

Lemma sort_by_stable k l : with_key key k (sort_by key l) = with_key key k l.
Proof.
  induction l as [|x l IH]; simpl; [done|].
  rewrite with_key_insert_by. unfold with_key in *.
  rewrite !filter_cons. by rewrite IH.
Qed.

Lemma insert_by_least x l :
  Forall (key_le key x) l → insert_by key x l = x :: l.
Proof.
  destruct 1 as [|y l Hy _]; simpl; [done|]. by rewrite decide_True.
Qed.

Lemma sort_by_id l : StronglySorted (key_le key) l → sort_by key l = l.
Proof.
  induction 1 as [|x l Hl IH Hx]; simpl; [done|].
  rewrite IH. by apply insert_by_least.
Qed.

Lemma sort_by_idemp l : sort_by key (sort_by key l) = sort_by key l.
Proof. apply sort_by_id, sort_by_sorted. Qed.

(** Two ascending lists that hold the same rows in the same order under
    every key are equal: the stable sort of a list is determined. *)
Lemma stable_sorted_eq l1 l2 :
  StronglySorted (key_le key) l1 → StronglySorted (key_le key) l2 →
  (∀ k, with_key key k l1 = with_key key k l2) → l1 = l2.
Proof.
  intros H1; revert l2. induction H1 as [|x l1 Hl1 IH Hx]; intros l2 H2 Heq.
  - destruct l2 as [|y l2]; [done|].
    specialize (Heq (key y)). unfold with_key in Heq.
    rewrite filter_cons, decide_True in Heq by done. done.
  - destruct H2 as [|y l2 Hl2 Hy].
    { specialize (Heq (key x)). unfold with_key in Heq.
      rewrite filter_cons, decide_True in Heq by done. done. }
    assert (key x = key y) as Hk.
    { assert (key y ≤ key x)%Z.
      { assert (x ∈ y :: l2) as Hin.
        { pose proof (Heq (key x)) as E. unfold with_key in E.
          rewrite (filter_cons _ x), decide_True in E by done.
          assert (x ∈ filter (λ z, key z = key x) (y :: l2)) as Hx'
            by (rewrite <- E; left).
          by apply list_elem_of_filter in Hx' as [_ ?]. }
        apply elem_of_cons in Hin as [->|Hin]; [lia|].
        rewrite Forall_forall in Hy. by apply Hy. }
      assert (key x ≤ key y)%Z.
      { assert (y ∈ x :: l1) as Hin.
        { pose proof (Heq (key y)) as E. unfold with_key in E.
          rewrite (filter_cons _ y), decide_True in E by done.
          assert (y ∈ filter (λ z, key z = key y) (x :: l1)) as Hy'
            by (rewrite E; left).
          by apply list_elem_of_filter in Hy' as [_ ?]. }
        apply elem_of_cons in Hin as [->|Hin]; [lia|].
        rewrite Forall_forall in Hx. by apply Hx. }
      lia. }
    pose proof (Heq (key x)) as E. unfold with_key in E.
    rewrite !filter_cons, !decide_True in E by done.
    injection E as -> E. f_equal. apply IH; [done|].
    intros k. specialize (Heq k). unfold with_key in *.
    rewrite !filter_cons in Heq. case_decide; [|done]. by simplify_eq.
Qed.

Lemma stable_sort_unique l l' :
  StronglySorted (key_le key) l' →
  (∀ k, with_key key k l' = with_key key k l) →
  l' = sort_by key l.
Proof.
  intros Hs Hk. apply stable_sorted_eq; [done|apply sort_by_sorted|].
  intros k. by rewrite Hk, sort_by_stable.
Qed.

End stable_sort_facts.

Lemma sort_by_fmap {A B} (f : A → B) (key : B → Z) (l : list A) :
  sort_by key (f <$> l) = f <$> sort_by (key ∘ f) l.
Proof.
  induction l as [|x l IH]; csimpl; [done|]. rewrite IH.
  generalize (sort_by (key ∘ f) l). intros s.
  induction s as [|y s IHs]; csimpl; [done|].
  case_decide; [done|]. by rewrite IHs.
Qed.

(** ** Overlap *)

Lemma overlap_bp_sym A B : overlap_bp A B = overlap_bp B A.
Proof. unfold overlap_bp. lia. Qed.

Lemma overlap_bp_self_max A B : (overlap_bp A B ≤ overlap_bp A A)%Z.
Proof. unfold overlap_bp. lia. Qed.

Lemma optimized_overlap_rows r1 r2 :
  Optimized.actual_overlap (Optimized.to_segment r1) (Optimized.to_segment r2)
  = overlap_bp r1 r2.
Proof. unfold Optimized.actual_overlap, overlap_bp. simpl. lia. Qed.

Lemma simple_overlap_rows r1 r2 :
  Z.max 0 (Simple.actual_overlap (Simple.to_segment r1) (Simple.to_segment r2))
  = overlap_bp r1 r2.
Proof. unfold Simple.actual_overlap, overlap_bp. simpl. lia. Qed.

(** ** The loops of the optimized engine *)

Section optimized_loops.
Import Optimized.
Implicit Types (segments : list segment).

(** What the inner loop adds to a group: some of the candidates, in
    order, each overlapping the seed, with indices new to the group. *)
Lemma optimized_collect_fold T i (segment1 : segment) cands g idx :
  ∃ extra,
    foldl (collect_step T i segment1) (g, idx) cands
      = (g ++ extra.*2, idx ∪ list_to_set (index <$> extra.*2))
    ∧ extra `sublist_of` cands
    ∧ Forall (λ e, e.1 ≠ i ∧ (T ≤ actual_overlap segment1 e.2)%Z) extra
    ∧ NoDup (index <$> extra.*2)
    ∧ (∀ e, e ∈ extra → index e.2 ∉ idx).
Proof.
  revert g idx. induction cands as [|[j segment2] cands IH]; intros g idx.
  { exists []. csimpl. split; [f_equal; [by rewrite app_nil_r|set_solver]|].
    repeat split; [done|constructor|constructor|set_solver]. }
  cbn [foldl collect_step].
  destruct (decide (j = i ∨ index segment2 ∈ idx)) as [Hskip|Hnew].
  { destruct (IH g idx) as (extra & -> & Hsub & Hov & Hnd & Hfresh).
    exists extra. repeat split; try done. by apply sublist_cons. }
  destruct (decide (T ≤ actual_overlap segment1 segment2)%Z) as [Hov2|Hno].
  2:{ destruct (IH g idx) as (extra & -> & Hsub & Hov & Hnd & Hfresh).
      exists extra. repeat split; try done. by apply sublist_cons. }
  destruct (IH (g ++ [segment2]) (idx ∪ {[index segment2]}))
    as (extra & -> & Hsub & Hov & Hnd & Hfresh).
  exists ((j, segment2) :: extra). csimpl. split; [|repeat split].
  - rewrite <- app_assoc. f_equal. set_solver.
  - by apply sublist_skip.
  - constructor; [|done]. simpl. tauto.
  - constructor; [|done]. intros Hin.
    apply list_elem_of_fmap in Hin as (m & Hm & Hin).
    apply list_elem_of_fmap in Hin as (e & -> & Hin).
    apply Hfresh in Hin. set_solver.
  - intros e [->|Hin]%elem_of_cons; simpl; [tauto|].
    apply Hfresh in Hin. set_solver.
Qed.

Lemma optimized_collect_shape T segments i (segment1 : segment) :
  ∃ extra,
    (collect T segments i segment1).1 = segment1 :: extra.*2
    ∧ extra `sublist_of` enumerate segments
    ∧ Forall (λ e, e.1 ≠ i ∧ (T ≤ actual_overlap segment1 e.2)%Z) extra
    ∧ NoDup (index <$> segment1 :: extra.*2).
Proof.
  unfold collect.
  destruct (optimized_collect_fold T i segment1 (enumerate segments)
              [segment1] {[index segment1]})
    as (extra & -> & Hsub & Hov & Hnd & Hfresh).
  exists extra. repeat split; try done. csimpl. constructor; [|done].
  intros Hin. apply list_elem_of_fmap in Hin as (m & Hm & Hin).
  apply list_elem_of_fmap in Hin as (e & -> & Hin).
  apply Hfresh in Hin. set_solver.
Qed.

(** What the outer loop emits: the stars of some of the seeds, in order. *)
Lemma optimized_seed_fold T k segments cands groups processed :
  ∃ seeds,
    seeds `sublist_of` cands
    ∧ (foldl (seed_step T k segments) (groups, processed) cands).1
        = groups ++ ((λ e, data <$> (collect T segments e.1 e.2).1) <$> seeds)
    ∧ Forall (λ e, (k ≤ Z.of_nat (length (collect T segments e.1 e.2).1))%Z) seeds.
Proof.
  revert groups processed.
  induction cands as [|[i segment1] cands IH]; intros groups processed.
  { exists []. simpl. by rewrite app_nil_r. }
  cbn [foldl seed_step].
  destruct (decide (index segment1 ∈ processed)).
  { destruct (IH groups processed) as (seeds & Hsub & -> & Hk).
    exists seeds. repeat split; try done. by apply sublist_cons. }
  cbv zeta. case_decide as Hlen.
  2:{ destruct (IH groups processed) as (seeds & Hsub & -> & Hk).
      exists seeds. repeat split; try done. by apply sublist_cons. }
  match goal with |- context [foldl _ (?g, ?p) cands] =>
    destruct (IH g p) as (seeds & Hsub & -> & Hk) end.
  exists ((i, segment1) :: seeds). repeat split.
  - by apply sublist_skip.
  - csimpl. by rewrite <- app_assoc.
  - by constructor.
Qed.

Lemma optimized_seed_and_collect T k segments :
  ∃ seeds,
    seeds `sublist_of` enumerate segments
    ∧ seed_and_collect T k segments
        = (λ e, data <$> (collect T segments e.1 e.2).1) <$> seeds
    ∧ Forall (λ e, (k ≤ Z.of_nat (length (collect T segments e.1 e.2).1))%Z) seeds.
Proof.
  destruct (optimized_seed_fold T k segments (enumerate segments) [] ∅)
    as (seeds & ? & ? & ?).
  by exists seeds.
Qed.

Lemma optimized_sorted_rows chr_data :
  sort_by_start (to_segment <$> chr_data)
  = to_segment <$> sort_by Start_Location chr_data.
Proof. unfold sort_by_start. by rewrite sort_by_fmap. Qed.

End optimized_loops.

(** ** The loops of the simple engine *)

Section simple_loops.
Import Simple.
Implicit Types (segments : list segment).

Lemma simple_collect_fold T used i (segment1 : segment) cands g idx :
  ∃ extra,
    foldl (collect_step T used i segment1) (g, idx) cands
      = (g ++ extra.*2, idx ∪ list_to_set extra.*1)
    ∧ extra `sublist_of` cands
    ∧ Forall (λ e, e.1 ≠ i ∧ (e.1 ∉ used)
                   ∧ (T ≤ actual_overlap segment1 e.2)%Z) extra.
Proof.
  revert g idx. induction cands as [|[j segment2] cands IH]; intros g idx.
  { exists []. csimpl. split; [f_equal; [by rewrite app_nil_r|set_solver]|].
    split; [done|constructor]. }
  cbn [foldl collect_step].
  destruct (decide (j = i ∨ j ∈ used)) as [Hskip|Hnew].
  { destruct (IH g idx) as (extra & -> & Hsub & Hov).
    exists extra. repeat split; try done. by apply sublist_cons. }
  destruct (decide (T ≤ actual_overlap segment1 segment2)%Z) as [Hov2|Hno].
  2:{ destruct (IH g idx) as (extra & -> & Hsub & Hov).
      exists extra. repeat split; try done. by apply sublist_cons. }
  destruct (IH (g ++ [segment2]) (idx ∪ {[j]})) as (extra & -> & Hsub & Hov).
  exists ((j, segment2) :: extra). csimpl. split; [|split].
  - rewrite <- app_assoc. f_equal. set_solver.
  - by apply sublist_skip.
  - constructor; [|done]. simpl. tauto.
Qed.

Lemma simple_seed_fold T k segments cands groups used :
  ∃ seeds,
    (fst <$> seeds) `sublist_of` cands
    ∧ foldl (seed_step T k segments) (groups, used) cands
        = (groups ++ (simple_group <$> seeds),
           used ∪ list_to_set (concat (simple_positions <$> seeds)))
    ∧ Forall (λ t, t.2 `sublist_of` enumerate segments
                   ∧ Forall (λ e, e.1 ≠ t.1.1
                                  ∧ (T ≤ actual_overlap t.1.2 e.2)%Z) t.2
                   ∧ (k ≤ Z.of_nat (length (simple_group t)))%Z) seeds
    ∧ NoDup (concat (simple_positions <$> seeds))
    ∧ (∀ j, j ∈ concat (simple_positions <$> seeds) → j ∉ used).
Proof.
  revert groups used.
  induction cands as [|[i segment1] cands IH]; intros groups used.
  { exists []. csimpl. repeat split; try done.
    - f_equal; [by rewrite app_nil_r|set_solver].
    - constructor.
    - set_solver. }
  cbn [foldl seed_step].
  destruct (decide (i ∈ used)) as [Hused|Hfree].
  { destruct (IH groups used) as (seeds & Hsub & -> & Hall & Hnd & Hfresh).
    exists seeds. repeat split; try done. by apply sublist_cons. }
  unfold collect.
  destruct (simple_collect_fold T used i segment1 (enumerate segments)
              [segment1] {[i]}) as (extra & -> & Hsub & Hov).
  case_decide as Hlen.
  2:{ destruct (IH groups used) as (seeds & Hsub' & -> & Hall & Hnd & Hfresh).
      exists seeds. repeat split; try done. by apply sublist_cons. }
  match goal with |- context [foldl _ (?g, ?p) cands] =>
    destruct (IH g p) as (seeds & Hsub' & -> & Hall & Hnd & Hfresh) end.
  exists ((i, segment1, extra) :: seeds).
  assert (NoDup extra.*1) as Hnd1.
  { eapply sublist_NoDup; [|by apply fmap_sublist].
    unfold enumerate. rewrite enumerate_from_fst. apply NoDup_seq. }
  split; [by apply sublist_skip|]. split; [|split; [|split]].
  - csimpl. rewrite <- app_assoc. f_equal. unfold simple_positions at 2. simpl.
    set_solver.
  - constructor; [|done]. simpl. split; [done|]. split.
    + eapply Forall_impl; [exact Hov|]. simpl. tauto.
    + unfold simple_group. simpl. by rewrite length_fmap in *.
  - csimpl. unfold simple_positions at 1. simpl.
    apply NoDup_cons. split.
    + rewrite elem_of_app. intros [Hin|Hin].
      * apply list_elem_of_fmap in Hin as (e & -> & Hin).
        rewrite Forall_forall in Hov. apply Hov in Hin. tauto.
      * apply Hfresh in Hin. set_solver.
    + apply NoDup_app. split; [done|]. split; [|done].
      intros j Hj Hin. apply Hfresh in Hin. set_solver.
  - csimpl. unfold simple_positions at 1. simpl.
    intros j [->|Hin]%elem_of_cons; [done|].
    apply elem_of_app in Hin as [Hin|Hin].
    + apply list_elem_of_fmap in Hin as (e & -> & Hin).
      rewrite Forall_forall in Hov. apply Hov in Hin. tauto.
    + apply Hfresh in Hin. set_solver.
Qed.

End simple_loops.

(** ** [concat] *)

Lemma elem_of_concat {A} (ls : list (list A)) (x : A) :
  x ∈ concat ls ↔ ∃ l, l ∈ ls ∧ x ∈ l.
Proof.
  induction ls as [|l0 ls IH]; simpl.
  - rewrite elem_of_nil. split; [done|]. intros (l & Hl & _). by apply elem_of_nil in Hl.
  - rewrite elem_of_app, IH. split.
    + intros [?|(l & ? & ?)]; [exists l0|exists l]; (split; [|done]); [left|by right].
    + intros (l & [->|?]%elem_of_cons & ?); [by left|right; by exists l].
Qed.

Lemma Forall2_fmap_diag {A B C} (P : B → C → Prop) (f : A → B) (g : A → C) l :
  (∀ x, x ∈ l → P (f x) (g x)) → Forall2 P (f <$> l) (g <$> l).
Proof.
  induction l as [|x l IH]; intros H; csimpl; constructor.
  - apply H. by left.
  - apply IH. intros y Hy. apply H. by right.
Qed.

(** ** Evaluation with exceptions *)

Section raising_facts.
Context {A B : Type} (func : A → outcome B).

Lemma map_raising_app l1 l2 :
  map_raising func (l1 ++ l2)
  = bind (map_raising func l1) (λ ys1,
      bind (map_raising func l2) (λ ys2, Returned (ys1 ++ ys2))).
Proof.
  induction l1 as [|x l1 IH]; simpl.
  - by destruct (map_raising func l2).
  - destruct (func x) as [y|e]; simpl; [|done]. rewrite IH.
    destruct (map_raising func l1) as [ys1|e]; simpl; [|done].
    by destruct (map_raising func l2).
Qed.


Lemma map_raising_returned l ys :
  map_raising func l = Returned ys → Forall2 (λ x y, func x = Returned y) l ys.
Proof.
  revert ys. induction l as [|x l IH]; simpl; intros ys.
  - intros [= <-]. constructor.
  - destruct (func x) as [y|e] eqn:Hx; simpl; [|done].
    destruct (map_raising func l) as [ys'|e]; simpl; [|done].
    intros [= <-]. constructor; [done|]. by apply IH.
Qed.

Lemma map_raising_concat_returned (chunks : list (list A)) ys :
  map_raising func (concat chunks) = Returned ys →
  Forall (λ chunk, map_raising func chunk = Returned (chunk_result func chunk)) chunks
  ∧ ys = concat (chunk_result func <$> chunks).
Proof.
  revert ys. induction chunks as [|c chunks IH]; simpl; intros ys.
  - intros [= <-]. split; [constructor|done].
  - rewrite map_raising_app. unfold chunk_result at 2.
    destruct (map_raising func c) as [ys1|e] eqn:Hc; simpl; [|done].
    destruct (map_raising func (concat chunks)) as [ys2|e]; simpl; [|done].
    intros [= <-]. destruct (IH ys2) as [Hall ->]; [done|].
    split; [|done]. constructor; [|done]. unfold chunk_result. by rewrite Hc.
Qed.


End raising_facts.

Lemma map_raising_pure {A B} (f : A → B) l :
  map_raising (λ x, Returned (f x)) l = Returned (f <$> l).
Proof. induction l as [|x l IH]; simpl; [done|]. by rewrite IH. Qed.

(** ** [Pool.map] *)

Section pool_facts.
Context {A B : Type} (func : A → outcome B).

Lemma chunksize_pos n p : 0 < n → 0 < p → 0 < Pool.chunksize n p.
Proof.
  intros Hn Hp. unfold Pool.chunksize. rewrite decide_False by lia.
  case_decide as Hm; [|lia].
  pose proof (Nat.div_mod_eq n (p * 4)) as Hd. rewrite Hm in Hd.
  destruct (n `div` (p * 4)); lia.
Qed.

Lemma get_tasks_concat fuel size (l : list A) :
  0 < size → length l ≤ fuel → concat (Pool.get_tasks fuel size l) = l.
Proof.
  intros Hsize. revert l. induction fuel as [|fuel IH]; intros l Hl; simpl.
  - destruct l; simpl in *; [done|lia].
  - destruct (take size l) as [|x t] eqn:Ht.
    + destruct l as [|y l]; [done|]. destruct size; [lia|done].
    + rewrite <- Ht. simpl. rewrite IH.
      * apply take_drop.
      * rewrite length_drop. destruct l; simpl in *; lia.
Qed.

Lemma tasks_concat p (l : list A) : 0 < p → concat (Pool.tasks p l) = l.
Proof.
  intros Hp. unfold Pool.tasks. destruct l as [|x l]; [done|].
  apply get_tasks_concat; [|done]. apply chunksize_pos; simpl; lia.
Qed.


Lemma arrivals_all_returned tasks r schedule :
  Forall (λ chunk, map_raising func chunk = Returned (chunk_result func chunk)) tasks →
  Pool.success r = true →
  let final := foldl (Pool.arrival func tasks) r schedule in
  Pool.success final = true ∧
  ∀ i, Pool.value final !! i
       = match tasks !! i with
         | Some chunk => if decide (i ∈ schedule)
                         then Some (chunk_result func chunk)
                         else Pool.value r !! i
         | None => Pool.value r !! i
         end.
Proof.
  intros Hall. revert r. induction schedule as [|i0 schedule IH]; intros r Hr; simpl.
  { split; [done|]. intros i. by destruct (tasks !! i). }
  assert (Pool.success (Pool.arrival func tasks r i0) = true) as Hr'.
  { unfold Pool.arrival. destruct (tasks !! i0) as [chunk|] eqn:Hi0; [|done].
    rewrite Forall_forall in Hall.
    rewrite (Hall chunk) by (by eapply list_elem_of_lookup_2).
    unfold Pool.set_result. by rewrite Hr. }
  destruct (IH _ Hr') as [Hs Hv]. split; [done|].
  intros i. rewrite Hv. destruct (tasks !! i) as [chunk|] eqn:Hi.
  - destruct (decide (i ∈ schedule)) as [Hin|Hnin].
    + by rewrite decide_True by (by right).
    + unfold Pool.arrival. destruct (decide (i = i0)) as [->|Hne].
      * rewrite decide_True by (by left). rewrite Hi.
        rewrite Forall_forall in Hall.
        rewrite (Hall chunk) by (by eapply list_elem_of_lookup_2).
        unfold Pool.set_result. rewrite Hr. simpl. by rewrite lookup_insert_eq.
      * rewrite decide_False by (by intros [?|?]%elem_of_cons).
        destruct (tasks !! i0) as [chunk0|] eqn:Hi0; [|done].
        rewrite Forall_forall in Hall.
        rewrite (Hall chunk0) by (by eapply list_elem_of_lookup_2).
        unfold Pool.set_result. rewrite Hr. simpl. by rewrite lookup_insert_ne.
  - unfold Pool.arrival. destruct (tasks !! i0) as [chunk0|] eqn:Hi0; [|done].
    rewrite Forall_forall in Hall.
    rewrite (Hall chunk0) by (by eapply list_elem_of_lookup_2).
    unfold Pool.set_result. rewrite Hr. simpl.
    rewrite lookup_insert_ne; [done|]. intros ->. congruence.
Qed.


Lemma pool_map_unfold p schedule (l : list A) :
  Pool.map p schedule func l
  = let tasks := Pool.tasks p l in
    let final := foldl (Pool.arrival func tasks) (Pool.mkMapResult true ∅ "") schedule in
    if Pool.success final
    then Returned (concat ((λ i, default [] (Pool.value final !! i))
                           <$> seq 0 (length tasks)))
    else Raised (Pool.failure final).
Proof. done. Qed.

(** When no item raises, the pool returns what a sequential [map]
    returns, whatever the number of processes and the order of arrival. *)
Lemma pool_map_returned p schedule (l : list A) ys :
  0 < p → Pool.complete_schedule (length (Pool.tasks p l)) schedule →
  map_raising func l = Returned ys →
  Pool.map p schedule func l = Returned ys.
Proof.
  intros Hp Hsched Hl. rewrite pool_map_unfold. cbv zeta.
  rewrite <- (tasks_concat p l Hp) in Hl.
  apply map_raising_concat_returned in Hl as [Hall ->].
  destruct (arrivals_all_returned (Pool.tasks p l) (Pool.mkMapResult true ∅ "")
              schedule Hall eq_refl) as [-> Hv].
  do 2 f_equal. apply list_eq. intros i.
  rewrite !list_lookup_fmap.
  destruct (Pool.tasks p l !! i) as [chunk|] eqn:Hi.
  - assert (i < length (Pool.tasks p l)) as Hlt by (by eapply lookup_lt_Some).
    rewrite lookup_seq_lt by done. simpl. rewrite Hv, Hi.
    rewrite decide_True; [done|].
    unfold Pool.complete_schedule in Hsched. rewrite Hsched.
    apply elem_of_seq. lia.
  - apply lookup_ge_None in Hi. by rewrite lookup_seq_ge.
Qed.


End pool_facts.

(** ** [groupby] *)

Lemma elem_of_insert_key c c0 keys : c ∈ insert_key c0 keys ↔ c = c0 ∨ c ∈ keys.
Proof.
  induction keys as [|c' keys IH]; simpl.
  - rewrite list_elem_of_singleton, elem_of_nil. tauto.
  - destruct (String.eqb_spec c0 c') as [->|Hne].
    + rewrite elem_of_cons. tauto.
    + destruct (String.ltb c0 c').
      * rewrite !elem_of_cons. tauto.
      * rewrite !elem_of_cons, IH. tauto.
Qed.

Lemma elem_of_sorted_keys c values : c ∈ sorted_keys values ↔ c ∈ values.
Proof.
  unfold sorted_keys. induction values as [|v values IH]; simpl; [done|].
  by rewrite elem_of_insert_key, IH, elem_of_cons.
Qed.

Lemma groupby_covers data row :
  row ∈ data →
  ∃ g, g ∈ groupby_Chromosome data ∧ g.1 = Chromosome row ∧ row ∈ g.2.
Proof.
  intros Hrow.
  exists (Chromosome row, filter (λ r, Chromosome r = Chromosome row) data).
  split; [|split; [done|]].
  - unfold groupby_Chromosome. apply list_elem_of_fmap.
    exists (Chromosome row). split; [done|].
    apply elem_of_sorted_keys, list_elem_of_fmap. by exists row.
  - by apply list_elem_of_filter.
Qed.

Lemma groupby_rows data g row :
  g ∈ groupby_Chromosome data → row ∈ g.2 → row ∈ data ∧ Chromosome row = g.1.
Proof.
  unfold groupby_Chromosome. intros (c & -> & _)%list_elem_of_fmap. simpl.
  intros [? ?]%list_elem_of_filter. done.
Qed.

(** ** The run over all chromosomes *)

Section scheduler_facts.
Import Scheduler.

Lemma detect_with_returned worker cpu schedule data T k w results :
  possible_run cpu schedule data T k w →
  map_raising worker (args_list data T k) = Returned results →
  detect_with worker cpu schedule data T k w = Returned (concat results).
Proof.
  intros [Hw Hs] Hres. unfold detect_with.
  case_decide as Hlen.
  - rewrite decide_False by lia.
    erewrite pool_map_returned; [done|lia|done|done].
  - destruct (args_list data T k); simpl in *; [|lia]. by injection Hres as <-.
Qed.


Lemma detect_optimized_returned cpu schedule data T k w :
  possible_run cpu schedule data T k w →
  detect_triangulation_groups_optimized cpu schedule data T k w
  = Returned (concat (Optimized._process_chromosome_optimized
                      <$> args_list data T k)).
Proof.
  intros Hrun. unfold detect_triangulation_groups_optimized.
  apply detect_with_returned; [done|]. apply map_raising_pure.
Qed.

End scheduler_facts.

(** ** The loops of the original engine *)

Section painter_loops.
Import Painter.

Lemma painter_collect_fold T row1 cands g :
  NoDup (row_name <$> g) →
  NoDup (row_name <$> foldl (collect_step T row1) g cands).
Proof.
  revert g. induction cands as [|row2 cands IH]; intros g Hg; simpl; [done|].
  apply IH. unfold collect_step.
  repeat case_decide; try done.
  unfold found_in_group. case_bool_decide as Hfound; [done|].
  rewrite fmap_app. apply NoDup_app. split; [done|]. split.
  - intros z Hz [->|[]%elem_of_nil]%elem_of_cons.
    apply Hfound, Exists_exists.
    apply list_elem_of_fmap in Hz as (member & ? & ?). by exists member.
  - apply NoDup_singleton.
Qed.

Lemma painter_seed_fold T k chr_data cands groups :
  Forall (λ g, NoDup (row_name <$> g)) groups →
  Forall (λ g, NoDup (row_name <$> g)) (foldl (seed_step T k chr_data) groups cands).
Proof.
  revert groups. induction cands as [|row1 cands IH]; intros groups Hg; simpl; [done|].
  apply IH. unfold seed_step. case_decide; [|done].
  destruct (is_duplicate _ _); [done|].
  apply Forall_app. split; [done|]. constructor; [|constructor].
  apply painter_collect_fold. simpl. apply NoDup_singleton.
Qed.

End painter_loops.

(** ** The groups of one chromosome *)

Lemma optimized_segments_of_rows chr_data s :
  s ∈ Optimized.sort_by_start (Optimized.to_segment <$> chr_data) →
  s = Optimized.to_segment (Optimized.data s).
Proof.
  unfold Optimized.sort_by_start. rewrite sort_by_perm.
  by intros (row & -> & _)%list_elem_of_fmap.
Qed.

Lemma simple_segments_of_rows (chr_data : list Row) j s :
  (Simple.to_segment <$> chr_data) !! j = Some s →
  chr_data !! j = Some (Simple.data s) ∧ s = Simple.to_segment (Simple.data s).
Proof.
  rewrite list_lookup_fmap. destruct (chr_data !! j) as [row|]; [|done].
  by intros [= <-].
Qed.

(** Every group of the optimized engine is the star of a row of the
    sorted list, the seeds in sorted order, and holds no label twice. *)
Lemma optimized_groups_traced c chr_data T k :
  let sorted := sort_by Start_Location chr_data in
  let groups := Optimized._process_chromosome_optimized (c, chr_data, T, k) in
  Forall (star T) groups
  ∧ Forall (λ g, NoDup (row_name <$> g)) groups
  ∧ Forall (λ g, (k ≤ Z.of_nat (length g))%Z) groups
  ∧ Forall (λ g, g ⊆ chr_data) groups
  ∧ seeds_follow sorted groups.
Proof.
  intros sorted groups. subst groups. unfold Optimized._process_chromosome_optimized.
  destruct (optimized_seed_and_collect T k
              (Optimized.sort_by_start (Optimized.to_segment <$> chr_data)))
    as (seeds & Hsub & -> & Hk).
  set (segments := Optimized.sort_by_start (Optimized.to_segment <$> chr_data)) in *.
  assert (∀ e, e ∈ seeds → e.2 ∈ segments) as Hseed.
  { intros [i s] He. eapply elem_of_sublist in He; [|exact Hsub].
    apply elem_of_enumerate in He. by eapply list_elem_of_lookup_2. }
  assert (∀ e extra, extra `sublist_of` enumerate segments → e ∈ extra →
            e.2 ∈ segments) as Hextra.
  { intros [j s] extra Hs He. eapply elem_of_sublist in He; [|exact Hs].
    apply elem_of_enumerate in He. by eapply list_elem_of_lookup_2. }
  repeat split.
  - apply Forall_fmap, Forall_forall. intros [i s1] He. simpl.
    destruct (optimized_collect_shape T segments i s1)
      as (extra & -> & Hes & Hov & Hnd).
    exists (Optimized.data s1), (Optimized.data <$> extra.*2). split; [done|].
    apply Forall_fmap, Forall_fmap, Forall_forall. intros e Hin. simpl.
    rewrite Forall_forall in Hov. destruct (Hov e Hin) as [_ Hle].
    rewrite (optimized_segments_of_rows chr_data s1) in Hle by (by apply (Hseed (i, s1))).
    rewrite (optimized_segments_of_rows chr_data e.2) in Hle by (by eapply Hextra).
    by rewrite optimized_overlap_rows in Hle.
  - apply Forall_fmap, Forall_forall. intros [i s1] He. simpl.
    destruct (optimized_collect_shape T segments i s1)
      as (extra & Heq & Hes & Hov & Hnd).
    rewrite Heq. rewrite <- list_fmap_compose.
    erewrite (list_fmap_ext _ Optimized.index); [exact Hnd|].
    intros j s Hs. simpl.
    assert (s ∈ segments) as Hin.
    { apply list_elem_of_lookup_2 in Hs. apply elem_of_cons in Hs as [Hs|Hs].
      - subst s. by apply (Hseed (i, s1)).
      - apply list_elem_of_fmap in Hs as (e & Hs & Hin). subst s. by eapply Hextra. }
    by rewrite (optimized_segments_of_rows chr_data s Hin) at 2.
  - apply Forall_fmap. eapply Forall_impl; [exact Hk|].
    intros [i s1]. simpl. by rewrite length_fmap.
  - apply Forall_fmap, Forall_forall. intros [i s1] He. simpl.
    destruct (optimized_collect_shape T segments i s1)
      as (extra & Heq & Hes & Hov & Hnd).
    rewrite Heq. intros row (s & -> & Hs)%list_elem_of_fmap.
    assert (s ∈ segments) as Hin.
    { apply elem_of_cons in Hs as [Hs|Hs].
      - subst s. by apply (Hseed (i, s1)).
      - apply list_elem_of_fmap in Hs as (e & Hs & Hin). subst s. by eapply Hextra. }
    unfold segments, Optimized.sort_by_start in Hin. rewrite sort_by_perm in Hin.
    by apply list_elem_of_fmap in Hin as (row & -> & ?).
  - exists (Optimized.data <$> seeds.*2). split.
    + unfold sorted.
      assert (Optimized.data <$> segments = sort_by Start_Location chr_data) as <-.
      { unfold segments. rewrite optimized_sorted_rows, <- list_fmap_compose.
        apply list_fmap_id. }
      apply fmap_sublist.
      replace segments with ((enumerate segments).*2)
        by apply enumerate_from_snd.
      by apply fmap_sublist.
    + clear Hsub Hk Hseed. induction seeds as [|[i s1] seeds IH]; csimpl; constructor; [|done].
      destruct (optimized_collect_shape T segments i s1) as (extra & -> & _).
      done.
Qed.

(** Every group of the simple engine is the star of a row, the seeds in
    input order, and the groups sit at positions of the input that are
    all different. *)
Lemma simple_groups_traced chr_data T k :
  let groups := Simple.chromosome_groups chr_data T k in
  Forall (star T) groups
  ∧ Forall (λ g, (k ≤ Z.of_nat (length g))%Z) groups
  ∧ (∃ positions,
       Forall2 (at_positions chr_data) positions groups ∧ NoDup (concat positions))
  ∧ seeds_follow chr_data groups.
Proof.
  intros groups. subst groups.
  unfold Simple.chromosome_groups, Simple._find_overlapping_groups_simple.
  set (segments := Simple.to_segment <$> chr_data).
  destruct (simple_seed_fold T k segments (enumerate segments) [] ∅)
    as (seeds & Hsub & -> & Hall & Hnd & _).
  cbn [fst app].
  assert (∀ t, t ∈ seeds → segments !! t.1.1 = Some t.1.2) as Hseed.
  { intros t Ht. apply elem_of_enumerate. eapply elem_of_sublist; [|exact Hsub].
    apply list_elem_of_fmap. exists t. split; [|done]. by destruct t as [[??]?]. }
  assert (∀ e (extra : list (nat * Simple.segment)),
            extra `sublist_of` enumerate segments → e ∈ extra →
            segments !! e.1 = Some e.2) as Hextra.
  { intros [j s] extra Hs He. apply elem_of_enumerate.
    by eapply elem_of_sublist. }
  rewrite Forall_forall in Hall.
  repeat split.
  - apply Forall_fmap, Forall_forall. intros [[i s1] extra] Ht.
    destruct (Hall _ Ht) as (Hes & Hov & _). simpl in *.
    exists (Simple.data s1), (Simple.data <$> extra.*2). split; [done|].
    apply Forall_fmap, Forall_fmap, Forall_forall. intros e Hin. simpl.
    rewrite Forall_forall in Hov. destruct (Hov e Hin) as [_ Hle].
    destruct (simple_segments_of_rows chr_data i s1) as [_ E1];
      [by apply (Hseed (i, s1, extra))|].
    destruct (simple_segments_of_rows chr_data e.1 e.2) as [_ E2];
      [by eapply Hextra|].
    rewrite E1, E2 in Hle. rewrite <- simple_overlap_rows. lia.
  - apply Forall_fmap, Forall_forall. intros t Ht.
    by destruct (Hall _ Ht) as (_ & _ & ?).
  - exists (simple_positions <$> seeds). split; [|done].
    apply Forall2_fmap_diag.
    intros [[i s1] extra] Ht. destruct (Hall _ Ht) as (Hes & _ & _). simpl in *.
    unfold at_positions, simple_positions, simple_group. csimpl. constructor.
    + by destruct (simple_segments_of_rows chr_data i s1 (Hseed (i, s1, extra) Ht)).
    + rewrite <- list_fmap_compose. apply Forall2_fmap_diag.
      intros e He. simpl.
      by destruct (simple_segments_of_rows chr_data e.1 e.2 (Hextra e extra Hes He)).
  - exists (Simple.data <$> (fst <$> seeds).*2). split.
    + assert (Simple.data <$> segments = chr_data) as Hrows.
      { unfold segments. rewrite <- list_fmap_compose. apply list_fmap_id. }
      rewrite <- Hrows. apply fmap_sublist.
      replace segments with ((enumerate segments).*2)
        by apply enumerate_from_snd.
      rewrite <- list_fmap_compose.
      by apply (fmap_sublist snd) in Hsub; rewrite <- list_fmap_compose in Hsub.
    + clear. induction seeds as [|[[i s1] extra] seeds IH]; csimpl; by constructor.
Qed.

(** ** C1: groups of one run share no segment *)

(** C1.  The optimized engine returns two groups that both hold the row
    labelled 1: its inner loop tests [current_group_indices], not
    [processed_indices], so a consumed segment is collected again by a
    later seed.  The simple engine, whose inner loop tests
    [used_segments], takes every group from positions of its own: for all
    inputs, the positions of all groups together hold no position twice. *)
Theorem C1_optimized_groups_share_a_segment :
  Optimized._process_chromosome_optimized ("1"%string, [rowX; rowY; rowZ], 3, 2)%Z
    = [[rowX; rowY]; [rowZ; rowY]]
  ∧ Scheduler.detect_triangulation_groups_optimized 2 [0] [rowX; rowY; rowZ] 3 2 None
    = Returned [[rowX; rowY]; [rowZ; rowY]]
  ∧ Scheduler.detect_triangulation_simple [rowX; rowY; rowZ] 3 2 = [[rowX; rowY]]
  ∧ ∀ chr_data T k,
      ∃ positions,
        Forall2 (at_positions chr_data) positions
                (Simple.chromosome_groups chr_data T k)
        ∧ NoDup (concat positions).
Proof.
  split; [by vm_compute|]. split; [by vm_compute|]. split; [by vm_compute|].
  intros chr_data T k. by destruct (simple_groups_traced chr_data T k) as (_ & _ & ? & _).
Qed.

(** ** C2: the order in which seeds are tried *)

Lemma optimized_process_sorted c chr_data T k :
  Optimized._process_chromosome_optimized (c, chr_data, T, k)
  = Optimized._process_chromosome_optimized (c, sort_by Start_Location chr_data, T, k).
Proof.
  unfold Optimized._process_chromosome_optimized.
  by rewrite !optimized_sorted_rows, sort_by_idemp.
Qed.

(** C2, as stated, fails for the simple engine: on rows given in
    descending order of start it seeds from the first row given, and its
    groups differ from those it returns on the sorted rows. *)
Lemma C2_simple_engine_does_not_sort :
  ¬ seeds_in_sorted_order (λ chr_data, Simple.chromosome_groups chr_data 3 2).
Proof.
  intros H. destruct (H [rowZ; rowY; rowX]) as [Heq _].
  vm_compute in Heq. discriminate.
Qed.

(** C2, amended.  The optimized engine iterates over its rows sorted by
    start, ascending and stably (the sorted list is the only ascending
    arrangement that keeps rows of equal start in input order); its
    result is the one it returns on the sorted rows, and its seeds follow
    the sorted rows.  The simple engine does not sort: its seeds follow
    the rows as given, which is the sorted order when the rows are given
    in ascending order of start. *)
Theorem C2_optimized_seeds_in_sorted_order c T k :
  seeds_in_sorted_order
    (λ chr_data, Optimized._process_chromosome_optimized (c, chr_data, T, k))
  ∧ (∀ chr_data,
       let sorted := sort_by Start_Location chr_data in
       Optimized.sort_by_start (Optimized.to_segment <$> chr_data)
         = Optimized.to_segment <$> sorted
       ∧ StronglySorted (key_le Start_Location) sorted
       ∧ sorted ≡ₚ chr_data
       ∧ (∀ s, with_key Start_Location s sorted = with_key Start_Location s chr_data)
       ∧ (∀ l, StronglySorted (key_le Start_Location) l →
               (∀ s, with_key Start_Location s l = with_key Start_Location s chr_data) →
               l = sorted))
  ∧ (∀ chr_data, seeds_follow chr_data (Simple.chromosome_groups chr_data T k))
  ∧ (∀ chr_data, StronglySorted (key_le Start_Location) chr_data →
       seeds_follow (sort_by Start_Location chr_data)
                    (Simple.chromosome_groups chr_data T k)).
Proof.
  split; [|split; [|split]].
  - intros chr_data. split; [apply optimized_process_sorted|].
    by destruct (optimized_groups_traced c chr_data T k) as (_ & _ & _ & _ & ?).
  - intros chr_data sorted. subst sorted. split; [apply optimized_sorted_rows|].
    split; [apply sort_by_sorted|]. split; [apply sort_by_perm|].
    split; [intros s; apply sort_by_stable|].
    intros l Hl Hk. by apply stable_sort_unique.
  - intros chr_data. by destruct (simple_groups_traced chr_data T k) as (_ & _ & _ & ?).
  - intros chr_data Hs. rewrite sort_by_id by done.
    by destruct (simple_groups_traced chr_data T k) as (_ & _ & _ & ?).
Qed.

(** ** C3: every member overlaps the seed *)

Lemma star_whole T g : star T g → 2 ≤ length g → whole_star T g.
Proof.
  intros (seed & members & -> & Hov) Hlen. exists seed. split; [done|].
  constructor; [|done]. destruct Hov as [|m members Hm _]; [simpl in *; lia|].
  pose proof (overlap_bp_self_max seed m). lia.
Qed.

Lemma simple_detect_groups P data T k :
  (∀ chr_data, Forall P (Simple.chromosome_groups chr_data T k)) →
  Forall P (Scheduler.detect_triangulation_simple data T k).
Proof.
  intros H. unfold Scheduler.detect_triangulation_simple.
  apply Forall_concat, Forall_fmap, Forall_forall. intros g _. apply H.
Qed.

Lemma optimized_detect_groups (P : Z → list Row → Prop) data T k :
  (∀ c chr_data, Forall (P T) (Optimized._process_chromosome_optimized (c, chr_data, T, k))) →
  Forall (P T) (concat (Optimized._process_chromosome_optimized
                        <$> Scheduler.args_list data T k)).
Proof.
  intros H. apply Forall_concat, Forall_fmap.
  unfold Scheduler.args_list. apply Forall_fmap, Forall_forall.
  intros g _. apply H.
Qed.

(** C3.  In every group that a run of the optimized engine or of the
    simple engine returns, the first row is the seed and every other
    member overlaps the seed by at least [min_overlap_bp]; in a group of
    two or more the seed does so too.  Members need not overlap each
    other: [rowA] and [rowB] share a group without sharing a base pair. *)
Theorem C3_members_overlap_the_seed cpu schedule data T k w :
  Scheduler.possible_run cpu schedule data T k w →
  (∃ groups,
     Scheduler.detect_triangulation_groups_optimized cpu schedule data T k w
       = Returned groups
     ∧ Forall (star T) groups
     ∧ Forall (λ g, 2 ≤ length g → whole_star T g) groups)
  ∧ Forall (star T) (Scheduler.detect_triangulation_simple data T k)
  ∧ Forall (λ g, 2 ≤ length g → whole_star T g)
           (Scheduler.detect_triangulation_simple data T k)
  ∧ Optimized._process_chromosome_optimized ("1"%string, [rowS; rowA; rowB], 30, 2)%Z
      = [[rowS; rowA; rowB]]
  ∧ Simple.chromosome_groups [rowS; rowA; rowB] 30 2 = [[rowS; rowA; rowB]]
  ∧ overlap_bp rowA rowB = 0%Z.
Proof.
  intros Hrun.
  assert (∀ c chr_data, Forall (star T)
            (Optimized._process_chromosome_optimized (c, chr_data, T, k))) as Hopt.
  { intros c chr_data. by destruct (optimized_groups_traced c chr_data T k) as (? & _). }
  assert (∀ chr_data, Forall (star T) (Simple.chromosome_groups chr_data T k)) as Hsim.
  { intros chr_data. by destruct (simple_groups_traced chr_data T k) as (? & _). }
  split; [|split; [|split; [|by vm_compute]]].
  - eexists. split; [by apply detect_optimized_returned|].
    pose proof (optimized_detect_groups star data T k Hopt) as Hall.
    split; [done|]. eapply Forall_impl; [exact Hall|].
    intros g Hg Hlen. by apply star_whole.
  - by apply simple_detect_groups.
  - eapply Forall_impl; [by apply simple_detect_groups|].
    intros g Hg Hlen. by apply star_whole.
Qed.

(** One worker process on the sample data: three chunks, finishing in the
    order 2, 0, 1. *)
Lemma sample_run_possible :
  Scheduler.possible_run 2 [2; 0; 1] sample_data 3 2 (Some 1).
Proof.
  split; [simpl; lia|].
  unfold Pool.complete_schedule. vm_compute.
  apply (Permutation_cons_append [0; 1] 2).
Defined.

(** C3 on the sample data. *)
Lemma C3_members_overlap_the_seed_witness :
  (∃ groups,
     Scheduler.detect_triangulation_groups_optimized 2 [2; 0; 1] sample_data 3 2 (Some 1)
       = Returned groups
     ∧ Forall (star 3) groups
     ∧ Forall (λ g, 2 ≤ length g → whole_star 3 g) groups)
  ∧ Forall (star 3) (Scheduler.detect_triangulation_simple sample_data 3 2)
  ∧ Forall (λ g, 2 ≤ length g → whole_star 3 g)
           (Scheduler.detect_triangulation_simple sample_data 3 2)
  ∧ Optimized._process_chromosome_optimized ("1"%string, [rowS; rowA; rowB], 30, 2)%Z
      = [[rowS; rowA; rowB]]
  ∧ Simple.chromosome_groups [rowS; rowA; rowB] 30 2 = [[rowS; rowA; rowB]]
  ∧ overlap_bp rowA rowB = 0%Z.
Proof.
  exact (C3_members_overlap_the_seed 2 [2; 0; 1] sample_data 3 2 (Some 1)
           sample_run_possible).
Defined.

(** ** C9: no member twice in a group *)

Lemma NoDup_concat_each {A} (ls : list (list A)) :
  NoDup (concat ls) → Forall NoDup ls.
Proof.
  induction ls as [|l ls IH]; simpl; [constructor|].
  rewrite NoDup_app. intros (? & _ & ?). constructor; [done|by apply IH].
Qed.

Lemma at_positions_NoDup {K} (f : Row → K) rows positions g :
  NoDup (f <$> rows) → NoDup positions → at_positions rows positions g →
  NoDup (f <$> g).
Proof.
  intros Hrows Hpos Hat. induction Hat as [|j row js g Hrow Hat IH]; csimpl.
  { constructor. }
  apply NoDup_cons in Hpos as [Hj Hjs]. constructor; [|by apply IH].
  intros (row' & Heq & Hin)%list_elem_of_fmap.
  apply list_elem_of_lookup in Hin as [n Hn].
  destruct (Forall2_lookup_r _ _ _ _ _ Hat Hn) as (j' & Hj' & Hrow').
  assert (j = j') as ->.
  { eapply (NoDup_lookup (f <$> rows)); [done| |].
    - by rewrite list_lookup_fmap, Hrow.
    - by rewrite list_lookup_fmap, Hrow', Heq. }
  apply Hj. by eapply list_elem_of_lookup_2.
Qed.

Lemma simple_groups_labels chr_data T k :
  NoDup (row_name <$> chr_data) →
  Forall (λ g, NoDup (row_name <$> g)) (Simple.chromosome_groups chr_data T k).
Proof.
  intros Hnd.
  destruct (simple_groups_traced chr_data T k) as (_ & _ & (positions & Hat & Hpos) & _).
  apply NoDup_concat_each in Hpos.
  revert Hpos. induction Hat as [|js g positions groups Hg Hat IH]; intros Hpos.
  { constructor. }
  apply Forall_cons in Hpos as [Hjs Hpos]. constructor; [|by apply IH].
  by eapply at_positions_NoDup.
Qed.

(** C9.  A group never holds a segment twice, in any of the three
    engines and at every turn of the collecting loop.  Optimized engine:
    the index labels of the group under collection are all different
    after any number of turns, and so are the labels of every returned
    group.  Simple engine: after any number of turns the group under
    collection sits at positions of the segment list that are all
    different, and so does every returned group; with distinct row
    labels in the data, the labels of every returned group are all
    different.  Original engine: the labels of the group under
    collection, and of every returned group, are all different. *)
Theorem C9_no_member_twice_in_a_group cpu schedule data T k w :
  Scheduler.possible_run cpu schedule data T k w →
  NoDup (row_name <$> data) →
  (∀ i (segment1 : Optimized.segment) segments n,
     NoDup (Optimized.index <$>
              (foldl (Optimized.collect_step T i segment1)
                     ([segment1], {[Optimized.index segment1]})
                     (take n (enumerate segments))).1))
  ∧ (∀ c chr_data,
       Forall (λ g, NoDup (row_name <$> g))
              (Optimized._process_chromosome_optimized (c, chr_data, T, k)))
  ∧ (∃ groups,
       Scheduler.detect_triangulation_groups_optimized cpu schedule data T k w
         = Returned groups
       ∧ Forall (λ g, NoDup (row_name <$> g)) groups)
  ∧ (∀ used i (segment1 : Simple.segment) segments n,
       segments !! i = Some segment1 →
       ∃ positions,
         NoDup positions
         ∧ Forall2 (λ j m, segments !! j = Some m) positions
             (foldl (Simple.collect_step T used i segment1)
                    ([segment1], {[i]}) (take n (enumerate segments))).1)
  ∧ (∀ chr_data,
       ∃ positions,
         Forall2 (at_positions chr_data) positions
                 (Simple.chromosome_groups chr_data T k)
         ∧ Forall NoDup positions)
  ∧ Forall (λ g, NoDup (row_name <$> g))
           (Scheduler.detect_triangulation_simple data T k)
  ∧ (∀ row1 chr_data n,
       NoDup (row_name <$>
                foldl (Painter.collect_step T row1) [row1] (take n chr_data)))
  ∧ (∀ sort_values,
       Forall (λ g, NoDup (row_name <$> g))
              (Painter.detect_triangulation_groups sort_values data T k)).
Proof.
  intros Hrun Hlabels.
  assert (∀ c chr_data, Forall (λ g, NoDup (row_name <$> g))
            (Optimized._process_chromosome_optimized (c, chr_data, T, k))) as Hopt.
  { intros c chr_data.
    by destruct (optimized_groups_traced c chr_data T k) as (_ & ? & _). }
  split; [|split; [done|split; [|split; [|split; [|split; [|split]]]]]].
  - intros i segment1 segments n.
    destruct (optimized_collect_fold T i segment1 (take n (enumerate segments))
                [segment1] {[Optimized.index segment1]})
      as (extra & -> & _ & _ & Hnd & Hfresh).
    csimpl. constructor; [|done].
    intros (m & Hm & (e & -> & Hin)%list_elem_of_fmap)%list_elem_of_fmap.
    apply Hfresh in Hin. set_solver.
  - eexists. split; [by apply detect_optimized_returned|].
    by apply (optimized_detect_groups (λ _ g, NoDup (row_name <$> g))).
  - intros used i segment1 segments n Hi.
    destruct (simple_collect_fold T used i segment1 (take n (enumerate segments))
                [segment1] {[i]}) as (extra & -> & Hsub & Hov).
    assert (extra `sublist_of` enumerate segments) as Hsub'.
    { etrans; [exact Hsub|]. apply sublist_take. }
    exists (i :: extra.*1). csimpl. split.
    + constructor.
      * intros (e & -> & Hin)%list_elem_of_fmap.
        rewrite Forall_forall in Hov. apply Hov in Hin. tauto.
      * eapply sublist_NoDup; [|by apply fmap_sublist].
        unfold enumerate. rewrite enumerate_from_fst. apply NoDup_seq.
    + constructor; [done|]. apply Forall2_fmap_diag. intros [j m] Hin.
      apply elem_of_enumerate. by eapply elem_of_sublist.
  - intros chr_data.
    destruct (simple_groups_traced chr_data T k) as (_ & _ & (positions & ? & ?) & _).
    exists positions. split; [done|]. by apply NoDup_concat_each.
  - unfold Scheduler.detect_triangulation_simple.
    apply Forall_concat, Forall_fmap, Forall_forall.
    intros g [_ (c & -> & _)%list_elem_of_fmap]%list_elem_of_filter. simpl.
    apply simple_groups_labels.
    eapply sublist_NoDup; [exact Hlabels|]. apply fmap_sublist, sublist_filter.
  - intros row1 chr_data n. apply painter_collect_fold. simpl. apply NoDup_singleton.
  - intros sort_values. unfold Painter.detect_triangulation_groups.
    apply Forall_concat, Forall_fmap, Forall_forall. intros c _. simpl.
    apply painter_seed_fold. constructor.
Qed.

(** The sample rows carry ten different labels. *)
Lemma sample_labels_distinct : NoDup (row_name <$> sample_data).
Proof. apply (bool_decide_unpack _). vm_compute. exact I. Defined.

(** C9 on the sample data. *)
Lemma C9_no_member_twice_in_a_group_witness :
  Scheduler.possible_run 2 [2; 0; 1] sample_data 3 2 (Some 1)
  ∧ NoDup (row_name <$> sample_data)
  ∧ ∃ groups,
      Scheduler.detect_triangulation_groups_optimized 2 [2; 0; 1] sample_data 3 2 (Some 1)
        = Returned groups
      ∧ Forall (λ g, NoDup (row_name <$> g)) groups.
Proof.
  split; [exact sample_run_possible|]. split; [exact sample_labels_distinct|].
  exact (proj1 (proj2 (proj2
    (C9_no_member_twice_in_a_group 2 [2; 0; 1] sample_data 3 2 (Some 1)
       sample_run_possible sample_labels_distinct)))).
Defined.

(** ** C7: the number of workers does not matter *)

(** C7.  Two possible runs of the optimized engine on the same data and
    configuration return the same list of groups, whatever the number of
    worker processes and whatever the order in which their chunks finish:
    both return the groups of the chromosomes in key order. *)
Theorem C7_worker_count_does_not_matter
    cpu1 cpu2 schedule1 schedule2 data T k w1 w2 :
  Scheduler.possible_run cpu1 schedule1 data T k w1 →
  Scheduler.possible_run cpu2 schedule2 data T k w2 →
  Scheduler.detect_triangulation_groups_optimized cpu1 schedule1 data T k w1
    = Scheduler.detect_triangulation_groups_optimized cpu2 schedule2 data T k w2
  ∧ Scheduler.detect_triangulation_groups_optimized cpu1 schedule1 data T k w1
    = Returned (concat (Optimized._process_chromosome_optimized
                        <$> Scheduler.args_list data T k)).
Proof.
  intros H1 H2. by rewrite !detect_optimized_returned.
Qed.

(** Two worker processes on the sample data: five chunks, finishing last
    to first. *)
Lemma sample_run_possible_two_workers :
  Scheduler.possible_run 3 [4; 3; 2; 1; 0] sample_data 3 2 None.
Proof.
  split; [simpl; lia|].
  unfold Pool.complete_schedule. vm_compute.
  exact (Permutation_sym (Permutation_rev [0; 1; 2; 3; 4])).
Defined.

(** C7 on the sample data: one worker and three chunks against two
    workers and five chunks. *)
Lemma C7_worker_count_does_not_matter_witness :
  Scheduler.detect_triangulation_groups_optimized 2 [2; 0; 1] sample_data 3 2 (Some 1)
    = Scheduler.detect_triangulation_groups_optimized 3 [4; 3; 2; 1; 0] sample_data 3 2 None
  ∧ Scheduler.detect_triangulation_groups_optimized 2 [2; 0; 1] sample_data 3 2 (Some 1)
    = Returned (concat (Optimized._process_chromosome_optimized
                        <$> Scheduler.args_list sample_data 3 2)).
Proof.
  exact (C7_worker_count_does_not_matter 2 3 [2; 0; 1] [4; 3; 2; 1; 0]
           sample_data 3 2 (Some 1) None
           sample_run_possible sample_run_possible_two_workers).
Defined.

(** ** C5: a chromosome whose processing raises *)






(** ** C6: thresholds that the specification calls invalid *)

Section optimized_degenerate.
Import Optimized.

Lemma foldl_pointwise {S E} (f g : S → E → S) (l : list E) (st : S) :
  (∀ st e, f st e = g st e) → foldl f st l = foldl g st l.
Proof.
  intros H. revert st. induction l as [|e l IH]; intros st; simpl; [done|].
  by rewrite H, IH.
Qed.

Lemma actual_overlap_nonneg (s1 s2 : segment) : (0 ≤ actual_overlap s1 s2)%Z.
Proof. unfold actual_overlap. lia. Qed.

(** A threshold at or below zero is passed by every pair, so it acts as
    zero. *)
Lemma optimized_nonpositive_threshold c chr_data T k :
  (T ≤ 0)%Z →
  _process_chromosome_optimized (c, chr_data, T, k)
  = _process_chromosome_optimized (c, chr_data, 0%Z, k).
Proof.
  intros HT. unfold _process_chromosome_optimized, seed_and_collect.
  f_equal. apply foldl_pointwise. intros [groups processed] [i segment1].
  assert (∀ segments, collect T segments i segment1 = collect 0 segments i segment1)
    as Hc.
  { intros segments. unfold collect. apply foldl_pointwise.
    intros [g idx] [j segment2]. unfold collect_step.
    pose proof (actual_overlap_nonneg segment1 segment2).
    repeat case_decide; try done; lia. }
  unfold seed_step. by rewrite Hc.
Qed.

Lemma mark_processed_spec processed (current_group : list segment) :
  mark_processed processed current_group
  = processed ∪ list_to_set (index <$> current_group).
Proof.
  unfold mark_processed. revert processed.
  induction current_group as [|s g IH]; intros processed; csimpl.
  - set_solver.
  - rewrite IH. set_solver.
Qed.

(** With [min_group_size] at most 1 every seed that is tried is emitted,
    so every index ends up in a group. *)
Lemma optimized_seed_fold_covers T k segments cands groups processed :
  (k ≤ 1)%Z →
  (∀ s, s ∈ segments → index s = row_name (data s)) →
  (∀ e, e ∈ cands → e ∈ enumerate segments) →
  (∀ z, z ∈ processed → ∃ g, g ∈ groups ∧ z ∈ row_name <$> g) →
  let final := foldl (seed_step T k segments) (groups, processed) cands in
  (∀ z, z ∈ final.2 → ∃ g, g ∈ final.1 ∧ z ∈ row_name <$> g)
  ∧ processed ⊆ final.2
  ∧ (∀ e, e ∈ cands → index e.2 ∈ final.2).
Proof.
  intros Hk Hidx. revert groups processed.
  induction cands as [|[i segment1] cands IH]; intros groups processed Hc Hinv.
  { simpl. split; [done|]. split; [done|]. intros e []%elem_of_nil. }
  cbn [foldl seed_step].
  assert (∀ e, e ∈ cands → e ∈ enumerate segments) as Hc'.
  { intros e He. apply Hc. by right. }
  destruct (decide (index segment1 ∈ processed)) as [Hin|Hnin].
  { destruct (IH groups processed Hc' Hinv) as (H1 & H2 & H3).
    split; [done|]. split; [done|].
    intros e [->|He]%elem_of_cons; [by apply H2|by apply H3]. }
  cbv zeta.
  destruct (optimized_collect_shape T segments i segment1)
    as (extra & Heq & Hsub & _ & _).
  rewrite decide_True by (rewrite Heq; simpl; lia).
  rewrite mark_processed_spec, Heq.
  match goal with |- context [foldl _ (?g, ?p) cands] =>
    destruct (IH g p Hc') as (H1 & H2 & H3) end.
  { intros z [Hz|Hz]%elem_of_union.
    - destruct (Hinv z Hz) as (g & Hg & Hzg). exists g. split; [|done].
      apply elem_of_app. by left.
    - exists (data <$> segment1 :: extra.*2). split; [set_solver|].
      apply elem_of_list_to_set in Hz.
      apply list_elem_of_fmap in Hz as (s & -> & Hs).
      rewrite Hidx.
      + apply list_elem_of_fmap. exists (data s). split; [done|].
        apply list_elem_of_fmap. by exists s.
      + apply elem_of_cons in Hs as [->|Hs].
        * assert ((i, segment1) ∈ enumerate segments) as He by (apply Hc; left).
          apply elem_of_enumerate in He. by eapply list_elem_of_lookup_2.
        * apply list_elem_of_fmap in Hs as ([j s'] & -> & He).
          eapply elem_of_sublist in He; [|exact Hsub].
          apply elem_of_enumerate in He. by eapply list_elem_of_lookup_2. }
  split; [done|]. split; [set_solver|].
  intros e [->|He]%elem_of_cons; [|by apply H3].
  apply H2. simpl. set_solver.
Qed.

Lemma optimized_process_covers c chr_data T k row :
  (k ≤ 1)%Z → row ∈ chr_data →
  ∃ g, g ∈ _process_chromosome_optimized (c, chr_data, T, k)
       ∧ row_name row ∈ row_name <$> g.
Proof.
  intros Hk Hrow. unfold _process_chromosome_optimized, seed_and_collect.
  set (segments := sort_by_start (to_segment <$> chr_data)).
  destruct (optimized_seed_fold_covers T k segments (enumerate segments) [] ∅ Hk)
    as (H1 & _ & H3); [| done | set_solver |].
  { intros s Hs. by rewrite (optimized_segments_of_rows chr_data s Hs) at 1. }
  assert (to_segment row ∈ segments) as Hs.
  { unfold segments, sort_by_start. rewrite sort_by_perm.
    apply list_elem_of_fmap. by exists row. }
  apply list_elem_of_lookup in Hs as [j Hj].
  apply elem_of_enumerate in Hj. apply H3 in Hj. by apply H1 in Hj.
Qed.

End optimized_degenerate.

(** C6, as stated, fails: with [min_overlap_bp = 0] and
    [min_group_size = 1] the optimized engine raises nothing and groups
    two rows that share no base pair. *)
Lemma C6_zero_threshold_is_run :
  Scheduler.detect_triangulation_groups_optimized 2 [0] [rowX; rowZ] 0 1 None
    = Returned [[rowX; rowZ]]
  ∧ overlap_bp rowX rowZ = 0%Z.
Proof. by vm_compute. Qed.

(** C6, amended.  Neither engine checks its configuration.  A run with
    [min_overlap_bp <= 0] or [min_group_size < 2] returns, without
    raising, the groups that the grouping loops produce for those values:
    a threshold at or below zero gives the groups of threshold zero, for
    which every two rows overlap enough; a group size below 2 puts every
    row label of the data into some group. *)
Theorem C6_configuration_is_not_checked cpu schedule data T k w :
  Scheduler.possible_run cpu schedule data T k w →
  (T ≤ 0 ∨ k < 2)%Z →
  ∃ groups,
    Scheduler.detect_triangulation_groups_optimized cpu schedule data T k w
      = Returned groups
    ∧ groups = concat (Optimized._process_chromosome_optimized
                       <$> Scheduler.args_list data T k)
    ∧ ((T ≤ 0)%Z →
       groups = concat ((λ t, Optimized._process_chromosome_optimized
                                (t.1.1.1, t.1.1.2, 0%Z, k))
                        <$> Scheduler.args_list data T k))
    ∧ ((k < 2)%Z →
       ∀ row, row ∈ data → ∃ g, g ∈ groups ∧ row_name row ∈ row_name <$> g).
Proof.
  intros Hrun _. eexists. split; [by apply detect_optimized_returned|].
  split; [done|]. split.
  - intros HT. f_equal. apply list_fmap_ext. intros n [[[c chr_data] T'] k'] Ht.
    apply list_elem_of_lookup_2 in Ht. unfold Scheduler.args_list in Ht.
    apply list_elem_of_fmap in Ht as (g & [= -> -> -> ->] & _). simpl.
    by apply (optimized_nonpositive_threshold g.1 g.2).
  - intros Hk row Hrow.
    destruct (groupby_covers data row Hrow) as (g & Hg & Hc & Hin).
    destruct (optimized_process_covers g.1 g.2 T k row ltac:(lia) Hin)
      as (group & Hgroup & Hlabel).
    exists group. split; [|done]. apply elem_of_concat.
    exists (Optimized._process_chromosome_optimized (g.1, g.2, T, k)).
    split; [|done]. apply list_elem_of_fmap. exists (g.1, g.2, T, k).
    split; [done|]. unfold Scheduler.args_list. apply list_elem_of_fmap.
    exists g. split; [done|]. apply list_elem_of_filter. split; [|done].
    destruct (g.2); [by apply elem_of_nil in Hin|]. simpl length. lia.
Qed.

(** C6, amended, at threshold 0 and group size 1. *)
Lemma C6_configuration_is_not_checked_witness :
  ∃ groups,
    Scheduler.detect_triangulation_groups_optimized 2 [0] [rowX; rowZ] 0 1 None
      = Returned groups
    ∧ groups = concat (Optimized._process_chromosome_optimized
                       <$> Scheduler.args_list [rowX; rowZ] 0 1)
    ∧ ((0 ≤ 0)%Z →
       groups = concat ((λ t, Optimized._process_chromosome_optimized
                                (t.1.1.1, t.1.1.2, 0%Z, 1%Z))
                        <$> Scheduler.args_list [rowX; rowZ] 0 1))
    ∧ ((1 < 2)%Z →
       ∀ row, row ∈ [rowX; rowZ] → ∃ g, g ∈ groups ∧ row_name row ∈ row_name <$> g).
Proof.
  apply (C6_configuration_is_not_checked 2 [0] [rowX; rowZ] 0 1 None).
  - split; [simpl; lia|]. unfold Pool.complete_schedule. vm_compute. reflexivity.
  - left. lia.
Defined.

(** ** C8: the surname rule *)

(** *** The string operations *)

Lemma prefix_append old rest : String.prefix old (old +:+ rest) = true.
Proof.
  induction old as [|c old IH]; simpl; [by destruct rest|].
  destruct (ascii_dec c c); [done|done].
Qed.

Lemma replace_from_skip old a rest :
  Str.replace_from old (String.length a) (a +:+ rest) = Str.remove old rest.
Proof. induction a as [|c a IH]; simpl; [done|]. exact IH. Qed.

(** [Str.remove] obeys the equations of [str.replace(old, "")]: an
    occurrence at the front is dropped whole and the search goes on
    behind it; otherwise the first character is kept. *)
Lemma remove_occurrence old rest :
  old ≠ EmptyString → Str.remove old (old +:+ rest) = Str.remove old rest.
Proof.
  intros Hold. destruct old as [|c old]; [done|].
  pose proof (prefix_append (String c old) rest) as Hp.
  unfold Str.remove at 1.
  change (String c old +:+ rest) with (String c (old +:+ rest)) in *.
  cbn [Str.replace_from]. rewrite Hp.
  replace (String.length (String c old) - 1) with (String.length old)
    by (simpl; lia).
  apply replace_from_skip.
Qed.

Lemma remove_no_occurrence old c s :
  String.prefix old (String c s) = false →
  Str.remove old (String c s) = String c (Str.remove old s).
Proof. intros H. unfold Str.remove. cbn [Str.replace_from]. by rewrite H. Qed.

Lemma remove_empty old : Str.remove old EmptyString = EmptyString.
Proof. done. Qed.

Lemma solid_snoc word c :
  solid word → Str.isspace c = false → solid (word +:+ String c EmptyString).
Proof.
  unfold solid. induction word as [|c' word IH]; simpl.
  - intros _ Hc. by constructor.
  - intros [Hc' Hw]%Forall_cons Hc. constructor; [done|by apply IH].
Qed.

Lemma append_not_empty word c : word +:+ String c EmptyString ≠ EmptyString.
Proof. by destruct word. Qed.

(** The tokens of [Str.split] are not empty and hold no whitespace. *)
Lemma split_from_tokens word s :
  solid word → Forall (λ t, t ≠ EmptyString ∧ solid t) (Str.split_from word s).
Proof.
  revert word. induction s as [|c s IH]; intros word Hword; simpl.
  - case_decide; [constructor|]. by repeat constructor.
  - destruct (Str.isspace c) eqn:Hc.
    + case_decide.
      * apply IH. constructor.
      * constructor; [done|]. apply IH. constructor.
    + apply IH. by apply solid_snoc.
Qed.

(** *** The rule *)

Lemma split_from_lstrip s : Str.split_from "" (Str.lstrip s) = Str.split_from "" s.
Proof.
  induction s as [|c s IH]; simpl; [done|].
  destruct (Str.isspace c) eqn:Hc; [done|]. simpl. by rewrite Hc.
Qed.

Lemma split_from_rstrip word s :
  Str.split_from word (Str.rstrip s) = Str.split_from word s.
Proof.
  revert word. induction s as [|c s IH]; intros word; simpl; [done|].
  destruct (Str.isspace c) eqn:Hc; simpl.
  - case_bool_decide as Hr; simpl.
    + rewrite <- (IH ""), Hr. simpl. by case_decide.
    + rewrite Hc. by rewrite !IH.
  - rewrite Hc. by rewrite IH.
Qed.

(** Trimming before splitting changes nothing. *)
Lemma split_strip s : Str.split (Str.strip s) = Str.split s.
Proof. unfold Str.split, Str.strip. by rewrite split_from_rstrip, split_from_lstrip. Qed.

Lemma last_cons_cons {A} (x y : A) l : last (x :: y :: l) = last (y :: l).
Proof. done. Qed.

(** C8.  [extract_surname] is the rule of the specification: on every
    name it returns what the rule returns, which is the last
    whitespace-separated token left after the four literal substrings are
    removed, and ["Unknown"] when no token is left; a missing name and
    the empty name give ["Unknown"].  The removal is that of
    [str.replace(old, "")]: an occurrence at the front is dropped whole
    and the search goes on behind it, any other first character is kept.
    So a title in front of a name does not change the surname, and a
    title is removed wherever it stands, also inside a word. *)
Theorem C8_surname_rule :
  (∀ match_name, extract_surname (Some match_name) = surname_rule match_name)
  ∧ (∀ match_name,
       extract_surname (Some match_name)
       = default "Unknown"
           (last (Str.split (Str.remove "Ph.D." (Str.remove "Dr."
                    (Str.remove "Mrs." (Str.remove "Mr." match_name)))))))
  ∧ (∀ old, old ≠ EmptyString →
       Str.remove old EmptyString = EmptyString
       ∧ (∀ rest, Str.remove old (old +:+ rest) = Str.remove old rest)
       ∧ (∀ c s, String.prefix old (String c s) = false →
                 Str.remove old (String c s) = String c (Str.remove old s)))
  ∧ (∀ title match_name,
       title ∈ ["Mr."; "Mrs."; "Dr."; "Ph.D."]%string →
       extract_surname (Some (title +:+ " " +:+ match_name))
       = extract_surname (Some match_name))
  ∧ extract_surname (Some "Dr. Jane A. Smith") = "Smith"
  ∧ extract_surname (Some "Madonna") = "Madonna"
  ∧ extract_surname (Some "") = "Unknown"
  ∧ extract_surname None = "Unknown"
  ∧ extract_surname (Some "Jane Smith Ph.D.") = "Smith"
  ∧ extract_surname (Some "Mrs. Ada Lovelace") = "Lovelace"
  ∧ extract_surname (Some "Mr.Smith") = "Smith"
  ∧ extract_surname (Some "Dr.") = "Unknown"
  ∧ extract_surname (Some "Mr. Dr. Ph.D.") = "Unknown".
Proof.
  assert (∀ match_name, extract_surname (Some match_name) = surname_rule match_name)
    as Hrule.
  { intros [|c s]; [done|]. unfold extract_surname, surname_rule. cbv zeta.
    destruct (Str.split _) as [|t1 [|t2 tokens]]; simpl; done. }
  assert (∀ match_name,
            extract_surname (Some match_name)
            = default "Unknown"
                (last (Str.split (Str.remove "Ph.D." (Str.remove "Dr."
                         (Str.remove "Mrs." (Str.remove "Mr." match_name)))))))
    as Hlast.
  { intros match_name. rewrite Hrule. unfold surname_rule. cbv zeta.
    rewrite split_strip.
    destruct (Str.split _) as [|t1 [|t2 tokens]]; try done.
    destruct (last (t1 :: t2 :: tokens)) eqn:E; [done|].
    by apply last_None in E. }
  split; [done|]. split; [done|]. split; [|split; [|by vm_compute]].
  - intros old Hold. split; [apply remove_empty|].
    split; [intros rest; by apply remove_occurrence|apply remove_no_occurrence].
  - intros title match_name Htitle. rewrite !Hlast.
    assert (Str.remove "Ph.D." (Str.remove "Dr." (Str.remove "Mrs." (Str.remove "Mr."
              (title +:+ " " +:+ match_name))))
            = " " +:+ Str.remove "Ph.D." (Str.remove "Dr." (Str.remove "Mrs."
                        (Str.remove "Mr." match_name)))) as ->; [|done].
    rewrite !elem_of_cons, elem_of_nil in Htitle.
    destruct Htitle as [->|[->|[->|[->|[]]]]]; reflexivity.
Qed.

(** ** C10: what [min_cm_filter] changes in a report *)

Lemma filter_lines_cases py f :
  Report.filter_lines py f = []
  ∨ ∃ x, f = Some x ∧ PrimFloat.ltb 0 x = true
         ∧ Report.filter_lines py f
           = ["(Filtered to show only matches ≥ " +:+ fmt_float py x +:+ " cM)"].
Proof.
  destruct f as [x|]; [|by left]. unfold Report.filter_lines, Report.filter_applies.
  destruct (negb (PrimFloat.eqb x 0)); simpl; [|by left].
  destruct (PrimFloat.ltb 0 x) eqn:Hx; [|by left]. right. by exists x.
Qed.

(** C10.  For a fixed stored group list, two calls of
    [create_triangulation_report_by_size] with the filters [f1] and [f2]
    give results that agree in everything but the filter line, in the
    report of the optimized engine and in that of the simple engine: both
    raise the same exception, or both say that there are no groups, or
    both return the same lines before and after the place of the filter
    line.  That place holds no line, or the one line
    ["(Filtered to show only matches >= x cM)"] for a filter [x > 0]. *)
Theorem C10_filter_changes_only_its_header_line py triangulation_groups f1 f2 :
  differ_only_in_filter_line py f1 f2
    (OptimizedReport.create_triangulation_report_by_size py triangulation_groups f1)
    (OptimizedReport.create_triangulation_report_by_size py triangulation_groups f2)
  ∧ differ_only_in_filter_line py f1 f2
      (SimpleReport.create_triangulation_report_by_size py triangulation_groups f1)
      (SimpleReport.create_triangulation_report_by_size py triangulation_groups f2)
  ∧ (∀ f, Report.filter_lines py f = []
          ∨ ∃ x, f = Some x ∧ PrimFloat.ltb 0 x = true
                 ∧ Report.filter_lines py f
                   = ["(Filtered to show only matches ≥ " +:+ fmt_float py x +:+ " cM)"]).
Proof.
  split; [|split; [|apply filter_lines_cases]].
  - unfold OptimizedReport.create_triangulation_report_by_size.
    destruct triangulation_groups as [|g groups]; [by left|].
    unfold OptimizedReport.report_lines. cbv zeta.
    destruct (Report.ranked_lines _ _ _) as [entries|e]; [|by left].
    right. cbn [bind]. eexists _, _. split; reflexivity.
  - unfold SimpleReport.create_triangulation_report_by_size.
    destruct triangulation_groups as [|g groups]; [by left|].
    unfold SimpleReport.report_lines. cbv zeta.
    destruct (Report.ranked_lines _ _ _) as [entries|e]; [|by left].
    right. cbn [bind]. eexists _, _. split; reflexivity.
Qed.

(** ** C4: the strict pass *)

Section adjacency_facts.
Import Optimized Verify.
Context (T : Z) (segments : list segment).

Local Abbreviation overlapping := (Verify.overlapping T segments).

Lemma overlapping_sym i j : overlapping i j → overlapping j i.
Proof. unfold Verify.overlapping, actual_overlap. lia. Qed.

Lemma add_neighbor_lookup (adjacency : gmap nat (gset nat)) i j a :
  add_neighbor adjacency i j !!! a
  = if decide (a = i) then adjacency !!! i ∪ {[j]} else adjacency !!! a.
Proof.
  unfold add_neighbor. case_decide as Ha.
  - subst a. by rewrite lookup_total_insert_eq.
  - by rewrite lookup_total_insert_ne.
Qed.

Lemma elem_of_add_neighbor (adjacency : gmap nat (gset nat)) i j a b :
  b ∈ add_neighbor adjacency i j !!! a ↔ b ∈ adjacency !!! a ∨ (a = i ∧ b = j).
Proof.
  rewrite add_neighbor_lookup. case_decide as Ha.
  - subst a. rewrite elem_of_union, elem_of_singleton. naive_solver.
  - naive_solver.
Qed.

Lemma adjacency_inner i js (adjacency : gmap nat (gset nat)) a b :
  b ∈ foldl (adjacency_step T segments i) adjacency js !!! a
  ↔ b ∈ adjacency !!! a
    ∨ ∃ j, j ∈ js ∧ overlapping i j ∧ ((a = i ∧ b = j) ∨ (a = j ∧ b = i)).
Proof.
  revert adjacency. induction js as [|j js IH]; intros adjacency; simpl.
  { split; [by left|]. intros [?|(j & []%elem_of_nil & _)]. done. }
  rewrite IH. unfold adjacency_step. fold (overlapping i j).
  destruct (decide (overlapping i j)) as [Hov|Hno].
  - rewrite !elem_of_add_neighbor. split.
    + intros [[[Hb|Hab]|Hab]|(j' & Hj' & Hov' & Hab)].
      * by left.
      * right. exists j. split; [by left|]. split; [done|by left].
      * right. exists j. split; [by left|]. split; [done|by right].
      * right. exists j'. split; [by right|done].
    + intros [Hb|(j' & [->|Hj']%elem_of_cons & Hov' & Hab)].
      * by left; left; left.
      * left. destruct Hab as [Hab|Hab]; [left; by right|by right].
      * right. by exists j'.
  - split.
    + intros [Hb|(j' & Hj' & Hov' & Hab)]; [by left|].
      right. exists j'. split; [by right|done].
    + intros [Hb|(j' & [->|Hj']%elem_of_cons & Hov' & Hab)]; [by left|done|].
      right. by exists j'.
Qed.

Lemma adjacency_outer (js : nat → list nat) nodes (adjacency : gmap nat (gset nat)) a b :
  b ∈ foldl (λ adjacency i, foldl (adjacency_step T segments i) adjacency (js i))
            adjacency nodes !!! a
  ↔ b ∈ adjacency !!! a
    ∨ ∃ i j, i ∈ nodes ∧ j ∈ js i ∧ overlapping i j
             ∧ ((a = i ∧ b = j) ∨ (a = j ∧ b = i)).
Proof.
  revert adjacency. induction nodes as [|i nodes IH]; intros adjacency; simpl.
  { split; [by left|]. intros [?|(i & j & []%elem_of_nil & _)]. done. }
  rewrite IH, adjacency_inner. split.
  - intros [[Hb|(j & Hj & Hov & Hab)]|(i' & j & Hi' & Hj & Hov & Hab)].
    + by left.
    + right. exists i, j. split; [by left|done].
    + right. exists i', j. split; [by right|done].
  - intros [Hb|(i' & j & [->|Hi']%elem_of_cons & Hj & Hov & Hab)].
    + by left; left.
    + left; right. by exists j.
    + right. by exists i', j.
Qed.

Lemma initial_adjacency_lookup n a :
  (list_to_map ((λ i, (i, ∅)) <$> seq 0 n) : gmap nat (gset nat)) !!! a = ∅.
Proof.
  unfold lookup_total, map_lookup_total.
  destruct (list_to_map _ !! a) as [X|] eqn:E; [|done]. simpl.
  apply elem_of_list_to_map_2 in E.
  by apply list_elem_of_fmap in E as (i & [= -> ->] & _).
Qed.

Lemma build_adjacency_spec a b :
  b ∈ build_adjacency T segments !!! a ↔ edge T segments a b.
Proof.
  unfold build_adjacency. cbv zeta.
  rewrite (adjacency_outer (λ i, seq (i + 1) (length segments - (i + 1)))).
  rewrite initial_adjacency_lookup. unfold edge. fold (overlapping a b). split.
  - intros [[]%elem_of_empty|(i & j & Hi & Hj & Hov & Hab)].
    apply elem_of_seq in Hi, Hj.
    destruct Hab as [[-> ->]|[-> ->]].
    + repeat split; try lia; done.
    + repeat split; try lia; by apply overlapping_sym.
  - intros (Ha & Hb & Hne & Hov). right.
    destruct (decide (a < b)).
    + exists a, b. rewrite !elem_of_seq. repeat split; try lia; try done; by left.
    + exists b, a. rewrite !elem_of_seq.
      repeat split; try lia; try (by apply overlapping_sym); by right.
Qed.

End adjacency_facts.

Section dfs_facts.
Import Optimized Verify.
Context (iter : gset nat → list nat) (Hiter : ∀ X, iter X ≡ₚ elements X).
Context (T : Z) (segments : list segment) (adjacency : gmap nat (gset nat)).
Context (Hadj : ∀ a b, b ∈ adjacency !!! a ↔ edge T segments a b).

Lemma edge_sym a b : edge T segments a b → edge T segments b a.
Proof.
  unfold edge, actual_overlap. intros (? & ? & ? & ?). repeat split; try done; lia.
Qed.

Lemma connected_sym a b : connected T segments a b → connected T segments b a.
Proof.
  induction 1 as [|a b c Hab _ IH]; [done|].
  eapply rtc_r; [exact IH|]. by apply edge_sym.
Qed.

Lemma connected_range a b :
  a < length segments → connected T segments a b → b < length segments.
Proof.
  intros Ha. induction 1 as [|a b c Hab _ IH]; [done|].
  apply IH. by destruct Hab as (_ & ? & _).
Qed.

Lemma closed_connected (V : gset nat) a b :
  (∀ v w, v ∈ V → edge T segments v w → w ∈ V) →
  a ∈ V → connected T segments a b → b ∈ V.
Proof.
  intros Hclosed Ha. induction 1 as [|a b c Hab _ IH]; [done|].
  apply IH. by eapply Hclosed.
Qed.

Lemma neighbours_bound node : length (iter (adjacency !!! node)) ≤ length segments.
Proof.
  rewrite Hiter. change (size (adjacency !!! node) ≤ length segments).
  rewrite <- (size_set_seq (C:=gset nat) 0 (length segments)).
  apply subseteq_size. intros b Hb. apply Hadj in Hb as (_ & ? & _).
  apply elem_of_set_seq. lia.
Qed.

Lemma push_fold (visited : gset nat) nbs stack :
  foldl (λ stack neighbor,
           if decide (neighbor ∈ visited) then stack else neighbor :: stack)
        stack nbs
  = rev (filter (λ nb, nb ∉ visited) nbs) ++ stack.
Proof.
  revert stack. induction nbs as [|nb nbs IH]; intros stack; simpl; [done|].
  rewrite IH, filter_cons. destruct (decide (nb ∈ visited)).
  - by rewrite decide_False by tauto.
  - rewrite decide_True by done. simpl. by rewrite <- app_assoc.
Qed.

Lemma dfs_runs V0 s fuel :
  (∀ v, v ∈ V0 → v < length segments) → s < length segments →
  ∀ stack visited nodes comp0,
    dfs_inv T segments V0 s stack visited nodes →
    length stack + (length segments - size visited) * S (length segments) < fuel →
    ∃ nodes',
      dfs fuel iter adjacency segments stack visited
          (comp0 ++ ((λ j, segments !!! j) <$> nodes))
        = Some (V0 ∪ list_to_set nodes', comp0 ++ ((λ j, segments !!! j) <$> nodes'))
      ∧ dfs_inv T segments V0 s [] (V0 ∪ list_to_set nodes') nodes'.
Proof.
  intros HV0 Hs. induction fuel as [|fuel IH]; intros stack visited nodes comp0 Hinv Hfuel.
  { by apply Nat.nlt_0_r in Hfuel. }
  destruct stack as [|node stack]; simpl.
  { exists nodes. destruct Hinv as (-> & ?). split; [done|]. by split. }
  destruct Hinv as (Hvis & Hnd & Hfresh & Hnodes & Hstack & Hclosed & Hstart).
  assert (∀ v, v ∈ visited → v < length segments) as Hrange.
  { intros v. rewrite Hvis, elem_of_union, elem_of_list_to_set.
    intros [?|?]; [by apply HV0|]. eapply connected_range; [exact Hs|by apply Hnodes]. }
  destruct (decide (node ∈ visited)) as [Hin|Hnew].
  - apply IH; [|simpl in Hfuel; lia].
    split; [done|]. repeat split; try done.
    + intros v Hv. apply Hstack. by right.
    + intros v w Hv Hvw. destruct (Hclosed v w Hv Hvw) as [?|[->|?]%elem_of_cons];
        [by left|by left|by right].
    + destruct Hstart as [?|[->|?]%elem_of_cons]; [by left|by left|by right].
  - rewrite push_fold.
    assert (connected T segments s node) as Hnode by (apply Hstack; left).
    assert (node < length segments) as Hlt by (by eapply connected_range).
    replace ((comp0 ++ ((λ j, segments !!! j) <$> nodes)) ++ [segments !!! node])
      with (comp0 ++ ((λ j, segments !!! j) <$> (nodes ++ [node])))
      by (by rewrite fmap_app, app_assoc).
    apply IH.
    + split; [|repeat split].
      * rewrite Hvis, list_to_set_app_L. set_solver.
      * apply NoDup_app. split; [done|]. split; [|apply NoDup_singleton].
        intros v Hv [->|[]%elem_of_nil]%elem_of_cons. apply Hnew.
        rewrite Hvis. set_solver.
      * intros v [Hv| [->|[]%elem_of_nil]%elem_of_cons]%elem_of_app; [by apply Hfresh|].
        intros Hv0. apply Hnew. rewrite Hvis. set_solver.
      * intros v [Hv| [->|[]%elem_of_nil]%elem_of_cons]%elem_of_app; [by apply Hnodes|done].
      * intros v [Hv|Hv]%elem_of_app.
        -- apply list_elem_of_In, in_rev, list_elem_of_In, list_elem_of_filter in Hv as [_ Hv].
           rewrite Hiter in Hv. apply elem_of_elements, Hadj in Hv.
           eapply rtc_r; [exact Hnode|done].
        -- apply Hstack. by right.
      * intros v w [Hv|Hv%elem_of_singleton]%elem_of_union Hvw.
        -- destruct (Hclosed v w Hv Hvw) as [?|[->|?]%elem_of_cons].
           ++ left. set_solver.
           ++ left. set_solver.
           ++ right. apply elem_of_app. by right.
        -- subst v. destruct (decide (w ∈ visited ∪ {[node]})) as [?|Hw]; [by left|].
           right. apply elem_of_app. left.
           apply list_elem_of_In, in_rev, list_elem_of_In. rewrite rev_involutive. apply list_elem_of_filter. split; [done|].
           rewrite Hiter. by apply elem_of_elements, Hadj.
      * destruct Hstart as [?|[->|?]%elem_of_cons].
        -- left. set_solver.
        -- left. set_solver.
        -- right. apply elem_of_app. by right.
    + assert (size (visited ∪ {[node]}) = S (size visited)) as Hsize.
      { rewrite size_union by set_solver. rewrite size_singleton. lia. }
      assert (size (visited ∪ {[node]}) ≤ length segments) as Hle.
      { rewrite <- (size_set_seq (C:=gset nat) 0 (length segments)).
        apply subseteq_size. intros v [Hv|Hv%elem_of_singleton]%elem_of_union;
          apply elem_of_set_seq; [apply Hrange in Hv|]; lia. }
      rewrite length_app, length_rev.
      pose proof (length_filter (λ nb, nb ∉ visited ∪ {[node]})
                    (iter (adjacency !!! node))) as Hf.
      pose proof (neighbours_bound node) as Hb.
      simpl in Hfuel. rewrite Hsize in *. nia.
Qed.

Lemma dfs_component V0 s nodes :
  (∀ v w, v ∈ V0 → edge T segments v w → w ∈ V0) →
  s ∉ V0 → s < length segments →
  dfs_inv T segments V0 s [] (V0 ∪ list_to_set nodes) nodes →
  component_of T segments s nodes
  ∧ (∀ v w, v ∈ V0 ∪ list_to_set nodes → edge T segments v w →
            w ∈ V0 ∪ list_to_set nodes).
Proof.
  intros HV0 Hs Hlt (_ & Hnd & Hfresh & Hnodes & _ & Hclosed & Hstart).
  assert (∀ v w, v ∈ V0 ∪ list_to_set nodes → edge T segments v w →
                 w ∈ V0 ∪ list_to_set nodes) as Hclosed'.
  { intros v w Hv Hvw. destruct (Hclosed v w Hv Hvw) as [?|[]%elem_of_nil]. done. }
  split; [|done]. split; [done|]. split; [done|].
  intros j. split; [by apply Hnodes|]. intros Hj.
  assert (s ∈ V0 ∪ list_to_set nodes) as Hs'.
  { by destruct Hstart as [?|[]%elem_of_nil]. }
  pose proof (closed_connected _ s j Hclosed' Hs' Hj) as Hin.
  apply elem_of_union in Hin as [Hin|Hin]; [|by apply elem_of_list_to_set in Hin].
  exfalso. apply Hs. eapply (closed_connected V0 j s); [done|done|].
  by apply connected_sym.
Qed.

Lemma component_same_length r nodes v nodes' :
  component_of T segments r nodes → v ∈ nodes →
  component_of T segments v nodes' → length nodes' = length nodes.
Proof.
  intros (_ & Hnd & Hr) Hv (_ & Hnd' & Hv').
  apply Permutation_length, NoDup_Permutation; [done|done|].
  intros j. rewrite Hr, Hv'. apply Hr in Hv. split.
  - intros Hj. by etrans.
  - intros Hj. etrans; [|exact Hj]. by apply connected_sym.
Qed.

Lemma component_step_runs visited largest start :
  outer_inv T segments visited largest → start < length segments →
  ∃ visited' largest',
    component_step iter adjacency segments (Some (visited, largest)) start
      = Some (visited', largest')
    ∧ outer_inv T segments visited' largest'
    ∧ visited ⊆ visited' ∧ start ∈ visited'.
Proof.
  intros (Hclosed & Hrange & lnodes & Hl & Hcomp & Hmax) Hlt.
  unfold component_step.
  destruct (decide (start ∈ visited)) as [Hin|Hnew].
  { exists visited, largest. split; [done|]. split; [|done].
    split; [done|]. split; [done|]. by exists lnodes. }
  destruct (dfs_runs visited start (dfs_fuel (length segments)) Hrange Hlt
              [start] visited [] []) as (nodes & Hdfs & Hinv).
  { split; [set_solver|]. repeat split.
    - constructor.
    - intros v []%elem_of_nil.
    - intros v []%elem_of_nil.
    - intros v [->|[]%elem_of_nil]%elem_of_cons. done.
    - intros v w Hv Hvw. left. by eapply Hclosed.
    - right. by left. }
  { unfold dfs_fuel. simpl. nia. }
  cbn [app fmap list_fmap] in Hdfs. rewrite Hdfs.
  destruct (dfs_component visited start nodes Hclosed Hnew Hlt Hinv)
    as [Hc Hclosed'].
  assert (start ∈ nodes) as Hstart.
  { destruct Hc as (_ & _ & Hc). by apply Hc. }
  assert (∀ v, v ∈ visited ∪ list_to_set nodes → v < length segments) as Hrange'.
  { intros v [Hv|Hv%elem_of_list_to_set]%elem_of_union; [by apply Hrange|].
    destruct Hc as (_ & _ & Hc). apply Hc in Hv. by eapply connected_range. }
  rewrite Hl, !length_fmap.
  destruct (decide (length lnodes < length nodes)) as [Hbig|Hsmall].
  - eexists _, _. split; [done|]. split; [|set_solver].
    split; [done|]. split; [done|]. exists nodes. split; [done|].
    split; [right; by exists start|].
    intros v c [Hv|Hv%elem_of_list_to_set]%elem_of_union Hvc.
    + specialize (Hmax v c Hv Hvc). lia.
    + by rewrite (component_same_length start nodes v c).
  - eexists _, _. split; [done|]. split; [|set_solver].
    split; [done|]. split; [done|]. exists lnodes. split; [done|]. split.
    + destruct Hcomp as [[_ ->]|?]; [|by right].
      destruct nodes; [by apply elem_of_nil in Hstart|simpl in *; lia].
    + intros v c [Hv|Hv%elem_of_list_to_set]%elem_of_union Hvc.
      * by apply (Hmax v c).
      * rewrite (component_same_length start nodes v c) by done. lia.
Qed.

Lemma components_run starts visited largest :
  outer_inv T segments visited largest →
  Forall (λ start, start < length segments) starts →
  ∃ visited' largest',
    foldl (component_step iter adjacency segments) (Some (visited, largest)) starts
      = Some (visited', largest')
    ∧ outer_inv T segments visited' largest'
    ∧ visited ⊆ visited' ∧ (∀ start, start ∈ starts → start ∈ visited').
Proof.
  revert visited largest.
  induction starts as [|start starts IH]; intros visited largest Hinv Hall.
  { exists visited, largest. simpl. split; [done|]. split; [done|]. split; [done|].
    intros start Hs. by apply elem_of_nil in Hs. }
  apply Forall_cons in Hall as [Hlt Hall]. cbn [foldl].
  destruct (component_step_runs visited largest start Hinv Hlt)
    as (visited1 & largest1 & -> & Hinv1 & Hsub1 & Hin1).
  destruct (IH visited1 largest1 Hinv1 Hall)
    as (visited2 & largest2 & -> & Hinv2 & Hsub2 & Hin2).
  exists visited2, largest2. split; [done|]. split; [done|].
  split; [by etrans|].
  intros v [->|Hv]%elem_of_cons; [by apply Hsub2|by apply Hin2].
Qed.

End dfs_facts.

Section strict_pass.
Import Optimized Verify.
Context (iter : gset nat → list nat) (Hiter : ∀ X, iter X ≡ₚ elements X).

Lemma find_connected_components_largest segments T :
  2 ≤ length segments →
  ∃ result,
    _find_connected_components iter segments T = Some result
    ∧ largest_component T segments result.
Proof.
  intros Hlen. unfold _find_connected_components.
  rewrite decide_False by lia. cbv zeta.
  destruct (components_run iter Hiter T segments (build_adjacency T segments)
              (build_adjacency_spec T segments) (seq 0 (length segments)) ∅ [])
    as (visited & largest & -> & (Hclosed & Hrange & lnodes & -> & Hcomp & Hmax) & _ & Hall).
  { split; [set_solver|]. split; [set_solver|]. exists []. split; [done|].
    split; [by left|]. set_solver. }
  { apply Forall_forall. intros i Hi%elem_of_seq. lia. }
  eexists. split; [done|].
  destruct Hcomp as [[-> _]|[r Hr]].
  { exfalso. apply (not_elem_of_empty (C:=gset nat) 0), Hall, elem_of_seq. lia. }
  exists r, lnodes. split; [done|]. split; [done|].
  intros r' nodes' Hr'. apply (Hmax r'); [|done].
  apply Hall, elem_of_seq. destruct Hr' as (? & _). lia.
Qed.

End strict_pass.

Section small_groups.
Import Optimized Verify.

(** The single pass for small groups keeps positions connected to the
    first one, and a position exactly when it overlaps a kept position
    before it. *)
Lemma small_group_fold T segments done rest nodes :
  segments = done ++ rest → done ≠ [] →
  nodes `sublist_of` seq 0 (length done) →
  (∀ j, j ∈ nodes → connected T segments 0 j) →
  (∀ j, j < length done →
     j ∈ nodes ↔ j = 0 ∨ ∃ i, i ∈ nodes ∧ i < j ∧ overlapping T segments j i) →
  ∃ nodes',
    foldl (small_group_step T) ((λ j, segments !!! j) <$> nodes) rest
      = (λ j, segments !!! j) <$> nodes'
    ∧ nodes' `sublist_of` seq 0 (length segments)
    ∧ (∀ j, j ∈ nodes' → connected T segments 0 j)
    ∧ nodes `prefix_of` nodes'
    ∧ (∀ j, j < length segments →
         j ∈ nodes' ↔ j = 0 ∨ ∃ i, i ∈ nodes' ∧ i < j ∧ overlapping T segments j i).
Proof.
  revert done nodes.
  induction rest as [|c rest IH]; intros done nodes Hseg Hdone Hsub Hconn Hkept.
  { exists nodes. rewrite app_nil_r in Hseg. subst segments. done. }
  simpl.
  assert (segments !!! length done = c) as Hc.
  { rewrite Hseg. by rewrite list_lookup_total_middle. }
  assert (segments = (done ++ [c]) ++ rest) as Hseg' by (by rewrite <- app_assoc).
  assert (done ++ [c] ≠ []) as Hdone' by (by destruct done).
  assert (length (done ++ [c]) = S (length done)) as Hlen
    by (rewrite length_app; simpl; lia).
  assert (0 < length done) as Hpos by (destruct done; [done|simpl; lia]).
  assert (∀ i, i ∈ nodes → i < length done) as Hbelow.
  { intros i Hi. eapply elem_of_sublist in Hi; [|exact Hsub].
    apply elem_of_seq in Hi. lia. }
  unfold small_group_step at 2.
  destruct (existsb _ _) eqn:Hex.
  - apply existsb_exists in Hex as (v & Hv & Hov).
    apply bool_decide_eq_true in Hov.
    apply list_elem_of_In, list_elem_of_fmap in Hv as (j & -> & Hj).
    assert (j < length done) as Hjlt by (by apply Hbelow).
    destruct (IH (done ++ [c]) (nodes ++ [length done]) Hseg' Hdone')
      as (nodes' & Heq & Hsub' & Hconn' & Hpre & Hkept').
    + rewrite Hlen, seq_S. by apply sublist_app.
    + intros j' [Hj'|[->|[]%elem_of_nil]%elem_of_cons]%elem_of_app; [by apply Hconn|].
      eapply rtc_r; [by apply Hconn|]. unfold edge.
      rewrite Hseg at 1 2. rewrite !length_app. simpl.
      repeat split; try lia. rewrite Hc. unfold actual_overlap in *. lia.
    + intros j' Hj'. rewrite Hlen in Hj'.
      destruct (decide (j' = length done)) as [->|Hne].
      * split; [|intros _; apply elem_of_app; right; left].
        intros _. right. exists j. split; [apply elem_of_app; by left|].
        split; [done|]. unfold overlapping. by rewrite Hc.
      * rewrite elem_of_app, list_elem_of_singleton, (Hkept j') by lia.
        split.
        -- intros [[->|(i & Hi & Hlt & Hov')]|?]; [by left| |done].
           right. exists i. split; [apply elem_of_app; by left|done].
        -- intros [->|(i & [Hi|Hi%list_elem_of_singleton]%elem_of_app & Hlt & Hov')];
             [left; by left| |lia].
           left. right. by exists i.
    + exists nodes'. rewrite fmap_app in Heq. simpl in Heq. rewrite Hc in Heq.
      repeat split; try done; try (by apply Hkept').
      etrans; [|exact Hpre]. by apply prefix_app_r.
  - destruct (IH (done ++ [c]) nodes Hseg' Hdone')
      as (nodes' & Heq & Hsub' & Hconn' & Hpre & Hkept'); [|done| |by exists nodes'].
    { rewrite Hlen, seq_S. by apply sublist_inserts_r. }
    intros j' Hj'. rewrite Hlen in Hj'.
    destruct (decide (j' = length done)) as [->|Hne]; [|apply Hkept; lia].
    split; [intros Hin%Hbelow; lia|].
    intros [?|(i & Hi & Hlt & Hov')]; [lia|]. exfalso.
    assert (existsb
              (λ valid_seg, bool_decide (T ≤ actual_overlap c valid_seg)%Z)
              ((λ j, segments !!! j) <$> nodes) = true) as Htrue; [|congruence].
    apply existsb_exists. exists (segments !!! i). split.
    + apply list_elem_of_In, list_elem_of_fmap. by exists i.
    + apply bool_decide_eq_true. unfold overlapping in Hov'. by rewrite Hc in Hov'.
Qed.

Lemma verify_small_group iter T segments :
  length segments ≤ 5 →
  ∃ nodes,
    _verify_triangulation_group iter segments T
      = Some ((λ j, segments !!! j) <$> nodes)
    ∧ nodes `sublist_of` seq 0 (length segments)
    ∧ (∀ j, j ∈ nodes → connected T segments 0 j)
    ∧ (segments ≠ [] → head nodes = Some 0)
    ∧ (∀ j, j < length segments →
         j ∈ nodes ↔ j = 0 ∨ ∃ i, i ∈ nodes ∧ i < j ∧ overlapping T segments j i).
Proof.
  intros Hlen. unfold _verify_triangulation_group.
  destruct segments as [|first rest].
  { exists []. rewrite decide_True by (simpl; lia).
    split; [done|]. split; [done|]. split; [|split; [done|]].
    - intros j Hj. by apply elem_of_nil in Hj.
    - simpl. lia. }
  destruct (small_group_fold T (first :: rest) [first] rest [0])
    as (nodes & Heq & Hsub & Hconn & Hpre & Hkept); try done.
  { intros j [->|[]%elem_of_nil]%elem_of_cons. done. }
  { simpl. intros j Hj. assert (j = 0) as -> by lia.
    split; [by left|intros _; left]. }
  assert (head nodes = Some 0) as Hhead.
  { destruct Hpre as [k ->]. done. }
  exists nodes. rewrite <- Heq. split; [|done].
  case_decide as H2.
  - destruct rest; [done|simpl in H2; lia].
  - by rewrite decide_True by lia.
Qed.

End small_groups.

Section strict_pass_claim.
Import Optimized Verify.

(** C4, as stated, fails for a candidate set of three segments: the pass
    returns the first segment alone, a component of one position, while
    the two other segments overlap and form a component of two. *)
Lemma C4_small_group_is_not_the_largest_component :
  _verify_triangulation_group elements small_candidates 3
    = Some [to_segment rowFar]
  ∧ ¬ largest_component 3 small_candidates [to_segment rowFar].
Proof.
  split; [by vm_compute|].
  intros (r & nodes & Hr & Heq & Hmax).
  assert (component_of 3 small_candidates 1 [1; 2]) as Hc.
  { split; [simpl; lia|]. split.
    { apply (bool_decide_unpack _). by vm_compute. }
    intros j. split.
    - intros [->|[->|[]%elem_of_nil]%elem_of_cons]%elem_of_cons; [done|].
      apply rtc_once. unfold edge. simpl. repeat split; try lia. by vm_compute.
    - intros Hj.
      apply (closed_connected 3 small_candidates ({[1; 2]} : gset nat) 1 j) in Hj;
        [set_solver| |set_solver].
      intros v w Hv (Hvl & Hwl & Hne & Hov). simpl in Hvl, Hwl.
      destruct w as [|[|[|w]]]; [|set_solver|set_solver|lia].
      exfalso. assert (v = 1 ∨ v = 2) as [->| ->] by set_solver;
        vm_compute in Hov; by apply Hov. }
  apply Hmax in Hc. apply (f_equal length) in Heq.
  rewrite length_fmap in Heq. simpl in *. lia.
Qed.

(** Of the components {Far, Near}, {X, Y, Z} and {Lone} the pass returns
    the second. *)
Example six_candidates_largest_component :
  _verify_triangulation_group elements six_candidates 3
  = Some (to_segment <$> [rowX; rowY; rowZ]).
Proof. by vm_compute. Qed.

(** C4, amended.  For a candidate set of more than five segments the
    strict pass returns a largest connected component of the overlap
    graph: the segments at the positions connected to some position, each
    once, and no component has more positions.  ([_find_connected_components]
    does so from two segments on.)  For at most five segments the pass
    returns the first segment and, scanning once in order, every later
    segment that overlaps one already kept, and no other: the positions
    kept are in list order, the first is among them, and a later position
    is kept exactly when its segment overlaps by the threshold the
    segment at a kept position before it.  They are connected to the
    first one, and need be neither a largest component nor all of the
    first one's.  Fewer than two segments are returned as they are.  This
    holds for every order in which Python may iterate over a set of
    neighbours. *)
Theorem C4_strict_pass_above_five iter segments T :
  (∀ X, iter X ≡ₚ elements X) →
  (5 < length segments →
     ∃ result,
       _verify_triangulation_group iter segments T = Some result
       ∧ largest_component T segments result)
  ∧ (2 ≤ length segments →
     ∃ result,
       _find_connected_components iter segments T = Some result
       ∧ largest_component T segments result)
  ∧ (length segments ≤ 5 →
     ∃ nodes,
       _verify_triangulation_group iter segments T
         = Some ((λ j, segments !!! j) <$> nodes)
       ∧ nodes `sublist_of` seq 0 (length segments)
       ∧ (∀ j, j ∈ nodes → connected T segments 0 j)
       ∧ (segments ≠ [] → head nodes = Some 0)
       ∧ (∀ j, j < length segments →
            j ∈ nodes ↔ j = 0 ∨ ∃ i, i ∈ nodes ∧ i < j ∧ overlapping T segments j i))
  ∧ (length segments < 2 →
     _verify_triangulation_group iter segments T = Some segments
     ∧ _find_connected_components iter segments T = Some segments).
Proof.
  intros Hiter. split; [|split; [|split]].
  - intros Hlen. unfold _verify_triangulation_group.
    case_decide; [lia|]. case_decide; [lia|].
    apply find_connected_components_largest; [done|lia].
  - by apply find_connected_components_largest.
  - apply verify_small_group.
  - intros Hlen. unfold _verify_triangulation_group, _find_connected_components.
    by rewrite !decide_True by done.
Qed.

(** C4, amended, on six candidates and the iteration order of
    [elements]. *)
Lemma C4_strict_pass_above_five_witness :
  ∃ result,
    _verify_triangulation_group elements six_candidates 3 = Some result
    ∧ largest_component 3 six_candidates result.
Proof.
  refine (proj1 (C4_strict_pass_above_five elements six_candidates 3 _) _).
  - intros X. reflexivity.
  - vm_compute. lia.
Defined.

End strict_pass_claim.

(** * Further properties *)

(** ** What every run returns *)

Section painter_groups.
Import Painter.

Lemma painter_overlap_rows r1 r2 : overlap_length r1 r2 = overlap_bp r1 r2.
Proof. done. Qed.

(** What the inner loop of the original engine adds: some of the rows, in
    order, each with a label above the seed's and overlapping the seed. *)
Lemma painter_collect_members T row1 cands g :
  ∃ extra,
    foldl (collect_step T row1) g cands = g ++ extra
    ∧ extra `sublist_of` cands
    ∧ Forall (λ m, (row_name row1 < row_name m)%Z ∧ (T ≤ overlap_bp row1 m)%Z) extra.
Proof.
  revert g. induction cands as [|row2 cands IH]; intros g.
  { exists []. simpl. by rewrite app_nil_r. }
  cbn [foldl]. unfold collect_step at 2.
  destruct (decide (row_name row2 ≤ row_name row1)%Z) as [Hle|Hgt].
  { destruct (IH g) as (extra & -> & Hsub & Hall).
    exists extra. repeat split; try done. by apply sublist_cons. }
  destruct (decide (T ≤ overlap_length row1 row2)%Z) as [Hov|Hno].
  2:{ destruct (IH g) as (extra & -> & Hsub & Hall).
      exists extra. repeat split; try done. by apply sublist_cons. }
  destruct (found_in_group g row2).
  { destruct (IH g) as (extra & -> & Hsub & Hall).
    exists extra. repeat split; try done. by apply sublist_cons. }
  destruct (IH (g ++ [row2])) as (extra & -> & Hsub & Hall).
  exists (row2 :: extra). split; [by rewrite <- app_assoc|]. split.
  - by apply sublist_skip.
  - constructor; [|done]. split; [lia|done].
Qed.

(** What the outer loop keeps: stars of rows of the chromosome, large
    enough, no two with the same set of names. *)
Lemma painter_seed_members T k chr_data cands groups
    (P := λ g, ∃ seed members,
            g = seed :: members ∧ seed ∈ chr_data
            ∧ members `sublist_of` chr_data
            ∧ Forall (λ m, (row_name seed < row_name m)%Z
                           ∧ (T ≤ overlap_bp seed m)%Z) members
            ∧ (k ≤ Z.of_nat (length g))%Z) :
  cands ⊆ chr_data →
  Forall P groups → NoDup (group_names <$> groups) →
  Forall P (foldl (seed_step T k chr_data) groups cands)
  ∧ NoDup (group_names <$> foldl (seed_step T k chr_data) groups cands).
Proof.
  revert groups. induction cands as [|row1 cands IH]; intros groups Hc Hg Hnd;
    [done|].
  cbn [foldl]. apply IH; [set_solver| |]; unfold seed_step.
  - case_decide as Hlen; [|done]. destruct (is_duplicate _ _); [done|].
    apply Forall_app. split; [done|]. constructor; [|constructor].
    unfold collect in *.
    destruct (painter_collect_members T row1 chr_data [row1])
      as (extra & Heq & Hsub & Hall).
    rewrite Heq in *. exists row1, extra. repeat split; try done. set_solver.
  - case_decide as Hlen; [|done]. unfold is_duplicate.
    case_bool_decide as Hdup; [done|].
    rewrite fmap_app. apply NoDup_app. split; [done|]. split.
    + intros names Hin [->|[]%elem_of_nil]%elem_of_cons.
      apply Hdup, Exists_exists.
      apply list_elem_of_fmap in Hin as (existing & ? & ?). by exists existing.
    + apply NoDup_singleton.
Qed.

End painter_groups.

Lemma group_of_chromosome data k c chr_data g :
  (∀ r, r ∈ chr_data → r ∈ data ∧ Chromosome r = c) →
  (k ≤ Z.of_nat (length g))%Z → g ⊆ chr_data → group_of data k g.
Proof.
  intros Hc Hk Hg. split; [done|]. split.
  - intros r Hr. by apply Hc, Hg.
  - exists c. apply Forall_forall. intros r Hr. by apply Hc, Hg.
Qed.

Lemma at_positions_elem rows positions g r :
  at_positions rows positions g → r ∈ g → r ∈ rows.
Proof.
  unfold at_positions. induction 1 as [|j row positions g Hj _ IH].
  - by intros ?%elem_of_nil.
  - intros [->|Hr]%elem_of_cons; [by eapply list_elem_of_lookup_2|by apply IH].
Qed.

Lemma optimized_groups_of data T k :
  Forall (group_of data k)
         (concat (Optimized._process_chromosome_optimized
                  <$> Scheduler.args_list data T k)).
Proof.
  apply Forall_concat, Forall_fmap. unfold Scheduler.args_list.
  apply Forall_fmap, Forall_forall. intros g [_ Hg]%list_elem_of_filter. simpl.
  destruct (optimized_groups_traced g.1 g.2 T k) as (_ & _ & Hk & Hsub & _).
  rewrite Forall_forall in Hk, Hsub. apply Forall_forall. intros group Hgroup.
  apply (group_of_chromosome data k g.1 g.2); [|by apply Hk|by apply Hsub].
  intros r Hr. by apply (groupby_rows data g).
Qed.

Lemma simple_groups_of data T k :
  Forall (group_of data k) (Scheduler.detect_triangulation_simple data T k).
Proof.
  unfold Scheduler.detect_triangulation_simple.
  apply Forall_concat, Forall_fmap, Forall_forall.
  intros g [_ Hg]%list_elem_of_filter. simpl.
  destruct (simple_groups_traced g.2 T k) as (_ & Hk & (positions & Hpos & _) & _).
  rewrite Forall_forall in Hk. apply Forall_forall. intros group Hgroup.
  apply (group_of_chromosome data k g.1 g.2); [|by apply Hk|].
  - intros r Hr. by apply (groupby_rows data g).
  - intros r Hr.
    apply list_elem_of_lookup in Hgroup as [n Hn].
    destruct (Forall2_lookup_r _ _ _ _ _ Hpos Hn) as (ps & _ & Hps).
    by eapply at_positions_elem.
Qed.

Lemma painter_chromosome_groups sort_values data T k :
  Painter.detect_triangulation_groups sort_values data T k
  = concat (Browser.chromosome_groups sort_values data T k
            <$> Painter.unique (Chromosome <$> data)).
Proof. done. Qed.

Lemma painter_groups_traced sort_values data T k chromosome :
  let groups := Browser.chromosome_groups sort_values data T k chromosome in
  let chr_data := sort_values (filter (λ row, Chromosome row = chromosome) data) in
  Forall (λ g, ∃ seed members,
            g = seed :: members ∧ seed ∈ chr_data
            ∧ members `sublist_of` chr_data
            ∧ Forall (λ m, (row_name seed < row_name m)%Z
                           ∧ (T ≤ overlap_bp seed m)%Z) members
            ∧ (k ≤ Z.of_nat (length g))%Z) groups
  ∧ NoDup (Painter.group_names <$> groups).
Proof.
  intros groups chr_data. subst groups. unfold Browser.chromosome_groups.
  fold chr_data. apply painter_seed_members; [done|constructor|constructor].
Qed.

Lemma painter_groups_of sort_values data T k :
  (∀ l, sort_values l ≡ₚ l) →
  Forall (group_of data k) (Painter.detect_triangulation_groups sort_values data T k).
Proof.
  intros Hperm. rewrite painter_chromosome_groups.
  apply Forall_concat, Forall_fmap, Forall_forall. intros c _. simpl.
  destruct (painter_groups_traced sort_values data T k c) as [Hall _].
  eapply Forall_impl; [exact Hall|]. simpl.
  intros g (seed & members & -> & Hseed & Hsub & _ & Hk).
  apply (group_of_chromosome data k c
           (sort_values (filter (λ row, Chromosome row = c) data))); [|done|].
  - intros r Hr. rewrite Hperm in Hr. by apply list_elem_of_filter in Hr as [? ?].
  - intros r [->|Hr]%elem_of_cons; [done|]. by eapply elem_of_sublist.
Qed.

(** X1.  Whatever the engine, every group of a run has at least
    [min_group_size] members, all of them rows of the data, all on one
    chromosome.  For the original engine the rows of a chromosome may be
    sorted in any way. *)
Theorem groups_are_large_enough_and_of_one_chromosome
    sort_values cpu schedule data T k w :
  Scheduler.possible_run cpu schedule data T k w →
  (∀ l, sort_values l ≡ₚ l) →
  (∃ groups,
     Scheduler.detect_triangulation_groups_optimized cpu schedule data T k w
       = Returned groups
     ∧ Forall (group_of data k) groups)
  ∧ Forall (group_of data k) (Scheduler.detect_triangulation_simple data T k)
  ∧ Forall (group_of data k)
           (Painter.detect_triangulation_groups sort_values data T k).
Proof.
  intros Hrun Hperm. split; [|split].
  - eexists. split; [by apply detect_optimized_returned|].
    apply optimized_groups_of.
  - apply simple_groups_of.
  - by apply painter_groups_of.
Qed.

(** X1 on the sample data, the original engine sorting stably. *)
Lemma groups_are_large_enough_and_of_one_chromosome_witness :
  (∃ groups,
     Scheduler.detect_triangulation_groups_optimized 2 [2; 0; 1] sample_data 3 2 (Some 1)
       = Returned groups
     ∧ Forall (group_of sample_data 2) groups)
  ∧ Forall (group_of sample_data 2) (Scheduler.detect_triangulation_simple sample_data 3 2)
  ∧ Forall (group_of sample_data 2)
           (Painter.detect_triangulation_groups (sort_by Start_Location) sample_data 3 2).
Proof.
  apply (groups_are_large_enough_and_of_one_chromosome
           (sort_by Start_Location) 2 [2; 0; 1] sample_data 3 2 (Some 1)).
  - exact sample_run_possible.
  - intros l. apply sort_by_perm.
Defined.

(** X2.  The original engine, on one chromosome: every group is a seed
    followed by rows that overlap the seed by at least [min_overlap_bp]
    and whose labels are above the seed's; no two groups of the chromosome
    have the same set of match names; and the result of the run is these
    lists, chromosome after chromosome in order of first appearance. *)
Theorem original_engine_groups sort_values data T k :
  (∀ chromosome,
     let groups := Browser.chromosome_groups sort_values data T k chromosome in
     Forall (λ g, ∃ seed members,
               g = seed :: members
               ∧ Forall (λ m, (row_name seed < row_name m)%Z
                              ∧ (T ≤ overlap_bp seed m)%Z) members) groups
     ∧ NoDup (Painter.group_names <$> groups))
  ∧ Painter.detect_triangulation_groups sort_values data T k
    = concat (Browser.chromosome_groups sort_values data T k
              <$> Painter.unique (Chromosome <$> data)).
Proof.
  split; [|done]. intros chromosome groups.
  destruct (painter_groups_traced sort_values data T k chromosome) as [Hall Hnd].
  split; [|done]. eapply Forall_impl; [exact Hall|]. simpl.
  intros g (seed & members & -> & _ & _ & Hm & _). by exists seed, members.
Qed.

(** ** The optimized engine on rows with distinct labels *)

Lemma filter_fmap_comm {A B} (f : A → B) (P : B → Prop) (Q : A → Prop)
    `{!∀ y, Decision (P y)} `{!∀ x, Decision (Q x)} (l : list A) :
  (∀ x, P (f x) ↔ Q x) → filter P (f <$> l) = f <$> filter Q l.
Proof.
  intros HPQ. induction l as [|x l IH]; csimpl; [done|].
  rewrite !filter_cons. destruct (decide (P (f x))) as [HP|HP], (decide (Q x)) as [HQ|HQ].
  - csimpl. by rewrite IH.
  - by apply HPQ in HP.
  - by apply HPQ in HQ.
  - done.
Qed.

Lemma NoDup_fmap_eq {A B} (f : A → B) (l : list A) x y :
  NoDup (f <$> l) → x ∈ l → y ∈ l → f x = f y → x = y.
Proof.
  intros Hnd [i Hi]%list_elem_of_lookup [j Hj]%list_elem_of_lookup Hf.
  assert (i = j) as ->; [|congruence].
  apply (NoDup_lookup (f <$> l) i j (f x)); [done| |].
  - by rewrite list_lookup_fmap, Hi.
  - by rewrite list_lookup_fmap, Hj, Hf.
Qed.

Section optimized_distinct_labels.
Import Optimized.
Implicit Types (segments : list segment).

(** With distinct indices the inner loop collects every other segment
    that overlaps the seed enough. *)
Lemma optimized_collect_all T i (segment1 : segment) cands g idx :
  NoDup (index <$> cands.*2) →
  (∀ e, e ∈ cands → e.1 = i ↔ index e.2 = index segment1) →
  (∀ e, e ∈ cands → e.1 ≠ i → index e.2 ∉ idx) →
  (foldl (collect_step T i segment1) (g, idx) cands).1
  = g ++ filter (λ s, index s ≠ index segment1 ∧ (T ≤ actual_overlap segment1 s)%Z)
                cands.*2.
Proof.
  revert g idx. induction cands as [|[j segment2] cands IH]; intros g idx Hnd Hi Hidx.
  { simpl. by rewrite app_nil_r. }
  csimpl in Hnd. apply NoDup_cons in Hnd as [Hfresh Hnd].
  assert (∀ e, e ∈ cands → e.1 = i ↔ index e.2 = index segment1) as Hi'.
  { intros e He. apply Hi. by right. }
  cbn [foldl collect_step]. csimpl. rewrite filter_cons.
  destruct (decide (j = i)) as [->|Hji].
  - rewrite decide_True by (by left).
    rewrite decide_False.
    2:{ intros [Hne _]. apply Hne. apply (Hi (i, segment2)); [by left|done]. }
    apply IH; [done|done|]. intros e He. apply Hidx. by right.
  - assert (index segment2 ≠ index segment1) as Hne.
    { intros Heq. apply Hji. apply (Hi (j, segment2)); [by left|done]. }
    assert (index segment2 ∉ idx) as Hnew.
    { apply (Hidx (j, segment2)); [by left|done]. }
    rewrite decide_False by tauto.
    destruct (decide (T ≤ actual_overlap segment1 segment2)%Z) as [Hov|Hno].
    + rewrite decide_True by done.
      rewrite IH; [by rewrite <- app_assoc|done|done|].
      intros e He Hei [Hin|Hin]%elem_of_union; [|].
      * revert Hin. apply Hidx; [by right|done].
      * apply elem_of_singleton in Hin. apply Hfresh. rewrite <- Hin.
        apply list_elem_of_fmap. exists e.2. split; [done|].
        apply list_elem_of_fmap. by exists e.
    + rewrite decide_False by tauto.
      apply IH; [done|done|]. intros e He. apply Hidx. by right.
Qed.

Lemma optimized_collect_distinct T segments i (segment1 : segment) :
  NoDup (index <$> segments) → segments !! i = Some segment1 →
  (collect T segments i segment1).1
  = segment1 :: filter (λ s, index s ≠ index segment1
                             ∧ (T ≤ actual_overlap segment1 s)%Z) segments.
Proof.
  intros Hnd Hi. unfold collect.
  rewrite optimized_collect_all; unfold enumerate; rewrite ?enumerate_from_snd;
    [done|done| |].
  - intros [j s] [_ Hj]%elem_of_enumerate_from. simpl.
    replace (j - 0) with j in Hj by lia. split.
    + intros ->. congruence.
    + intros Heq. apply (NoDup_lookup (index <$> segments) j i (index s)); [done| |].
      * by rewrite list_lookup_fmap, Hj.
      * by rewrite list_lookup_fmap, Hi, Heq.
  - intros [j s] [_ Hj]%elem_of_enumerate_from Hne. simpl in *.
    replace (j - 0) with j in Hj by lia.
    intros Heq%elem_of_singleton. apply Hne.
    apply (NoDup_lookup (index <$> segments) j i (index s)); [done| |].
    + by rewrite list_lookup_fmap, Hj.
    + by rewrite list_lookup_fmap, Hi, Heq.
Qed.

(** The same over the rows. *)
Lemma optimized_collect_rows T rows i row :
  NoDup (row_name <$> rows) → rows !! i = Some row →
  data <$> (collect T (to_segment <$> rows) i (to_segment row)).1
  = row :: overlapping_rows T row rows.
Proof.
  intros Hnd Hi. rewrite optimized_collect_distinct.
  - csimpl. f_equal. unfold overlapping_rows.
    rewrite (filter_fmap_comm to_segment _
               (λ r, row_name r ≠ row_name row ∧ (T ≤ overlap_bp row r)%Z)).
    + rewrite <- list_fmap_compose. apply list_fmap_id.
    + intros r. by rewrite optimized_overlap_rows.
  - by rewrite <- list_fmap_compose.
  - by rewrite list_lookup_fmap, Hi.
Qed.

(** Every seed that the outer loop reaches is in a group at the end, or
    its star is too small. *)
Lemma optimized_seed_fold_tried T k segments cands groups processed :
  (∀ s, s ∈ segments → index s = row_name (data s)) →
  (∀ e, e ∈ cands → e ∈ enumerate segments) →
  (∀ z, z ∈ processed → ∃ g, g ∈ groups ∧ z ∈ row_name <$> g) →
  let final := foldl (seed_step T k segments) (groups, processed) cands in
  (∀ z, z ∈ final.2 → ∃ g, g ∈ final.1 ∧ z ∈ row_name <$> g)
  ∧ processed ⊆ final.2
  ∧ (∀ e, e ∈ cands →
       index e.2 ∈ final.2
       ∨ (Z.of_nat (length (collect T segments e.1 e.2).1) < k)%Z).
Proof.
  intros Hidx. revert groups processed.
  induction cands as [|[i segment1] cands IH]; intros groups processed Hc Hinv.
  { simpl. split; [done|]. split; [done|]. intros e []%elem_of_nil. }
  cbn [foldl seed_step].
  assert (∀ e, e ∈ cands → e ∈ enumerate segments) as Hc'.
  { intros e He. apply Hc. by right. }
  destruct (decide (index segment1 ∈ processed)) as [Hin|Hnin].
  { destruct (IH groups processed Hc' Hinv) as (H1 & H2 & H3).
    split; [done|]. split; [done|].
    intros e [->|He]%elem_of_cons; [left; by apply H2|by apply H3]. }
  cbv zeta.
  destruct (decide (k ≤ Z.of_nat (length (collect T segments i segment1).1))%Z)
    as [Hlen|Hlen].
  2:{ destruct (IH groups processed Hc' Hinv) as (H1 & H2 & H3).
      split; [done|]. split; [done|].
      intros e [->|He]%elem_of_cons; [right; simpl; lia|by apply H3]. }
  destruct (optimized_collect_shape T segments i segment1)
    as (extra & Heq & Hsub & _ & _).
  rewrite mark_processed_spec, Heq.
  match goal with |- context [foldl _ (?g, ?p) cands] =>
    destruct (IH g p Hc') as (H1 & H2 & H3) end.
  { intros z [Hz|Hz]%elem_of_union.
    - destruct (Hinv z Hz) as (g & Hg & Hzg). exists g. split; [|done].
      apply elem_of_app. by left.
    - exists (data <$> segment1 :: extra.*2). split; [set_solver|].
      apply elem_of_list_to_set in Hz.
      apply list_elem_of_fmap in Hz as (s & -> & Hs).
      rewrite Hidx.
      + apply list_elem_of_fmap. exists (data s). split; [done|].
        apply list_elem_of_fmap. by exists s.
      + apply elem_of_cons in Hs as [->|Hs].
        * assert ((i, segment1) ∈ enumerate segments) as He by (apply Hc; left).
          apply elem_of_enumerate in He. by eapply list_elem_of_lookup_2.
        * apply list_elem_of_fmap in Hs as ([j s'] & -> & He).
          eapply elem_of_sublist in He; [|exact Hsub].
          apply elem_of_enumerate in He. by eapply list_elem_of_lookup_2. }
  split; [done|]. split; [set_solver|].
  intros e [->|He]%elem_of_cons; [|by apply H3].
  left. apply H2. simpl. set_solver.
Qed.

End optimized_distinct_labels.

Lemma overlapping_rows_perm T seed rows rows' :
  rows ≡ₚ rows' →
  length (overlapping_rows T seed rows) = length (overlapping_rows T seed rows').
Proof. intros H. unfold overlapping_rows. by rewrite H. Qed.

(** X3.  On rows with distinct labels a group of the optimized engine is
    its seed followed by all the other rows of the chromosome that
    overlap the seed by at least [min_overlap_bp], in ascending order of
    start: which rows earlier groups hold plays no part. *)
Theorem optimized_group_is_the_whole_star c chr_data T k :
  NoDup (row_name <$> chr_data) →
  Forall (λ g, ∃ seed,
            seed ∈ chr_data
            ∧ g = seed :: overlapping_rows T seed (sort_by Start_Location chr_data))
         (Optimized._process_chromosome_optimized (c, chr_data, T, k)).
Proof.
  intros Hnd. unfold Optimized._process_chromosome_optimized.
  rewrite optimized_sorted_rows.
  set (sorted := sort_by Start_Location chr_data).
  assert (NoDup (row_name <$> sorted)) as Hnd'.
  { unfold sorted. by rewrite sort_by_perm. }
  destruct (optimized_seed_and_collect T k (Optimized.to_segment <$> sorted))
    as (seeds & Hsub & -> & _).
  apply Forall_fmap, Forall_forall. intros [i s1] He. simpl.
  eapply elem_of_sublist in He; [|exact Hsub].
  apply elem_of_enumerate in He. rewrite list_lookup_fmap in He.
  destruct (sorted !! i) as [row|] eqn:Hi; [|done]. injection He as <-.
  exists row. split.
  - apply list_elem_of_lookup_2 in Hi. unfold sorted in Hi.
    by rewrite sort_by_perm in Hi.
  - by apply optimized_collect_rows.
Qed.

(** X3 on three rows of one chromosome. *)
Lemma optimized_group_is_the_whole_star_witness :
  Forall (λ g, ∃ seed,
            seed ∈ [rowS; rowA; rowB]
            ∧ g = seed :: overlapping_rows 30 seed
                            (sort_by Start_Location [rowS; rowA; rowB]))
         (Optimized._process_chromosome_optimized ("1"%string, [rowS; rowA; rowB], 30, 2)%Z).
Proof.
  apply (optimized_group_is_the_whole_star "1" [rowS; rowA; rowB] 30 2).
  apply (bool_decide_unpack _). vm_compute. exact I.
Defined.

(** A row of the chromosome: its label is in a group, or its star in
    the sorted list is too small. *)
Lemma optimized_row_tried c chr_data T k row :
  NoDup (row_name <$> chr_data) → row ∈ chr_data →
  (∃ g, g ∈ Optimized._process_chromosome_optimized (c, chr_data, T, k)
        ∧ row_name row ∈ row_name <$> g)
  ∨ (1 + Z.of_nat (length (overlapping_rows T row (sort_by Start_Location chr_data)))
     < k)%Z.
Proof.
  intros Hnd Hrow.
  unfold Optimized._process_chromosome_optimized, Optimized.seed_and_collect.
  rewrite optimized_sorted_rows.
  set (sorted := sort_by Start_Location chr_data).
  set (segments := Optimized.to_segment <$> sorted).
  destruct (optimized_seed_fold_tried T k segments (enumerate segments) [] ∅)
    as (H1 & _ & H3); [| done | set_solver |].
  { intros s (r & -> & _)%list_elem_of_fmap. done. }
  assert (row ∈ sorted) as Hin by (unfold sorted; by rewrite sort_by_perm).
  apply list_elem_of_lookup in Hin as [i Hi].
  destruct (H3 (i, Optimized.to_segment row)) as [Hdone|Hsmall].
  { apply elem_of_enumerate. unfold segments. by rewrite list_lookup_fmap, Hi. }
  - left. by apply H1.
  - right. simpl in Hsmall. unfold segments in Hsmall.
    assert (NoDup (row_name <$> sorted)) as Hnd'.
    { unfold sorted. by rewrite sort_by_perm. }
    pose proof (optimized_collect_rows T sorted i row Hnd' Hi) as Heq.
    apply (f_equal length) in Heq. rewrite length_fmap in Heq.
    rewrite Heq in Hsmall. simpl in Hsmall. lia.
Qed.

(** X4.  On rows with distinct labels the optimized engine leaves no
    group out: a row of the chromosome is in a returned group, or it has
    too few rows overlapping it for a group of [min_group_size]. *)
Theorem optimized_engine_leaves_no_group_out c chr_data T k row :
  NoDup (row_name <$> chr_data) → row ∈ chr_data →
  (∃ g, g ∈ Optimized._process_chromosome_optimized (c, chr_data, T, k) ∧ row ∈ g)
  ∨ (1 + Z.of_nat (length (overlapping_rows T row chr_data)) < k)%Z.
Proof.
  intros Hnd Hrow.
  destruct (optimized_row_tried c chr_data T k row Hnd Hrow)
    as [(g & Hg & Hlabel)|Hsmall].
  - left. exists g. split; [done|].
    pose proof (optimized_groups_traced c chr_data T k) as (_ & _ & _ & Hsub & _).
    rewrite Forall_forall in Hsub.
    apply list_elem_of_fmap in Hlabel as (r & Hr & Hrg).
    by rewrite (NoDup_fmap_eq row_name chr_data row r Hnd Hrow (Hsub g Hg r Hrg) Hr).
  - right.
    rewrite (overlapping_rows_perm T row chr_data (sort_by Start_Location chr_data))
      by (by rewrite sort_by_perm).
    done.
Qed.

(** X4 on three rows, of which the third is left out. *)
Lemma optimized_engine_leaves_no_group_out_witness :
  (∃ g, g ∈ Optimized._process_chromosome_optimized
              ("1"%string, [rowX; rowY; rowLone], 3, 2)%Z ∧ rowLone ∈ g)
  ∨ (1 + Z.of_nat (length (overlapping_rows 3 rowLone [rowX; rowY; rowLone])) < 2)%Z.
Proof.
  apply (optimized_engine_leaves_no_group_out "1" [rowX; rowY; rowLone] 3 2 rowLone).
  - apply (bool_decide_unpack _). vm_compute. exact I.
  - set_solver.
Defined.

(** ** Surnames *)

Lemma split_from_blank word s :
  Forall (λ c, Str.isspace c = true) (list_ascii_of_string s) →
  Str.split_from word s = if decide (word = EmptyString) then [] else [word].
Proof.
  revert word. induction s as [|c s IH]; intros word Hs; simpl; [done|].
  simpl in Hs. apply Forall_cons in Hs as [-> Hs].
  case_decide; [by rewrite IH|]. by rewrite IH.
Qed.

Lemma split_from_word word c s :
  Str.isspace c = false → Str.split_from word (String c s) ≠ [].
Proof.
  intros Hc. simpl. rewrite Hc.
  generalize (append_not_empty word c). generalize (word +:+ String c EmptyString).
  induction s as [|c' s IH]; intros w Hw; simpl.
  - by rewrite decide_False.
  - destruct (Str.isspace c').
    + by rewrite decide_False.
    + apply IH. apply append_not_empty.
Qed.

(** A string has no word exactly when it is whitespace throughout. *)
Lemma split_nil s :
  Str.split s = [] ↔ Forall (λ c, Str.isspace c = true) (list_ascii_of_string s).
Proof.
  unfold Str.split. split.
  - induction s as [|c s IH]; [constructor|].
    destruct (Str.isspace c) eqn:Hc.
    + simpl. rewrite Hc. simpl. intros H. constructor; [done|by apply IH].
    + intros H. by apply split_from_word in H.
  - intros H. by rewrite split_from_blank.
Qed.

Lemma remove_blank old a s :
  Str.isspace a = false →
  Forall (λ c, Str.isspace c = true) (list_ascii_of_string s) →
  Str.remove (String a old) s = s.
Proof.
  intros Ha. induction s as [|c s IH]; intros Hs; [done|].
  simpl in Hs. apply Forall_cons in Hs as [Hc Hs].
  rewrite remove_no_occurrence.
  - by rewrite IH.
  - simpl. destruct (ascii_dec a c) as [->|]; [congruence|done].
Qed.

Lemma without_titles_blank s :
  Forall (λ c, Str.isspace c = true) (list_ascii_of_string s) → without_titles s = s.
Proof.
  intros Hs. unfold without_titles.
  rewrite (remove_blank "r." "M" s) by (done || reflexivity).
  rewrite (remove_blank "rs." "M" s) by (done || reflexivity).
  rewrite (remove_blank "r." "D" s) by (done || reflexivity).
  by rewrite (remove_blank "h.D." "P" s) by (done || reflexivity).
Qed.

Lemma extract_surname_tokens match_name :
  extract_surname (Some match_name)
  = if decide (match_name = EmptyString) then "Unknown"
    else default "Unknown" (last (Str.split (without_titles match_name))).
Proof.
  destruct match_name as [|c s]; [done|]. rewrite decide_False by done.
  unfold extract_surname, without_titles. rewrite split_strip.
  destruct (Str.split _) as [|t1 [|t2 tokens]]; try done.
  rewrite decide_True by (simpl; lia).
  destruct (last (t1 :: t2 :: tokens)) eqn:E; [done|]. by apply last_None in E.
Qed.

(** X5.  The surname that the engines, the reports and the database take
    from a name is never empty and holds no whitespace: it is one word
    of the name with the titles taken out, or ["Unknown"]. *)
Theorem surname_is_one_word match_name :
  extract_surname match_name ≠ EmptyString
  ∧ solid (extract_surname match_name)
  ∧ (extract_surname match_name = "Unknown"
     ∨ ∃ name, match_name = Some name
               ∧ extract_surname match_name ∈ Str.split (without_titles name)).
Proof.
  assert (solid "Unknown") as Hu by (by repeat constructor).
  destruct match_name as [name|]; [|by auto].
  rewrite extract_surname_tokens. case_decide; [by auto|].
  assert (solid "") as Hempty by constructor.
  pose proof (split_from_tokens "" (without_titles name) Hempty) as Htok.
  fold (Str.split (without_titles name)) in Htok.
  destruct (last (Str.split (without_titles name))) as [t|] eqn:E; [|by auto].
  assert (t ∈ Str.split (without_titles name)) as Hin.
  { apply last_Some in E as [l' ->]. set_solver. }
  rewrite Forall_forall in Htok. destruct (Htok t Hin) as [? ?].
  simpl. split; [done|]. split; [done|]. right. by exists name.
Qed.

Lemma browser_surname_word match_name :
  ¬ blank match_name →
  Browser.extract_surname (Some match_name)
  = Returned (default "Unknown" (last (Str.split match_name))).
Proof.
  intros Hnb. destruct match_name as [|c s]; [done|].
  unfold Browser.extract_surname.
  destruct (last (Str.split (String c s))) eqn:E; [done|].
  apply last_None in E. destruct Hnb. split; [done|]. by apply split_nil.
Qed.

Lemma browser_surname_blank match_name :
  blank match_name →
  Browser.extract_surname (Some match_name) = Raised "IndexError: list index out of range".
Proof.
  intros [Hne Hb]. destruct match_name as [|c s]; [done|].
  unfold Browser.extract_surname. apply split_nil in Hb. by rewrite Hb.
Qed.

(** X6.  The original engine's [extract_surname] takes the last word of
    the name as it stands.  It raises [IndexError] exactly on a name
    that is not empty and holds whitespace only, where the engines'
    function answers ["Unknown"]; on a name with a word and none of the
    four titles the two agree. *)
Theorem original_surname_and_the_engines match_name :
  (Browser.extract_surname (Some match_name)
     = Raised "IndexError: list index out of range" ↔ blank match_name)
  ∧ (blank match_name → extract_surname (Some match_name) = "Unknown")
  ∧ (¬ blank match_name →
     Browser.extract_surname (Some match_name)
     = Returned (default "Unknown" (last (Str.split match_name))))
  ∧ (¬ blank match_name → without_titles match_name = match_name →
     Browser.extract_surname (Some match_name)
     = Returned (extract_surname (Some match_name))).
Proof.
  split; [|split; [|split]].
  - split; [|apply browser_surname_blank].
    intros Hraise. destruct (decide (blank match_name)) as [|Hnb]; [done|].
    by rewrite browser_surname_word in Hraise.
  - intros [Hne Hb]. rewrite extract_surname_tokens, decide_False by done.
    rewrite without_titles_blank by done. apply split_nil in Hb. by rewrite Hb.
  - apply browser_surname_word.
  - intros Hnb Hsame. rewrite browser_surname_word by done.
    rewrite extract_surname_tokens, Hsame. case_decide as He; [|done]. by subst.
Qed.

(** X6 on a name of two words and no title. *)
Lemma original_surname_and_the_engines_witness :
  Browser.extract_surname (Some "Bo Young")
  = Returned (extract_surname (Some "Bo Young")).
Proof.
  apply (proj2 (proj2 (proj2 (original_surname_and_the_engines "Bo Young")))).
  - intros [_ Hb]. vm_compute in Hb. by apply Forall_cons in Hb as [? _].
  - reflexivity.
Defined.

(** ** The ranking of the reports *)

Lemma sorted_by_size_sorted {A} (groups : list (list A)) :
  StronglySorted (λ g1 g2, length g2 ≤ length g1) (Report.sorted_by_size groups).
Proof.
  unfold Report.sorted_by_size.
  pose proof (sort_by_sorted (λ group : list A, - Z.of_nat (length group))%Z groups) as H.
  induction H as [|g l Hl IH Hg]; constructor; [done|].
  eapply Forall_impl; [exact Hg|]. unfold key_le. intros g2 ?. lia.
Qed.

Lemma sorted_by_size_perm {A} (groups : list (list A)) :
  Report.sorted_by_size groups ≡ₚ groups.
Proof. apply sort_by_perm. Qed.

Lemma sorted_by_size_stable {A} (groups : list (list A)) n :
  filter (λ g, length g = n) (Report.sorted_by_size groups)
  = filter (λ g, length g = n) groups.
Proof.
  pose proof (sort_by_stable (λ group : list A, - Z.of_nat (length group))%Z
                (- Z.of_nat n)%Z groups) as H.
  unfold with_key in H.
  rewrite (list_filter_iff (λ g, length g = n)
             (λ g : list A, (- Z.of_nat (length g))%Z = (- Z.of_nat n)%Z))
    by (intros g; lia).
  rewrite (list_filter_iff (λ g, length g = n)
             (λ g : list A, (- Z.of_nat (length g))%Z = (- Z.of_nat n)%Z) groups)
    by (intros g; lia).
  exact H.
Qed.

Lemma descending_head {A} (l : list (list A)) g :
  StronglySorted (λ g1 g2, length g2 ≤ length g1) l → g ∈ l →
  length g ≤ length (default [] (head l)).
Proof.
  destruct 1 as [|g1 l _ Hg1]; [by intros ?%elem_of_nil|].
  intros [->|Hg]%elem_of_cons; simpl; [done|].
  rewrite Forall_forall in Hg1. by apply Hg1.
Qed.

Lemma descending_last {A} (l : list (list A)) g :
  StronglySorted (λ g1 g2, length g2 ≤ length g1) l → g ∈ l →
  length (default [] (last l)) ≤ length g.
Proof.
  intros Hs. revert g. induction Hs as [|g1 l Hl IH Hg1]; intros g;
    [by intros ?%elem_of_nil|].
  destruct l as [|g2 l]; [intros Hg%list_elem_of_singleton; by subst|].
  rewrite last_cons_cons.
  intros [->|Hg]%elem_of_cons; [|by apply IH].
  etrans; [apply (IH g2); left|]. rewrite Forall_forall in Hg1. apply Hg1. left.
Qed.

(** X7.  The reports rank the stored groups by size: the ranked list
    holds the same groups, no group comes before a larger one, groups of
    one size keep their stored order, and the first and the last of the
    ranking, whose sizes the summary prints as largest and smallest, are
    a largest and a smallest of the stored groups. *)
Theorem groups_are_ranked_by_size (triangulation_groups : list (list Row)) :
  let sorted_groups := Report.sorted_by_size triangulation_groups in
  sorted_groups ≡ₚ triangulation_groups
  ∧ StronglySorted (λ g1 g2, length g2 ≤ length g1) sorted_groups
  ∧ (∀ n, filter (λ g, length g = n) sorted_groups
          = filter (λ g, length g = n) triangulation_groups)
  ∧ (∀ g, g ∈ triangulation_groups →
          length (default [] (last sorted_groups)) ≤ length g
          ∧ length g ≤ length (default [] (head sorted_groups))).
Proof.
  intros sorted_groups.
  split; [apply sorted_by_size_perm|].
  split; [apply sorted_by_size_sorted|].
  split; [apply sorted_by_size_stable|].
  intros g Hg. rewrite <- (sorted_by_size_perm triangulation_groups) in Hg.
  split; [apply descending_last|apply descending_head];
    done || apply sorted_by_size_sorted.
Qed.

(** ** The families of a group *)

Section families.
Import Report.

Lemma family_append_names surname member families :
  (family_append surname member families).*1
  = if decide (surname ∈ families.*1) then families.*1 else families.*1 ++ [surname].
Proof.
  induction families as [|[name members] families IH]; csimpl.
  - done.
  - destruct (String.eqb_spec name surname) as [->|Hne]; csimpl.
    + by rewrite decide_True by left.
    + rewrite IH. destruct (decide (surname ∈ families.*1)).
      * by rewrite decide_True by (by right).
      * rewrite decide_False; [done|]. intros [?|?]%elem_of_cons; congruence.
Qed.

Lemma family_append_elem surname member families name members :
  NoDup families.*1 →
  (name, members) ∈ family_append surname member families →
  (name ≠ surname ∧ (name, members) ∈ families)
  ∨ (name = surname
     ∧ ((∃ before, (surname, before) ∈ families ∧ members = before ++ [member])
        ∨ ((surname ∉ families.*1) ∧ members = [member]))).
Proof.
  induction families as [|[name0 members0] families IH]; csimpl; intros Hnd Hin.
  - apply list_elem_of_singleton in Hin as [= -> ->]. right. split; [done|].
    right. split; [apply not_elem_of_nil|done].
  - apply NoDup_cons in Hnd as [Hfresh Hnd].
    destruct (String.eqb_spec name0 surname) as [->|Hne].
    + apply elem_of_cons in Hin as [[= -> ->]|Hin].
      * right. split; [done|]. left. exists members0. split; [left|done].
      * left. split; [|by right]. intros ->. apply Hfresh.
        apply list_elem_of_fmap. by exists (surname, members).
    + apply elem_of_cons in Hin as [[= -> ->]|Hin].
      * left. split; [done|left].
      * destruct (IH Hnd Hin) as [[? ?]|[-> [(before & ? & ->)|[? ->]]]].
        -- left. split; [done|by right].
        -- right. split; [done|]. left. exists before. split; [by right|done].
        -- right. split; [done|]. right. split; [|done].
           intros [?|?]%elem_of_cons; congruence.
Qed.

Lemma family_groups_snoc group member :
  family_groups (group ++ [member])
  = family_append (surname_of member) member (family_groups group).
Proof. unfold family_groups. by rewrite foldl_app. Qed.

Lemma unique_snoc values v :
  Painter.unique (values ++ [v])
  = if decide (v ∈ Painter.unique values) then Painter.unique values
    else Painter.unique values ++ [v].
Proof. unfold Painter.unique. by rewrite foldl_app. Qed.

Lemma family_groups_spec group :
  let families := family_groups group in
  families.*1 = Painter.unique (surname_of <$> group)
  ∧ NoDup families.*1
  ∧ (∀ member, member ∈ group → surname_of member ∈ families.*1)
  ∧ (∀ name members, (name, members) ∈ families →
       members ≠ [] ∧ members = filter (λ m, surname_of m = name) group).
Proof.
  induction group as [|member group IH] using rev_ind.
  { simpl. split; [done|]. split; [constructor|]. split.
    - by intros m ?%elem_of_nil.
    - by intros name members ?%elem_of_nil. }
  destruct IH as (Hnames & Hnd & Hcover & Hfam). cbv zeta.
  rewrite family_groups_snoc.
  assert ((family_append (surname_of member) member (family_groups group)).*1
          = Painter.unique (surname_of <$> group ++ [member])) as Hnames'.
  { rewrite family_append_names, fmap_app. cbn [fmap list_fmap].
    by rewrite unique_snoc, <- Hnames. }
  split; [done|]. split; [|split].
  - rewrite family_append_names. case_decide as Hin; [done|].
    apply NoDup_app. split; [done|]. split; [|apply NoDup_singleton].
    intros x Hx Hs%list_elem_of_singleton. by subst.
  - rewrite family_append_names.
    intros m [Hm|Hm%list_elem_of_singleton]%elem_of_app; [|subst m].
    + apply Hcover in Hm. case_decide; [done|]. apply elem_of_app. by left.
    + case_decide; [done|]. apply elem_of_app. right. left.
  - intros name members Hin. rewrite filter_app.
    apply family_append_elem in Hin as [[Hne Hin]|[-> [(before & Hin & ->)|[Hnew ->]]]];
      [| | |done].
    + destruct (Hfam _ _ Hin) as [? <-]. split; [done|].
      rewrite filter_cons_False by (simpl; congruence). by rewrite app_nil_r.
    + destruct (Hfam _ _ Hin) as [? <-]. split; [by destruct before|].
      by rewrite filter_cons_True.
    + split; [done|]. rewrite filter_cons_True by done.
      replace (filter _ group) with (@nil Row); [done|].
      symmetry.
      destruct (filter (λ m, surname_of m = surname_of member) group) as [|m ms] eqn:E;
        [done|].
      assert (m ∈ filter (λ m, surname_of m = surname_of member) group) as Hm
        by (rewrite E; left).
      apply list_elem_of_filter in Hm as [Hs Hm]. apply Hcover in Hm.
      rewrite Hs in Hm. done.
Qed.

End families.
Lemma family_append_members surname member families :
  concat (Report.family_append surname member families).*2
  ≡ₚ concat families.*2 ++ [member].
Proof.
  induction families as [|[name members] families IH]; csimpl; [done|].
  destruct (String.eqb name surname); csimpl.
  - rewrite <- !app_assoc. f_equiv. apply Permutation_app_comm.
  - by rewrite IH, app_assoc.
Qed.

Lemma family_groups_members group :
  concat (Report.family_groups group).*2 ≡ₚ group.
Proof.
  induction group as [|member group IH] using rev_ind; [done|].
  by rewrite family_groups_snoc, family_append_members, IH.
Qed.

(** X8.  The families under which a report lists a group: the surnames
    of its members in order of first appearance, each once; a family
    holds the members of that surname, in the order of the group, and is
    never empty; every member is listed once; and the report shows the
    families by size, no family before a larger one. *)
Theorem families_partition_the_group (group : list Row) :
  let families := Report.family_groups group in
  families.*1 = Painter.unique (surname_of <$> group)
  ∧ NoDup families.*1
  ∧ (∀ name members, (name, members) ∈ families →
       members ≠ [] ∧ members = filter (λ m, surname_of m = name) group)
  ∧ concat families.*2 ≡ₚ group
  ∧ Report.sorted_families families ≡ₚ families
  ∧ StronglySorted (λ f1 f2, length f2.2 ≤ length f1.2)
                   (Report.sorted_families families).
Proof.
  intros families.
  destruct (family_groups_spec group) as (Hnames & Hnd & _ & Hfam).
  split; [done|]. split; [done|]. split; [done|].
  split; [apply family_groups_members|].
  split; [apply sort_by_perm|].
  unfold Report.sorted_families.
  pose proof (sort_by_sorted (λ family : string * list Row,
                                - Z.of_nat (length family.2))%Z families) as H.
  induction H as [|f l Hl IH Hf]; constructor; [done|].
  eapply Forall_impl; [exact Hf|]. unfold key_le. intros f2 ?. lia.
Qed.

(** ** The members shown of a family *)

Section member_lines.
Import Report.




End member_lines.

(** ** The order of floats *)







(** ** The order of the members shown *)

Section members_order.
Import Report.






End members_order.



(** ** When a report fails *)

Section report_outcomes.
Import Report.

Lemma foldl_min_spec v values :
  let m := foldl Z.min v values in
  m ∈ v :: values ∧ ∀ x, x ∈ v :: values → (m ≤ x)%Z.
Proof.
  revert v. induction values as [|w values IH]; intros v; simpl.
  - split; [left|]. intros x Hx%list_elem_of_singleton. by subst.
  - destruct (IH (Z.min v w)) as [Hin Hle]. split.
    + apply elem_of_cons in Hin as [Hin|Hin]; [|by do 2 right].
      rewrite Hin. destruct (Z.min_spec v w) as [[_ ->]|[_ ->]]; [left|right; left].
    + intros x Hx.
      assert (foldl Z.min (Z.min v w) values ≤ Z.min v w)%Z as Hm by (apply Hle; left).
      apply elem_of_cons in Hx as [->|[->|Hx]%elem_of_cons]; [lia|lia|].
      apply Hle. by right.
Qed.

Lemma foldl_max_spec v values :
  let m := foldl Z.max v values in
  m ∈ v :: values ∧ ∀ x, x ∈ v :: values → (x ≤ m)%Z.
Proof.
  revert v. induction values as [|w values IH]; intros v; simpl.
  - split; [left|]. intros x Hx%list_elem_of_singleton. by subst.
  - destruct (IH (Z.max v w)) as [Hin Hle]. split.
    + apply elem_of_cons in Hin as [Hin|Hin]; [|by do 2 right].
      rewrite Hin. destruct (Z.max_spec v w) as [[_ ->]|[_ ->]]; [right; left|left].
    + intros x Hx.
      assert (Z.max v w ≤ foldl Z.max (Z.max v w) values)%Z as Hm by (apply Hle; left).
      apply elem_of_cons in Hx as [->|[->|Hx]%elem_of_cons]; [lia|lia|].
      apply Hle. by right.
Qed.

(** [min] and [max] of a list that is not empty. *)
Lemma py_min_returned values :
  values ≠ [] →
  ∃ m, py_min values = Returned m ∧ m ∈ values ∧ ∀ x, x ∈ values → (m ≤ x)%Z.
Proof.
  destruct values as [|v values]; [done|]. intros _.
  exists (foldl Z.min v values). split; [done|]. apply foldl_min_spec.
Qed.

Lemma py_max_returned values :
  values ≠ [] →
  ∃ m, py_max values = Returned m ∧ m ∈ values ∧ ∀ x, x ∈ values → (x ≤ m)%Z.
Proof.
  destruct values as [|v values]; [done|]. intros _.
  exists (foldl Z.max v values). split; [done|]. apply foldl_max_spec.
Qed.

Lemma group_heading_returned py rank seed members :
  ∃ heading, group_heading py rank (seed :: members) = Returned heading.
Proof. unfold group_heading. csimpl. by eexists. Qed.

Lemma ranked_lines_returned entry rank groups :
  (∀ r seed members, ∃ lines, entry r (seed :: members) = Returned lines) →
  [] ∉ groups →
  ∃ lines, ranked_lines entry rank groups = Returned lines.
Proof.
  intros Hentry. revert rank. induction groups as [|g groups IH]; intros rank Hne.
  { by eexists. }
  destruct g as [|seed members]; [destruct Hne; left|].
  cbn [ranked_lines]. destruct (Hentry rank seed members) as [lines ->].
  destruct (IH (S rank)) as [rest ->]; [|by eexists].
  intros Hin. apply Hne. by right.
Qed.

Lemma ranked_lines_raised entry rank groups e :
  (∀ r seed members, ∃ lines, entry r (seed :: members) = Returned lines) →
  (∀ r, entry r [] = Raised e) →
  [] ∈ groups →
  ranked_lines entry rank groups = Raised e.
Proof.
  intros Hentry Hempty. revert rank.
  induction groups as [|g groups IH]; intros rank Hin; [by apply elem_of_nil in Hin|].
  destruct g as [|seed members]; cbn [ranked_lines]; [by rewrite Hempty|].
  destruct (Hentry rank seed members) as [lines ->].
  apply elem_of_cons in Hin as [|Hin]; [done|]. cbn [bind].
  by rewrite (IH (S rank) Hin).
Qed.

Lemma numbered_returned {A B} (body : nat → list A → outcome (list B)) number groups :
  (∀ r seed members, ∃ records, body r (seed :: members) = Returned records) →
  [] ∉ groups →
  ∃ records, numbered body number groups = Returned records.
Proof.
  intros Hbody. revert number. induction groups as [|g groups IH]; intros number Hne.
  { by eexists. }
  destruct g as [|seed members]; [destruct Hne; left|].
  cbn [numbered]. destruct (Hbody number seed members) as [records ->].
  destruct (IH (S number)) as [rest ->]; [|by eexists].
  intros Hin. apply Hne. by right.
Qed.

Lemma numbered_raised {A B} (body : nat → list A → outcome (list B)) number groups e :
  (∀ r seed members, ∃ records, body r (seed :: members) = Returned records) →
  (∀ r, body r [] = Raised e) →
  [] ∈ groups →
  numbered body number groups = Raised e.
Proof.
  intros Hbody Hempty. revert number.
  induction groups as [|g groups IH]; intros number Hin; [by apply elem_of_nil in Hin|].
  destruct g as [|seed members]; cbn [numbered]; [by rewrite Hempty|].
  destruct (Hbody number seed members) as [records ->].
  apply elem_of_cons in Hin as [|Hin]; [done|]. cbn [bind].
  by rewrite (IH (S number) Hin).
Qed.

Lemma count_append_not_nil surname counts : QuickList.count_append surname counts ≠ [].
Proof.
  destruct counts as [|[name n] counts]; simpl; [done|].
  by destruct (String.eqb name surname).
Qed.

Lemma family_counts_not_nil seed members : QuickList.family_counts (seed :: members) ≠ [].
Proof.
  unfold QuickList.family_counts.
  induction members as [|member members IH] using rev_ind.
  - done.
  - rewrite app_comm_cons, foldl_app. apply count_append_not_nil.
Qed.

Lemma quick_line_returned py qf rank seed members :
  ∃ lines, QuickList.group_line py qf rank (seed :: members) = Returned lines.
Proof.
  unfold QuickList.group_line. cbn [first_chromosome bind].
  csimpl. unfold QuickList.max_by_count.
  pose proof (family_counts_not_nil seed members) as Hne.
  destruct (QuickList.family_counts (seed :: members)); [done|]. by eexists.
Qed.

Lemma sorted_by_size_empty (groups : list (list Row)) :
  [] ∈ sorted_by_size groups ↔ [] ∈ groups.
Proof. by rewrite sorted_by_size_perm. Qed.

End report_outcomes.

Lemma group_lines_returned py :
  (∀ r seed members, ∃ lines,
     OptimizedReport.group_lines py r (seed :: members) = Returned lines)
  ∧ (∀ r seed members, ∃ lines,
       SimpleReport.group_lines py r (seed :: members) = Returned lines).
Proof.
  split; intros r seed members;
    unfold OptimizedReport.group_lines, SimpleReport.group_lines;
    destruct (group_heading_returned py r seed members) as [heading ->]; by eexists.
Qed.

Lemma reports_returned py qf triangulation_groups min_cm_filter :
  [] ∉ triangulation_groups →
  (∃ text, OptimizedReport.create_triangulation_report_by_size
             py triangulation_groups min_cm_filter = Returned text)
  ∧ (∃ text, SimpleReport.create_triangulation_report_by_size
               py triangulation_groups min_cm_filter = Returned text)
  ∧ ∃ text, QuickList.create_simple_group_list py qf triangulation_groups
            = Returned text.
Proof.
  destruct (group_lines_returned py) as [Hopt Hsim].
  pose proof (quick_line_returned py qf) as Hquick.
  intros Hne.
  unfold OptimizedReport.create_triangulation_report_by_size,
    SimpleReport.create_triangulation_report_by_size,
    QuickList.create_simple_group_list.
  destruct triangulation_groups as [|g groups]; [by repeat split; eexists|].
  rewrite <- sorted_by_size_empty in Hne.
  unfold OptimizedReport.report_lines, SimpleReport.report_lines,
    QuickList.report_lines. cbv zeta.
  destruct (ranked_lines_returned (OptimizedReport.group_lines py) 1 _ Hopt Hne)
    as [lines1 ->].
  destruct (ranked_lines_returned (SimpleReport.group_lines py) 1 _ Hsim Hne)
    as [lines2 ->].
  destruct (numbered_returned (QuickList.group_line py qf) 1 _ Hquick Hne)
    as [lines3 ->].
  repeat split; by eexists.
Qed.

(** X10.  A report fails on a stored list exactly when one of the stored
    groups is empty: the two reports by size then raise the [ValueError]
    of [min], the quick summary the [IndexError] of [group[0]], whatever
    else is stored; with no empty group all three return a text. *)
Theorem reports_fail_on_an_empty_group_only py qf triangulation_groups min_cm_filter :
  ([] ∈ triangulation_groups →
   OptimizedReport.create_triangulation_report_by_size py triangulation_groups min_cm_filter
     = Raised "ValueError: min() arg is an empty sequence"
   ∧ SimpleReport.create_triangulation_report_by_size py triangulation_groups min_cm_filter
     = Raised "ValueError: min() arg is an empty sequence"
   ∧ QuickList.create_simple_group_list py qf triangulation_groups
     = Raised "IndexError: list index out of range")
  ∧ ([] ∉ triangulation_groups →
     (∃ text, OptimizedReport.create_triangulation_report_by_size
                py triangulation_groups min_cm_filter = Returned text)
     ∧ (∃ text, SimpleReport.create_triangulation_report_by_size
                  py triangulation_groups min_cm_filter = Returned text)
     ∧ ∃ text, QuickList.create_simple_group_list py qf triangulation_groups
               = Returned text).
Proof.
  split; [|apply reports_returned].
  destruct (group_lines_returned py) as [Hopt Hsim].
  pose proof (quick_line_returned py qf) as Hquick.
  intros Hin.
  unfold OptimizedReport.create_triangulation_report_by_size,
    SimpleReport.create_triangulation_report_by_size,
    QuickList.create_simple_group_list.
  destruct triangulation_groups as [|g groups]; [by apply elem_of_nil in Hin|].
  apply sorted_by_size_empty in Hin.
  unfold OptimizedReport.report_lines, SimpleReport.report_lines,
    QuickList.report_lines. cbv zeta.
  rewrite (ranked_lines_raised (OptimizedReport.group_lines py) 1 _ _ Hopt) by done.
  rewrite (ranked_lines_raised (SimpleReport.group_lines py) 1 _ _ Hsim) by done.
  by rewrite (numbered_raised (QuickList.group_line py qf) 1 _ _ Hquick) by done.
Qed.

Lemma star_not_empty T groups : Forall (star T) groups → [] ∉ groups.
Proof.
  intros Hall Hin. rewrite Forall_forall in Hall.
  by destruct (Hall _ Hin) as (seed & members & ? & _).
Qed.

(** X11.  The groups of a run can always be reported: no group that an
    engine returns is empty, so the report by size and the quick summary
    of the optimized engine and the report of the simple engine return a
    text, whatever the thresholds. *)
Theorem a_run_can_always_be_reported py qf cpu schedule data T k w min_cm_filter :
  Scheduler.possible_run cpu schedule data T k w →
  (∃ groups text summary,
     Scheduler.detect_triangulation_groups_optimized cpu schedule data T k w
       = Returned groups
     ∧ OptimizedReport.create_triangulation_report_by_size py groups min_cm_filter
       = Returned text
     ∧ QuickList.create_simple_group_list py qf groups = Returned summary)
  ∧ ∃ text,
      SimpleReport.create_triangulation_report_by_size py
        (Scheduler.detect_triangulation_simple data T k) min_cm_filter
      = Returned text.
Proof.
  intros Hrun. split.
  - assert ([] ∉ concat (Optimized._process_chromosome_optimized
                         <$> Scheduler.args_list data T k)) as Hne.
    { apply (star_not_empty T), (optimized_detect_groups star).
      intros c chr_data. by destruct (optimized_groups_traced c chr_data T k) as (? & _). }
    destruct (reports_returned py qf _ min_cm_filter Hne)
      as ([text Ht] & _ & [summary Hs]).
    eexists _, text, summary. split; [by apply detect_optimized_returned|done].
  - assert ([] ∉ Scheduler.detect_triangulation_simple data T k) as Hne.
    { apply (star_not_empty T), simple_detect_groups.
      intros chr_data. by destruct (simple_groups_traced chr_data T k) as (? & _). }
    by destruct (reports_returned py qf _ min_cm_filter Hne)
      as (_ & ? & _).
Qed.

(** ** The quick summary *)

Section quick_summary.
Import Report QuickList.

Lemma count_append_families surname member families :
  count_append surname (family_size <$> families)
  = family_size <$> family_append surname member families.
Proof.
  induction families as [|[name members] families IH]; csimpl; [done|].
  unfold family_size at 1. simpl. destruct (String.eqb name surname); csimpl.
  - unfold family_size. simpl. rewrite length_app. simpl.
    by rewrite Nat.add_1_r.
  - by rewrite IH.
Qed.

(** The counts of the quick summary are the sizes of the families of
    the reports by size. *)
Lemma family_counts_sizes group :
  family_counts group = family_size <$> family_groups group.
Proof.
  induction group as [|member group IH] using rev_ind; [done|].
  rewrite family_groups_snoc, <- count_append_families, <- IH.
  unfold family_counts. by rewrite foldl_app.
Qed.

Lemma one_family seed members :
  length (family_groups (seed :: members)) = 1
  ↔ Forall (λ m, surname_of m = surname_of seed) members.
Proof.
  destruct (family_groups_spec (seed :: members)) as (Hnames & Hnd & Hcover & Hfam).
  cbv zeta in *. split.
  - intros Hone.
    destruct (family_groups (seed :: members)) as [|[name ms] [|??]]; try done.
    apply Forall_forall. intros m Hm. csimpl in Hcover.
    assert (surname_of m = name) as ->.
    { apply list_elem_of_singleton, Hcover. by right. }
    symmetry. apply list_elem_of_singleton, Hcover. left.
  - intros Hall.
    assert (family_groups (seed :: members) ≠ []) as Hne.
    { intros Hnil. specialize (Hcover seed). rewrite Hnil in Hcover.
      eapply not_elem_of_nil, Hcover. left. }
    destruct (family_groups (seed :: members)) as [|[n1 ms1] [|[n2 ms2] rest]];
      [done|done|].
    exfalso. csimpl in Hnd.
    assert (∀ name ms, (name, ms) ∈ (n1, ms1) :: (n2, ms2) :: rest →
              name = surname_of seed) as Hsame.
    { intros name ms Hin. destruct (Hfam name ms Hin) as [Hms Heq].
      destruct ms as [|m ms']; [done|].
      assert (m ∈ filter (λ m, surname_of m = name) (seed :: members)) as Hm
        by (rewrite <- Heq; left).
      apply list_elem_of_filter in Hm as [<- Hm].
      apply elem_of_cons in Hm as [->|Hm]; [done|].
      rewrite Forall_forall in Hall. by apply Hall. }
    apply NoDup_cons in Hnd as [Hfresh _]. apply Hfresh.
    rewrite (Hsame n1 ms1) by left. rewrite (Hsame n2 ms2) by (right; left). left.
Qed.

Lemma the_one_family seed members :
  Forall (λ m, surname_of m = surname_of seed) members →
  family_groups (seed :: members) = [(surname_of seed, seed :: members)].
Proof.
  intros Hall. pose proof (proj2 (one_family seed members) Hall) as Hone.
  destruct (family_groups_spec (seed :: members)) as (_ & _ & Hcover & Hfam).
  cbv zeta in *.
  destruct (family_groups (seed :: members)) as [|[name ms] [|??]]; try done.
  assert (name = surname_of seed) as ->.
  { symmetry. apply list_elem_of_singleton, Hcover. left. }
  destruct (Hfam (surname_of seed) ms) as [_ ->]; [left|].
  do 2 f_equal. rewrite filter_cons_True by done. f_equal.
  clear -Hall. induction Hall as [|m members Hm _ IH]; [done|].
  by rewrite filter_cons_True, IH.
Qed.

End quick_summary.

(** X12.  A line of the quick summary ends with the family of the group:
    when all members have the surname of the first one, that surname
    and the size of the group; otherwise the word [Mixed] and the number
    of different surnames.  The span it prints goes from the least start
    to the greatest end among the members. *)
Theorem quick_summary_names_the_family py qf rank seed members :
  let group := seed :: members in
  let family_mix :=
    if decide (Forall (λ m, surname_of m = surname_of seed) members)
    then surname_of seed +:+ " (" +:+ fmt_int py (Z.of_nat (length group)) +:+ ")"
    else "Mixed: "
         +:+ fmt_int py (Z.of_nat (length (Painter.unique (surname_of <$> group))))
         +:+ " families" in
  ∃ min_start max_end,
    (∃ m, m ∈ group ∧ Start_Location m = min_start)
    ∧ (∃ m, m ∈ group ∧ End_Location m = max_end)
    ∧ Forall (λ m, (min_start ≤ Start_Location m)%Z ∧ (End_Location m ≤ max_end)%Z) group
    ∧ QuickList.group_line py qf rank group
      = Returned
          [ fmt_int_2 qf (Z.of_nat rank) +:+ ". "
              +:+ fmt_int_3 qf (Z.of_nat (length group))
              +:+ " people | Chr " +:+ QuickList.fmt_str_2 (Chromosome seed) +:+ " | "
              +:+ fmt_float_5_1 qf (truediv_int py (max_end - min_start) 1000000)
              +:+ " Mb | " +:+ family_mix ].
Proof.
  intros group family_mix.
  destruct (py_min_returned (Start_Location <$> group)) as (min_start & Hmin & Hmin_in & Hmin_le);
    [done|].
  destruct (py_max_returned (End_Location <$> group)) as (max_end & Hmax & Hmax_in & Hmax_le);
    [done|].
  exists min_start, max_end. split; [|split; [|split]].
  - apply list_elem_of_fmap in Hmin_in as (m & -> & ?). by exists m.
  - apply list_elem_of_fmap in Hmax_in as (m & -> & ?). by exists m.
  - apply Forall_forall. intros m Hm. split.
    + apply Hmin_le, list_elem_of_fmap. by exists m.
    + apply Hmax_le, list_elem_of_fmap. by exists m.
  - unfold QuickList.group_line. fold group. rewrite Hmin, Hmax.
    cbn [Report.first_chromosome bind group]. fold group.
    rewrite family_counts_sizes. unfold family_mix.
    destruct (decide (Forall (λ m, surname_of m = surname_of seed) members)) as [Hall|Hmix].
    + subst group. rewrite the_one_family by done. by csimpl.
    + assert (length (Report.family_groups group) ≠ 1) as Hne.
      { intros Hone. by apply one_family in Hone. }
      destruct (family_groups_spec group) as (Hnames & _).
      cbv zeta in Hnames.
      unfold QuickList.max_by_count.
      destruct (Report.family_groups group) as [|f families] eqn:E.
      { exfalso. pose proof (family_counts_not_nil seed members) as Hnil.
        rewrite family_counts_sizes in Hnil. fold group in Hnil. by rewrite E in Hnil. }
      cbn [fmap list_fmap bind]. rewrite decide_False.
      2:{ rewrite <- (fmap_cons family_size), length_fmap. done. }
      unfold Report.size_text.
      rewrite <- (fmap_cons family_size), length_fmap.
      rewrite <- Hnames, length_fmap. done.
Qed.

(** ** The exports *)

(** X11 on the sample data. *)
Lemma a_run_can_always_be_reported_witness :
  (∃ groups text summary,
     Scheduler.detect_triangulation_groups_optimized 2 [2; 0; 1] sample_data 3 2 (Some 1)
       = Returned groups
     ∧ OptimizedReport.create_triangulation_report_by_size sample_runtime groups (Some 7%float)
       = Returned text
     ∧ QuickList.create_simple_group_list sample_runtime sample_format groups
       = Returned summary)
  ∧ ∃ text,
      SimpleReport.create_triangulation_report_by_size sample_runtime
        (Scheduler.detect_triangulation_simple sample_data 3 2) (Some 7%float)
      = Returned text.
Proof.
  exact (a_run_can_always_be_reported sample_runtime sample_format 2 [2; 0; 1]
           sample_data 3 2 (Some 1) (Some 7%float) sample_run_possible).
Defined.

Lemma returned_inj {A} (x y : A) : Returned x = Returned y → x = y.
Proof. by intros [= ->]. Qed.

Section exports.
Import OptimizedExport.

(** The records of a numbered run of groups: each carries the number and
    the span of its group and one member, and the records of one number
    are as many as the group has members. *)
Lemma export_records py round_2 number groups records :
  numbered (group_records py round_2) number groups = Returned records →
  OptimizedCsv.Match_Name <$> records = Match_Name <$> concat groups
  ∧ Forall (λ r, (Z.of_nat number ≤ OptimizedCsv.Group_ID r
                  < Z.of_nat (number + length groups))%Z
                 ∧ (OptimizedCsv.Group_Start r ≤ OptimizedCsv.Start_Location r)%Z
                 ∧ (OptimizedCsv.End_Location r ≤ OptimizedCsv.Group_End r)%Z
                 ∧ OptimizedCsv.Surname r
                   = extract_surname (Some (OptimizedCsv.Match_Name r))) records
  ∧ (∀ i group, groups !! i = Some group →
       Forall (λ r, OptimizedCsv.Group_Size r = Z.of_nat (length group))
              (filter (λ r, OptimizedCsv.Group_ID r = Z.of_nat (number + i)) records)
       ∧ length (filter (λ r, OptimizedCsv.Group_ID r = Z.of_nat (number + i)) records)
         = length group).
Proof.
  revert number records. induction groups as [|group groups IH]; intros number records.
  { intros [= <-]. split; [done|]. split; [constructor|]. by intros i g ?. }
  cbn [numbered]. unfold group_records at 1.
  destruct group as [|seed members]; [done|].
  destruct (py_min_returned (Start_Location <$> seed :: members))
    as (min_start & -> & _ & Hmin); [done|].
  destruct (py_max_returned (End_Location <$> seed :: members))
    as (max_end & -> & _ & Hmax); [done|].
  cbn [bind].
  destruct (numbered (group_records py round_2) (S number) groups) as [rest|e] eqn:Hrest;
    [|done].
  cbn [bind]. intros <-%returned_inj.
  destruct (IH (S number) rest Hrest) as (Hnames & Hall & Hsize).
  set (record := λ member : Row, OptimizedCsv.mkRecord _ _ _ _ _ _ _ _ _ _ _ _).
  assert (Forall (λ r, OptimizedCsv.Group_ID r = Z.of_nat number
                       ∧ OptimizedCsv.Group_Size r = Z.of_nat (length (seed :: members)))
                 (record <$> seed :: members)) as Hblock.
  { apply Forall_fmap, Forall_forall. by intros m _. }
  assert (Forall (λ r, OptimizedCsv.Group_ID r ≠ Z.of_nat number) rest) as Hrest_ids.
  { eapply Forall_impl; [exact Hall|]. simpl. intros r [? _]. lia. }
  split; [|split].
  - rewrite fmap_app, Hnames. cbn [concat]. rewrite fmap_app. f_equal.
    rewrite <- list_fmap_compose. done.
  - apply Forall_app. split.
    + apply Forall_fmap, Forall_forall. intros m Hm. simpl. split; [lia|].
      split; [|split; [|done]].
      * apply Hmin, list_elem_of_fmap. by exists m.
      * apply Hmax, list_elem_of_fmap. by exists m.
    + eapply Forall_impl; [exact Hall|]. simpl. intros r (? & ? & ? & ?).
      split; [lia|done].
  - intros i g Hi. rewrite filter_app. destruct i as [|i]; simpl in Hi.
    + injection Hi as <-. rewrite Nat.add_0_r.
      replace (filter _ rest) with (@nil OptimizedCsv.record).
      2:{ symmetry. clear -Hrest_ids.
          induction Hrest_ids as [|r rest Hr _ IHr]; [done|].
          by rewrite filter_cons_False. }
      rewrite app_nil_r.
      replace (filter _ (record <$> seed :: members)) with (record <$> seed :: members).
      2:{ symmetry. clear -Hblock.
          induction Hblock as [|r block [Hr _] _ IHb]; [done|].
          by rewrite filter_cons_True, IHb. }
      split; [|by rewrite length_fmap].
      eapply Forall_impl; [exact Hblock|]. by intros r [_ ?].
    + replace (number + S i) with (S number + i) by lia.
      replace (filter _ (record <$> seed :: members)) with (@nil OptimizedCsv.record).
      2:{ symmetry. clear -Hblock.
          induction Hblock as [|r block [Hr _] _ IHb]; [done|].
          rewrite filter_cons_False; [done|]. rewrite Hr. lia. }
      by apply Hsize.
Qed.

End exports.

(** X13.  The export of the optimized engine writes one record per
    member of every group, in order; a record's group number runs from 1
    in the order of the stored list, its group span covers its member,
    its surname is the one of the reports, and its group size is the
    number of records with its group number.  The export raises the
    [ValueError] of [min] when a stored group is empty, and returns the
    number of records otherwise. *)
Theorem export_has_one_record_per_member py round_2 triangulation_groups :
  ([] ∈ triangulation_groups →
   OptimizedExport.export_optimized_results py round_2 triangulation_groups
   = Raised "ValueError: min() arg is an empty sequence")
  ∧ (triangulation_groups ≠ [] → [] ∉ triangulation_groups →
     ∃ export_data,
       OptimizedExport.export_data py round_2 triangulation_groups = Returned export_data
       ∧ OptimizedExport.export_optimized_results py round_2 triangulation_groups
         = Returned (Some (length (concat triangulation_groups)))
       ∧ OptimizedCsv.Match_Name <$> export_data
         = Match_Name <$> concat triangulation_groups
       ∧ Forall (λ r,
                   (1 ≤ OptimizedCsv.Group_ID r
                    ≤ Z.of_nat (length triangulation_groups))%Z
                   ∧ (OptimizedCsv.Group_Start r ≤ OptimizedCsv.Start_Location r)%Z
                   ∧ (OptimizedCsv.End_Location r ≤ OptimizedCsv.Group_End r)%Z
                   ∧ OptimizedCsv.Surname r
                     = extract_surname (Some (OptimizedCsv.Match_Name r))
                   ∧ OptimizedCsv.Group_Size r
                     = Z.of_nat (length (filter
                         (λ r', OptimizedCsv.Group_ID r' = OptimizedCsv.Group_ID r)
                         export_data)))
                export_data).
Proof.
  assert (∀ r seed members, ∃ records,
            OptimizedExport.group_records py round_2 r (seed :: members)
            = Returned records) as Hbody.
  { intros r seed members. unfold OptimizedExport.group_records.
    destruct (py_min_returned (Start_Location <$> seed :: members))
      as (min_start & -> & _); [done|].
    destruct (py_max_returned (End_Location <$> seed :: members))
      as (max_end & -> & _); [done|].
    by eexists. }
  split.
  - intros Hin. unfold OptimizedExport.export_optimized_results.
    destruct triangulation_groups as [|g groups]; [by apply elem_of_nil in Hin|].
    unfold OptimizedExport.export_data.
    by rewrite (numbered_raised _ 1 _ _ Hbody) by done.
  - intros Hsome Hne.
    destruct (numbered_returned _ 1 _ Hbody Hne) as [records Hrecords].
    destruct (export_records py round_2 1 _ _ Hrecords) as (Hnames & Hall & Hsize).
    exists records. split; [done|]. split; [|split; [done|]].
    + unfold OptimizedExport.export_optimized_results, OptimizedExport.export_data.
      destruct triangulation_groups; [done|]. rewrite Hrecords. cbn [bind].
      do 2 f_equal. apply (f_equal length) in Hnames. by rewrite !length_fmap in Hnames.
    + apply Forall_forall. intros r Hr. rewrite Forall_forall in Hall.
      destruct (Hall r Hr) as (Hid & Hstart & Hend & Hsur).
      split; [lia|]. split; [done|]. split; [done|]. split; [done|].
      destruct (lookup_lt_is_Some_2 triangulation_groups
                  (Z.to_nat (OptimizedCsv.Group_ID r) - 1)) as [g Hg]; [lia|].
      destruct (Hsize _ g Hg) as [Hg_size Hg_len].
      replace (Z.of_nat (1 + (Z.to_nat (OptimizedCsv.Group_ID r) - 1)))
        with (OptimizedCsv.Group_ID r) in * by lia.
      rewrite Hg_len. rewrite Forall_forall in Hg_size. apply Hg_size.
      by apply list_elem_of_filter.
Qed.

(** X13 on one group of two. *)
Lemma export_has_one_record_per_member_witness :
  ∃ export_data,
    OptimizedExport.export_data sample_runtime (λ x, x) [[rowX; rowY]]
      = Returned export_data
    ∧ OptimizedExport.export_optimized_results sample_runtime (λ x, x) [[rowX; rowY]]
      = Returned (Some 2)
    ∧ OptimizedCsv.Match_Name <$> export_data = ["Ann Xu"; "Bo Young"]%string.
Proof.
  destruct (proj2 (export_has_one_record_per_member sample_runtime (λ x, x) [[rowX; rowY]]))
    as (export_data & H1 & H2 & H3 & _).
  - done.
  - by intros [[=]|[]%elem_of_nil]%elem_of_cons.
  - by exists export_data.
Defined.
Section original_export.
Import Browser.

Lemma original_group_records group_id group :
  (Exists (λ m, blank (Match_Name m)) group →
   map_raising (member_record group_id) group
   = Raised "IndexError: list index out of range")
  ∧ (Forall (λ m, ¬ blank (Match_Name m)) group →
     ∃ records,
       map_raising (member_record group_id) group = Returned records
       ∧ PainterCsv.Match_Name <$> records = Match_Name <$> group
       ∧ Forall (λ r, PainterCsv.Group_ID r = Z.of_nat group_id
                      ∧ PainterCsv.Surname r
                        = default "Unknown"
                            (last (Str.split (PainterCsv.Match_Name r)))) records).
Proof.
  induction group as [|m group [IHx IHa]].
  { split; [by intros ?%Exists_nil|]. intros _. exists []. by repeat constructor. }
  cbn [map_raising]. unfold member_record at 1 3.
  destruct (decide (blank (Match_Name m))) as [Hb|Hnb].
  - rewrite browser_surname_blank by done. split; [done|].
    by intros [? _]%Forall_cons.
  - rewrite browser_surname_word by done. cbn [bind]. split.
    + intros [?|Hx]%Exists_cons; [done|]. by rewrite IHx.
    + intros [_ Ha]%Forall_cons. destruct (IHa Ha) as (records & -> & Hnames & Hall).
      eexists. split; [done|]. csimpl. split; [by rewrite Hnames|].
      by constructor.
Qed.

Lemma original_export_records number groups :
  (Exists (λ m, blank (Match_Name m)) (concat groups) →
   numbered (λ group_id group, map_raising (member_record group_id) group) number groups
   = Raised "IndexError: list index out of range")
  ∧ (Forall (λ m, ¬ blank (Match_Name m)) (concat groups) →
     ∃ records,
       numbered (λ group_id group, map_raising (member_record group_id) group)
         number groups = Returned records
       ∧ PainterCsv.Match_Name <$> records = Match_Name <$> concat groups
       ∧ Forall (λ r, (Z.of_nat number ≤ PainterCsv.Group_ID r
                       < Z.of_nat (number + length groups))%Z
                      ∧ PainterCsv.Surname r
                        = default "Unknown"
                            (last (Str.split (PainterCsv.Match_Name r)))) records).
Proof.
  revert number. induction groups as [|group groups IH]; intros number.
  { split; [by intros ?%Exists_nil|]. intros _. exists []. by repeat constructor. }
  destruct (IH (S number)) as [IHx IHa].
  destruct (original_group_records number group) as [Hx Ha].
  cbn [numbered concat]. split.
  - intros [Hb|Hb]%Exists_app.
    + by rewrite Hx.
    + destruct (decide (Exists (λ m, blank (Match_Name m)) group)) as [Hg|Hg].
      * by rewrite Hx.
      * apply not_Exists_Forall in Hg; [|apply _].
        destruct (Ha Hg) as (records & -> & _). cbn [bind]. by rewrite IHx.
  - intros [Hg Hrest]%Forall_app.
    destruct (Ha Hg) as (records & -> & Hnames & Hall).
    destruct (IHa Hrest) as (rest & -> & Hnames' & Hall').
    eexists. split; [done|]. split.
    + by rewrite !fmap_app, Hnames, Hnames'.
    + apply Forall_app. split.
      * eapply Forall_impl; [exact Hall|]. simpl. intros r [-> ?].
        split; [lia|done].
      * eapply Forall_impl; [exact Hall'|]. simpl. intros r [? ?].
        split; [lia|done].
Qed.

End original_export.

(** X14.  The export of the original engine writes one record per member
    of every group, in order, with the group's number and, as surname,
    the last word of the name.  One member whose name is whitespace only
    makes it raise [IndexError], and nothing is written. *)
Theorem original_export_fails_on_a_blank_name (triangulation_groups : list (list Row)) :
  triangulation_groups ≠ [] →
  (Exists (λ m, blank (Match_Name m)) (concat triangulation_groups) →
   Browser.export_triangulation_csv triangulation_groups
   = Raised "IndexError: list index out of range")
  ∧ (Forall (λ m, ¬ blank (Match_Name m)) (concat triangulation_groups) →
     ∃ export_data,
       Browser.export_triangulation_csv triangulation_groups
       = Returned (Some export_data)
       ∧ PainterCsv.Match_Name <$> export_data
         = Match_Name <$> concat triangulation_groups
       ∧ Forall (λ r, (1 ≤ PainterCsv.Group_ID r
                       ≤ Z.of_nat (length triangulation_groups))%Z
                      ∧ PainterCsv.Surname r
                        = default "Unknown"
                            (last (Str.split (PainterCsv.Match_Name r))))
                export_data).
Proof.
  intros Hsome. unfold Browser.export_triangulation_csv.
  destruct (original_export_records 1 triangulation_groups) as [Hx Ha].
  destruct triangulation_groups as [|g groups]; [done|]. split.
  - intros Hb. by rewrite Hx.
  - intros Hnb. destruct (Ha Hnb) as (records & -> & Hnames & Hall).
    exists records. split; [done|]. split; [done|].
    eapply Forall_impl; [exact Hall|]. simpl. intros r [? ?]. split; [lia|done].
Qed.

(** X14 on a group with a name of two blanks. *)
Lemma original_export_fails_on_a_blank_name_witness :
  Browser.export_triangulation_csv [[rowX; rowBlank]]
  = Raised "IndexError: list index out of range".
Proof.
  apply (original_export_fails_on_a_blank_name [[rowX; rowBlank]]); [done|].
  apply Exists_cons_tl, Exists_cons_hd. split; [done|]. vm_compute.
  by repeat constructor.
Defined.

(** ** The database *)

Section database.

(** [extract_surname] of the engines, which that of the database applies
    to a name. *)
Local Abbreviation engine_surname := extract_surname (only parsing).

Import Database.

Lemma count_existing_zero name chrom start end_ table :
  count_existing (Some name) chrom start end_ table = 0
  ↔ (name, chrom, start, end_) ∉ key <$> table.
Proof.
  unfold count_existing. induction table as [|s table IH]; csimpl.
  - split; [intros _; apply not_elem_of_nil|done].
  - rewrite filter_cons, not_elem_of_cons.
    destruct (decide (same_segment (Some name) chrom start end_ s)) as [Hs|Hs].
    + split; [done|]. intros [Hne _]. destruct Hs as ([= ->] & <- & <- & <-). done.
    + rewrite IH. split; [|tauto]. intros ?. split; [|done].
      intros Hk. apply Hs. unfold key in Hk. by injection Hk as -> -> -> ->.
Qed.

Lemma count_existing_nameless chrom start end_ table :
  count_existing None chrom start end_ table = 0.
Proof.
  unfold count_existing. induction table as [|s table IH]; [done|].
  rewrite filter_cons. destruct (decide _) as [[[=] _]|_]. done.
Qed.

(** A row with a key: the lookup is made. *)
Lemma row_key_cells row k :
  row_key row = Some k →
  ∃ name start end_,
    Match_Name row = Some name ∧ Start_Location row = Some start
    ∧ End_Location row = Some end_
    ∧ sqlite_integer start ∧ sqlite_integer end_
    ∧ k = (name, py_str (Chromosome row), start, end_).
Proof.
  unfold row_key.
  destruct (Match_Name row) as [name|], (Start_Location row) as [start|],
           (End_Location row) as [end_|]; try done.
  case_decide as Hr; [|done]. intros [= <-]. destruct Hr. by exists name, start, end_.
Qed.

(** One turn of the loop that does not raise. *)
Lemma import_row_returned source now table sequence imported duplicates row st :
  import_row source now (table, sequence, imported, duplicates) row = Returned st →
  ∃ k, row_key row = Some k
       ∧ ((k ∈ key <$> table ∧ st = (table, sequence, imported, S duplicates))
          ∨ ((k ∉ key <$> table)
             ∧ ∃ s, key s = k
                    ∧ id s = (sequence + 1)%Z
                    ∧ source_file s = Some source
                    ∧ import_date s = now
                    ∧ assigned_family s
                      = Some (engine_surname (Some (match_name s)))
                    ∧ centimorgans s = Centimorgans row
                    ∧ PrimFloat.is_nan (centimorgans s) = false
                    ∧ Matching_SNPs row = Some (matching_snps s)
                    ∧ st = (table ++ [s], (sequence + 1)%Z, S imported, duplicates))).
Proof.
  unfold import_row, row_key, py_int, bind_int.
  destruct (Start_Location row) as [start|]; [|by destruct (Match_Name row)].
  destruct (End_Location row) as [end_|]; [|by destruct (Match_Name row)].
  cbn [bind].
  destruct (decide (sqlite_integer start)) as [Hstart|Hstart]; cbn [bind].
  2:{ destruct (Match_Name row); [|done]. intros [=]. }
  destruct (decide (sqlite_integer end_)) as [Hend|Hend]; cbn [bind].
  2:{ destruct (Match_Name row); [|done]. intros [=]. }
  destruct (Match_Name row) as [name|].
  2:{ rewrite count_existing_nameless. rewrite decide_True by done. done. }
  rewrite (decide_True (P := sqlite_integer start ∧ sqlite_integer end_)) by done.
  destruct (decide (count_existing _ _ _ _ table = 0)) as [Hnew|Hold].
  - apply count_existing_zero in Hnew. cbn [extract_surname bind].
    destruct (Matching_SNPs row) as [snps|]; [|done]. cbn [bind].
    case_decide; [|done]. cbn [bind insert_segment].
    destruct (PrimFloat.is_nan (Centimorgans row)) eqn:Hnan; [done|].
    cbn [bind fst snd]. intros [= <-]. eexists. split; [done|]. right.
    split; [done|]. eexists. repeat split; done.
  - rewrite count_existing_zero in Hold. apply dec_stable in Hold.
    intros [= <-]. eexists. split; [done|]. by left.
Qed.

(** A complete row is stored or counted. *)
Lemma import_row_complete source now st row :
  complete row → ∃ st', import_row source now st row = Returned st'.
Proof.
  destruct st as [[[table sequence] imported] duplicates].
  intros ([k Hk] & Hnan & snps & Hsnps & Hfit).
  apply row_key_cells in Hk as (name & start & end_ & Hn & Hs & He & Hfs & Hfe & _).
  unfold import_row, py_int, bind_int. rewrite Hs, He, Hn, Hsnps. cbn [bind].
  rewrite !decide_True by done. cbn [bind].
  case_decide; [|by eexists].
  cbn [extract_surname bind]. rewrite decide_True by done.
  cbn [bind insert_segment]. rewrite Hnan. by eexists.
Qed.

(** A row without a key ends the import. *)
Lemma import_row_keyless source now st row :
  row_key row = None → ∃ e, import_row source now st row = Raised e.
Proof.
  destruct st as [[[table sequence] imported] duplicates].
  unfold import_row, row_key, py_int, bind_int.
  destruct (Start_Location row) as [start|]; [|by eexists].
  destruct (End_Location row) as [end_|]; [|by eexists]. cbn [bind].
  destruct (decide (sqlite_integer start)); [|by eexists].
  destruct (decide (sqlite_integer end_)); [|by eexists]. cbn [bind].
  destruct (Match_Name row) as [name|].
  { rewrite decide_True by done. done. }
  intros _. rewrite count_existing_nameless, decide_True by done. by eexists.
Qed.

(** A row that is stored is counted as a duplicate. *)
Lemma import_row_stored source now table sequence imported duplicates row k :
  row_key row = Some k → k ∈ key <$> table →
  import_row source now (table, sequence, imported, duplicates) row
  = Returned (table, sequence, imported, S duplicates).
Proof.
  intros (name & start & end_ & Hn & Hs & He & Hfs & Hfe & ->)%row_key_cells Hin.
  unfold import_row, py_int, bind_int. rewrite Hs, He, Hn. cbn [bind].
  rewrite !decide_True by done. cbn [bind].
  rewrite decide_False; [done|]. rewrite count_existing_zero. by intros [].
Qed.

(** What the import loop does to the table when it does not raise. *)
Lemma import_fold source now rows table sequence imported duplicates st :
  import_rows source now (table, sequence, imported, duplicates) rows = Returned st →
  ∃ new duplicates',
    st = (table ++ new, (sequence + Z.of_nat (length new))%Z,
          imported + length new, duplicates')
    ∧ length new + duplicates' = duplicates + length rows
    ∧ NoDup (key <$> new)
    ∧ (∀ s, s ∈ new →
         (∃ row, row ∈ rows ∧ row_key row = Some (key s)
                 ∧ Centimorgans row = centimorgans s
                 ∧ Matching_SNPs row = Some (matching_snps s))
         ∧ (key s ∉ key <$> table)
         ∧ (sequence < id s ≤ sequence + Z.of_nat (length new))%Z
         ∧ source_file s = Some source
         ∧ import_date s = now
         ∧ assigned_family s = Some (engine_surname (Some (match_name s)))
         ∧ PrimFloat.is_nan (centimorgans s) = false)
    ∧ NoDup (id <$> new)
    ∧ (∀ row, row ∈ rows → ∃ k, row_key row = Some k ∧ k ∈ key <$> table ++ new).
Proof.
  revert table sequence imported duplicates.
  induction rows as [|row rows IH]; intros table sequence imported duplicates.
  { intros [= <-]. exists [], duplicates.
    rewrite app_nil_r, Z.add_0_r, Nat.add_0_r. csimpl.
    split; [done|]. split; [done|]. split; [apply NoDup_nil_2|].
    split; [by intros ? ?%elem_of_nil|]. split; [apply NoDup_nil_2|].
    by intros ? ?%elem_of_nil. }
  cbn [import_rows].
  destruct (import_row source now (table, sequence, imported, duplicates) row)
    as [st1|e] eqn:Hrow; [|done].
  cbn [bind]. intros Hrest.
  apply import_row_returned in Hrow
    as (k & Hk & [[Hold ->]|(Hnew & s0 & Hs0 & Hid0 & Hsrc & Hdate & Hfam & Hcm & Hnan
                              & Hsnps & ->)]).
  - destruct (IH _ _ _ _ Hrest)
      as (new & dup' & -> & Hcount & Hkeys & Hnew_rows & Hids & Hcover).
    exists new, dup'. split; [done|]. split; [simpl; lia|]. split; [done|].
    split; [|split; [done|]].
    + intros s Hs. destruct (Hnew_rows s Hs) as [(r & Hr & Hrest') Hmore].
      split; [|done]. exists r. split; [by right|done].
    + intros r [->|Hr]%elem_of_cons; [|by apply Hcover].
      exists k. split; [done|]. rewrite fmap_app. apply elem_of_app. by left.
  - destruct (IH _ _ _ _ Hrest)
      as (new & dup' & -> & Hcount & Hkeys & Hnew_rows & Hids & Hcover).
    exists (s0 :: new), dup'. split; [|split; [|split; [|split; [|split]]]].
    + rewrite <- app_assoc. cbn [app length].
      replace (sequence + 1 + Z.of_nat (length new))%Z
        with (sequence + Z.of_nat (S (length new)))%Z by lia.
      by replace (S imported + length new) with (imported + S (length new)) by lia.
    + simpl. lia.
    + csimpl. apply NoDup_cons. split; [|done].
      intros Hin. apply list_elem_of_fmap in Hin as (s & Hs & Hin).
      destruct (Hnew_rows s Hin) as (_ & Hfresh & _). apply Hfresh.
      rewrite fmap_app, <- Hs. apply elem_of_app. right. left.
    + intros s [->|Hs]%elem_of_cons.
      * split; [exists row; split; [left|by rewrite Hs0]|].
        split; [by rewrite Hs0|]. split; [simpl; lia|done].
      * destruct (Hnew_rows s Hs) as ((r & Hr & Hrest') & Hfresh & Hid & ? & ? & ? & ?).
        split; [exists r; split; [by right|done]|]. split.
        { intros Hin. apply Hfresh. rewrite fmap_app. apply elem_of_app. by left. }
        split; [simpl; lia|done].
    + csimpl. apply NoDup_cons. split; [|done].
      intros Hin. apply list_elem_of_fmap in Hin as (s & Hs & Hin).
      destruct (Hnew_rows s Hin) as (_ & _ & Hid & _). lia.
    + intros r [->|Hr]%elem_of_cons.
      * exists k. split; [done|]. rewrite fmap_app, <- Hs0.
        apply elem_of_app. right. left.
      * destruct (Hcover r Hr) as (k' & Hk' & Hin). exists k'. split; [done|].
        by rewrite <- app_assoc in Hin.
Qed.

(** Rows that are all stored already change nothing. *)
Lemma import_fold_stored source now rows table sequence imported duplicates :
  (∀ row, row ∈ rows → ∃ k, row_key row = Some k ∧ k ∈ key <$> table) →
  import_rows source now (table, sequence, imported, duplicates) rows
  = Returned (table, sequence, imported, duplicates + length rows).
Proof.
  revert duplicates. induction rows as [|row rows IH]; intros duplicates Hall.
  { simpl. by rewrite Nat.add_0_r. }
  cbn [import_rows]. destruct (Hall row) as (k & Hk & Hin); [left|].
  rewrite (import_row_stored _ _ _ _ _ _ _ k Hk Hin). cbn [bind].
  rewrite IH by (intros r Hr; apply Hall; by right). simpl. do 2 f_equal. lia.
Qed.

(** Complete rows are all taken. *)
Lemma import_fold_complete source now rows st :
  Forall complete rows → ∃ st', import_rows source now st rows = Returned st'.
Proof.
  revert st. induction rows as [|row rows IH]; intros st Hall; [by eexists|].
  apply Forall_cons in Hall as [Hrow Hall]. cbn [import_rows].
  destruct (import_row_complete source now st row Hrow) as [st1 ->]. cbn [bind].
  by apply IH.
Qed.

(** A row without a key, anywhere in the file, ends the import. *)
Lemma import_fold_keyless source now rows st :
  Exists (λ row, row_key row = None) rows →
  ∃ e, import_rows source now st rows = Raised e.
Proof.
  revert st. induction rows as [|row rows IH]; intros st Hbad.
  { by apply Exists_nil in Hbad. }
  cbn [import_rows]. apply Exists_cons in Hbad as [Hrow|Hrest].
  - destruct (import_row_keyless source now st row Hrow) as [e ->]. by exists e.
  - destruct (import_row source now st row) as [st1|e]; [|by exists e].
    cbn [bind]. by apply IH.
Qed.

(** An import that raises met a row that is not complete. *)
Lemma import_fold_raised source now rows st e :
  import_rows source now st rows = Raised e → Exists (λ row, ¬ complete row) rows.
Proof.
  revert st. induction rows as [|row rows IH]; intros st; [done|].
  cbn [import_rows].
  destruct (import_row source now st row) as [st1|e1] eqn:Hrow; cbn [bind].
  - intros Hrest. apply Exists_cons_tl. by eapply IH.
  - intros _. apply Exists_cons_hd. intros Hc.
    destruct (import_row_complete source now st row Hc) as [st' Hst]. congruence.
Qed.

Lemma import_csv_data_cases db df path basename now source_name :
  ∃ source,
    match import_rows source now (dna_segments db, sqlite_sequence db, 0, 0) df with
    | Returned (table, sequence, imported_count, duplicate_count) =>
        import_csv_data db df path basename now source_name
        = ({| dna_segments := table;
              sqlite_sequence := sequence;
              import_history :=
                import_history db
                ++ [ {| filename := basename; file_path := path;
                        segments_imported := Z.of_nat imported_count;
                        history_date := now |} ] |},
           Returned (imported_count, duplicate_count))
    | Raised e => import_csv_data db df path basename now source_name = (db, Raised e)
    end.
Proof.
  unfold import_csv_data.
  exists (match source_name with
          | None => basename
          | Some EmptyString => basename
          | Some name => name
          end).
  cbv zeta.
  destruct (import_rows _ _ _ _) as [[[[table sequence] imported] duplicates]|e]; done.
Qed.

(** The outcome of an import depends on the stored segments by their
    keys only, and not on the source name or the date. *)
Lemma import_row_alike source now source' now' table table' sequence sequence'
    imported imported' duplicates duplicates' row :
  key <$> table = key <$> table' →
  match import_row source now (table, sequence, imported, duplicates) row,
        import_row source' now' (table', sequence', imported', duplicates') row with
  | Returned st, Returned st' => key <$> st.1.1.1 = key <$> st'.1.1.1
  | Raised e, Raised e' => e = e'
  | _, _ => False
  end.
Proof.
  intros Hkeys. unfold import_row, py_int, bind_int.
  destruct (Start_Location row) as [start|]; [|done].
  destruct (End_Location row) as [end_|]; [|done]. cbn [bind].
  destruct (decide (sqlite_integer start)); [|done].
  destruct (decide (sqlite_integer end_)); [|done]. cbn [bind].
  destruct (Match_Name row) as [name|].
  - destruct (decide (count_existing _ _ _ _ table = 0)) as [Hnew|Hold];
      destruct (decide (count_existing _ _ _ _ table' = 0)) as [Hnew'|Hold'].
    + cbn [extract_surname bind].
      destruct (Matching_SNPs row) as [snps|]; [|done]. cbn [bind].
      destruct (decide (sqlite_integer snps)); [|done]. cbn [bind insert_segment].
      destruct (PrimFloat.is_nan (Centimorgans row)); [done|].
      cbn [bind fst snd]. rewrite !fmap_app. by rewrite Hkeys.
    + exfalso. apply Hold'. rewrite count_existing_zero in *. by rewrite <- Hkeys.
    + exfalso. apply Hold. rewrite count_existing_zero in *. by rewrite Hkeys.
    + done.
  - rewrite !count_existing_nameless. by rewrite !decide_True by done.
Qed.

Lemma import_rows_alike source now source' now' rows st st' :
  key <$> st.1.1.1 = key <$> st'.1.1.1 →
  match import_rows source now st rows, import_rows source' now' st' rows with
  | Returned _, Returned _ => True
  | Raised e, Raised e' => e = e'
  | _, _ => False
  end.
Proof.
  revert st st'. induction rows as [|row rows IH]; intros st st' Hkeys; [done|].
  cbn [import_rows].
  destruct st as [[[table sequence] imported] duplicates],
           st' as [[[table' sequence'] imported'] duplicates'].
  pose proof (import_row_alike source now source' now' table table' sequence sequence'
                imported imported' duplicates duplicates' row Hkeys) as Hrow.
  destruct (import_row source now _ row) as [st1|e1],
           (import_row source' now' _ row) as [st1'|e1']; try done.
  cbn [bind]. by apply IH.
Qed.

Lemma delete_one (table : list Segment) segment_id :
  NoDup (id <$> table) → segment_id ∈ id <$> table →
  S (length (filter (λ s, id s ≠ segment_id) table)) = length table.
Proof.
  induction table as [|s table IH]; csimpl; [by intros _ ?%elem_of_nil|].
  intros [Hfresh Hnd]%NoDup_cons Hin. rewrite filter_cons.
  destruct (decide (id s ≠ segment_id)) as [Hne|Heq].
  - simpl. f_equal. apply IH; [done|].
    apply elem_of_cons in Hin as [?|?]; [congruence|done].
  - apply dec_stable in Heq. subst segment_id. f_equal.
    clear IH Hin Hnd. induction table as [|s' table IH]; [done|].
    csimpl in Hfresh. apply not_elem_of_cons in Hfresh as [? ?].
    rewrite filter_cons_True by done. simpl. f_equal. by apply IH.
Qed.

End database.

(** An import of complete rows returns. *)
Lemma complete_import_returns db df path basename now source_name :
  Forall Database.complete df →
  ∃ counts, (Database.import_csv_data db df path basename now source_name).2
            = Returned counts.
Proof.
  intros Hall.
  destruct (import_csv_data_cases db df path basename now source_name) as [source Hcases].
  destruct (import_fold_complete source now df
              (Database.dna_segments db, Database.sqlite_sequence db, 0, 0) Hall)
    as [[[[table sequence] imported] duplicates] Hst].
  rewrite Hst in Hcases. rewrite Hcases. by eexists.
Qed.

(** X15.  An import either stores nothing or takes every row.  It
    returns when every row of the file is complete; it raises, whatever
    else the file holds, when some row has no name, start or end, or a
    location outside 64 bits; and when it raises the database is as it
    was, and some row of the file is not complete.  When it returns, the
    two counts add up to the rows of the file; the stored segments stay
    as they are, assigned families included, and as many new ones as were
    counted follow them, each with the cells of a row of the file and
    centimorgans that are a number, no two alike, each filed under the
    surname of its name; afterwards every row of the file is stored, and
    a table that held no segment twice still holds none twice. *)
Theorem import_skips_what_is_stored db df path basename now source_name :
  let result := Database.import_csv_data db df path basename now source_name in
  let stored := Database.dna_segments db in
  let stored' := Database.dna_segments result.1 in
  (Forall Database.complete df → ∃ counts, result.2 = Returned counts)
  ∧ (Exists (λ row, Database.row_key row = None) df → ∃ e, result.2 = Raised e)
  ∧ (∀ e, result.2 = Raised e →
       result.1 = db ∧ Exists (λ row, ¬ Database.complete row) df)
  ∧ (∀ imported_count duplicate_count,
       result.2 = Returned (imported_count, duplicate_count) →
       imported_count + duplicate_count = length df
       ∧ (∃ new,
            stored' = stored ++ new
            ∧ length new = imported_count
            ∧ NoDup (Database.key <$> new)
            ∧ ∀ s, s ∈ new →
                (∃ row, row ∈ df
                        ∧ Database.row_key row = Some (Database.key s)
                        ∧ Database.Centimorgans row = Database.centimorgans s
                        ∧ Database.Matching_SNPs row = Some (Database.matching_snps s))
                ∧ (Database.key s ∉ Database.key <$> stored)
                ∧ PrimFloat.is_nan (Database.centimorgans s) = false
                ∧ Database.assigned_family s
                  = Some (extract_surname (Some (Database.match_name s))))
       ∧ (∀ row, row ∈ df →
            ∃ k, Database.row_key row = Some k ∧ k ∈ Database.key <$> stored')
       ∧ (NoDup (Database.key <$> stored) → NoDup (Database.key <$> stored'))).
Proof.
  intros result stored stored'. subst result stored'.
  destruct (import_csv_data_cases db df path basename now source_name) as [source Hcases].
  destruct (Database.import_rows source now _ df)
    as [[[[table sequence] imported] duplicates]|e] eqn:Hrows; rewrite Hcases; cbn [fst snd].
  - apply import_fold in Hrows
      as (new & dup' & [= -> -> -> ->] & Hcount & Hkeys & Hnew & _ & Hcover).
    split; [by eexists|]. split.
    { intros Hbad. exfalso. apply Exists_exists in Hbad as (row & Hrow & Hnone).
      destruct (Hcover row Hrow) as (k & Hk & _). congruence. }
    split; [done|]. intros imported_count duplicate_count [= <- <-].
    cbn [Database.dna_segments]. split; [lia|]. split; [|split; [done|]].
    + exists new. repeat split; try done;
        by destruct (Hnew s) as (? & ? & ? & ? & ? & ? & ?).
    + intros Hnd. rewrite fmap_app. apply NoDup_app. split; [done|]. split; [|done].
      intros k Hk Hin. apply list_elem_of_fmap in Hin as (s & -> & Hs).
      by destruct (Hnew s Hs) as (_ & ? & _).
  - split.
    { intros Hall. destruct (import_fold_complete source now df
                               (Database.dna_segments db, Database.sqlite_sequence db, 0, 0)
                               Hall) as [st Hst]. congruence. }
    split; [by eexists|]. split; [|done].
    intros e' _. split; [done|]. by eapply import_fold_raised.
Qed.

(** X15 on a file whose second row has no name: the import raises
    [AttributeError] and the database is as it was. *)
Lemma import_skips_what_is_stored_witness :
  (Database.import_csv_data sample_db [csv_row rowZ; csv_nameless]
     "/data/more.csv" "more.csv" "2025-09-29T10:00:00" None).1 = sample_db
  ∧ Exists (λ row, ¬ Database.complete row) [csv_row rowZ; csv_nameless].
Proof.
  apply (proj1 (proj2 (proj2
           (import_skips_what_is_stored sample_db [csv_row rowZ; csv_nameless]
              "/data/more.csv" "more.csv" "2025-09-29T10:00:00" None)))
           "AttributeError: 'float' object has no attribute 'replace'").
  reflexivity.
Defined.

(** X16.  Importing a file a second time adds nothing.  When the first
    import returned, the second one returns too, counts every row as a
    duplicate and leaves the table and the id counter as the first one
    left them; this is so for every file of complete rows.  When the
    first import raised, the database is as before it, and the second one
    raises the same exception and again stores nothing. *)
Theorem importing_again_adds_nothing
    db df path basename now source_name path' basename' now' source_name' :
  let first := Database.import_csv_data db df path basename now source_name in
  let again := Database.import_csv_data first.1 df path' basename' now' source_name' in
  (∀ counts, first.2 = Returned counts →
     again.2 = Returned (0, length df)
     ∧ Database.dna_segments again.1 = Database.dna_segments first.1
     ∧ Database.sqlite_sequence again.1 = Database.sqlite_sequence first.1)
  ∧ (∀ e, first.2 = Raised e → first.1 = db ∧ again.2 = Raised e ∧ again.1 = db)
  ∧ (Forall Database.complete df → again.2 = Returned (0, length df)).
Proof.
  intros first again.
  assert (∀ counts, first.2 = Returned counts →
            again.2 = Returned (0, length df)
            ∧ Database.dna_segments again.1 = Database.dna_segments first.1
            ∧ Database.sqlite_sequence again.1 = Database.sqlite_sequence first.1)
    as Hreturned.
  { intros counts Hfirst. subst again.
    destruct (import_csv_data_cases first.1 df path' basename' now' source_name')
      as [source' Hagain].
    rewrite import_fold_stored in Hagain; [by rewrite Hagain|].
    subst first.
    destruct (import_csv_data_cases db df path basename now source_name)
      as [source Hcases].
    destruct (Database.import_rows source now _ df)
      as [[[[table sequence] imported] duplicates]|e] eqn:Hrows;
      rewrite Hcases in *; [|done].
    apply import_fold in Hrows as (new & dup' & [= -> -> -> ->] & _ & _ & _ & _ & Hcover).
    done. }
  split; [done|]. split.
  - intros e Hfirst.
    assert (first.1 = db) as Hdb.
    { subst first.
      destruct (import_csv_data_cases db df path basename now source_name)
        as [source Hcases].
      destruct (Database.import_rows source now _ df)
        as [[[[table sequence] imported] duplicates]|e0]; rewrite Hcases in *; done. }
    split; [done|]. subst again. rewrite Hdb. subst first.
    destruct (import_csv_data_cases db df path basename now source_name)
      as [source Hcases].
    destruct (import_csv_data_cases db df path' basename' now' source_name')
      as [source' Hcases'].
    pose proof (import_rows_alike source now source' now' df
                  (Database.dna_segments db, Database.sqlite_sequence db, 0, 0)
                  (Database.dna_segments db, Database.sqlite_sequence db, 0, 0)
                  eq_refl) as Halike.
    destruct (Database.import_rows source now _ df)
      as [[[[table sequence] imported] duplicates]|e0];
      rewrite Hcases in Hfirst; [done|].
    injection Hfirst as ->.
    destruct (Database.import_rows source' now' _ df)
      as [[[[table' sequence'] imported'] duplicates']|e']; [done|].
    rewrite Hcases'. by subst e'.
  - intros Hall.
    destruct (complete_import_returns db df path basename now source_name Hall)
      as [counts Hcounts].
    by destruct (Hreturned counts Hcounts).
Qed.

(** X16 on the file of the sample database, imported again. *)
Lemma importing_again_adds_nothing_witness :
  (Database.import_csv_data
     (Database.import_csv_data Database.init_database (csv_row <$> [rowX; rowY])
        "/data/matches.csv" "matches.csv" "2025-09-28T10:00:00" None).1
     (csv_row <$> [rowX; rowY])
     "/data/matches.csv" "matches.csv" "2025-09-29T10:00:00" None).2
  = Returned (0, 2).
Proof.
  refine (proj2 (proj2
            (importing_again_adds_nothing Database.init_database (csv_row <$> [rowX; rowY])
               "/data/matches.csv" "matches.csv" "2025-09-28T10:00:00" None
               "/data/matches.csv" "matches.csv" "2025-09-29T10:00:00" None)) _).
  repeat constructor; try (by eexists); by vm_compute.
Defined.

(** X17.  Ids are given once.  On a table whose ids are all different
    and not above the counter, deleting a segment by its id removes that
    one row, changing a family by id changes no id and no other cell
    than the family, and an import that follows, whether it returns or
    raises, gives no segment the id of a deleted one; the table stays one
    with different ids below the counter throughout. *)
Theorem ids_are_given_once db segment_id family_name df path basename now source_name :
  Database.ids_in_order db →
  segment_id ∈ Database.id <$> Database.dna_segments db →
  let deleted := Database.delete_segment db segment_id in
  let updated := Database.update_segment_family db segment_id family_name in
  let imported := (Database.import_csv_data deleted df path basename now source_name).1 in
  S (length (Database.dna_segments deleted)) = length (Database.dna_segments db)
  ∧ (segment_id ∉ Database.id <$> Database.dna_segments imported)
  ∧ Database.ids_in_order deleted
  ∧ Database.ids_in_order imported
  ∧ Database.ids_in_order updated
  ∧ Database.key <$> Database.dna_segments updated
    = Database.key <$> Database.dna_segments db
  ∧ Forall2 (λ s s', Database.assigned_family s'
                     = (if decide (Database.id s = segment_id) then Some family_name
                        else Database.assigned_family s)
                     ∧ Database.id s' = Database.id s
                     ∧ Database.centimorgans s' = Database.centimorgans s
                     ∧ Database.matching_snps s' = Database.matching_snps s
                     ∧ Database.source_file s' = Database.source_file s
                     ∧ Database.import_date s' = Database.import_date s
                     ∧ Database.notes s' = Database.notes s)
            (Database.dna_segments db) (Database.dna_segments updated).
Proof.
  intros [Hnd Hle] Hin deleted updated imported.
  assert (Database.ids_in_order deleted) as Hdeleted.
  { split; simpl.
    - eapply sublist_NoDup; [exact Hnd|]. apply fmap_sublist, sublist_filter.
    - apply Forall_forall. intros s [_ Hs]%list_elem_of_filter.
      rewrite Forall_forall in Hle. by apply Hle. }
  assert (segment_id ≤ Database.sqlite_sequence db)%Z as Hbelow.
  { apply list_elem_of_fmap in Hin as (s & -> & Hs).
    rewrite Forall_forall in Hle. by apply Hle. }
  assert (segment_id ∉ Database.id <$> Database.dna_segments deleted) as Hgone.
  { intros (s & -> & Hs)%list_elem_of_fmap.
    simpl in Hs. by apply list_elem_of_filter in Hs as [? _]. }
  split; [by apply delete_one|].
  assert ((segment_id ∉ Database.id <$> Database.dna_segments imported)
          ∧ Database.ids_in_order imported) as [Hfresh Himported].
  { subst imported.
    destruct (import_csv_data_cases deleted df path basename now source_name)
      as [source Hcases].
    destruct (Database.import_rows source now _ df)
      as [[[[table sequence] imported] duplicates]|e] eqn:Hrows; rewrite Hcases;
      cbn [fst]; [|done].
    apply import_fold in Hrows as (new & dup' & [= -> -> -> ->] & _ & _ & Hnew & Hids & _).
    cbn [Database.dna_segments]. split.
    - rewrite fmap_app. intros [Hold|Hnew_id]%elem_of_app; [done|].
      apply list_elem_of_fmap in Hnew_id as (s & -> & Hs).
      destruct (Hnew s Hs) as (_ & _ & Hid & _). simpl in Hid. lia.
    - destruct Hdeleted as [Hnd' Hle'].
      split; cbn [Database.dna_segments Database.sqlite_sequence].
      + rewrite fmap_app. apply NoDup_app. split; [done|]. split; [|done].
        intros k Hk Hk'. apply list_elem_of_fmap in Hk as (s & -> & Hs).
        apply list_elem_of_fmap in Hk' as (s' & Heq & Hs').
        rewrite Forall_forall in Hle'. specialize (Hle' s Hs).
        destruct (Hnew s' Hs') as (_ & _ & Hid & _). lia.
      + apply Forall_app. split.
        * eapply Forall_impl; [exact Hle'|]. simpl. intros s ?. lia.
        * apply Forall_forall. intros s Hs.
          by destruct (Hnew s Hs) as (_ & _ & [_ ?] & _). }
  split; [done|]. split; [done|]. split; [done|]. split; [|split].
  - split; simpl.
    + rewrite <- list_fmap_compose.
      erewrite list_fmap_ext; [exact Hnd|]. intros i s _. simpl. by case_decide.
    + apply Forall_fmap. eapply Forall_impl; [exact Hle|].
      intros s ?. simpl. by case_decide.
  - simpl. rewrite <- list_fmap_compose. apply list_fmap_ext.
    intros i s _. simpl. by case_decide.
  - simpl. apply Forall2_fmap_r, Forall_Forall2_diag, Forall_forall.
    intros s _. simpl. by case_decide.
Qed.

(** X17 on a database of two segments, the first of which is deleted. *)
Lemma ids_are_given_once_witness :
  1%Z ∉ Database.id <$> Database.dna_segments
          (Database.import_csv_data (Database.delete_segment sample_db 1)
             (csv_row <$> [rowX; rowY])
             "/data/matches.csv" "matches.csv" "2025-09-29T10:00:00" None).1.
Proof.
  refine (proj1 (proj2 (ids_are_given_once sample_db 1 "Xu" (csv_row <$> [rowX; rowY])
            "/data/matches.csv" "matches.csv" "2025-09-29T10:00:00" None _ _))).
  - split.
    + apply (bool_decide_unpack _). vm_compute. exact I.
    + vm_compute. repeat constructor; discriminate.
  - vm_compute. left.
Defined.

(** ** The triangulation tab *)

Section gui.
Import Gui.

Lemma imap_positions {A} (l : list A) n :
  imap (λ i _, Z.of_nat (n + i)) l = Z.of_nat <$> seq n (length l).
Proof.
  revert n. induction l as [|x l IH]; intros n; [done|].
  csimpl. rewrite Nat.add_0_r. f_equal. rewrite <- IH.
  apply imap_ext. intros i y _. simpl. f_equal. lia.
Qed.

(** The labels of the frame are the positions of its rows. *)
Lemma frame_labels result : NoDup (row_name <$> frame result).
Proof.
  unfold frame. rewrite fmap_imap.
  rewrite (imap_ext _ (λ i _, Z.of_nat (0 + i))) by done.
  rewrite imap_positions. apply NoDup_fmap_2; [apply _|apply NoDup_seq].
Qed.

Lemma apply_cm_filters_sublist min_cm max_cm df :
  apply_cm_filters min_cm max_cm df `sublist_of` df.
Proof.
  unfold apply_cm_filters.
  destruct (PrimFloat.ltb 0 min_cm), (PrimFloat.ltb max_cm infinity); cbv zeta;
    try done; try apply sublist_filter.
  etrans; apply sublist_filter.
Qed.

Lemma simple_run_labels data T k :
  NoDup (row_name <$> data) →
  Forall (λ g, NoDup (row_name <$> g)) (Scheduler.detect_triangulation_simple data T k).
Proof.
  intros Hlabels. unfold Scheduler.detect_triangulation_simple.
  apply Forall_concat, Forall_fmap, Forall_forall.
  intros g [_ (c & -> & _)%list_elem_of_fmap]%list_elem_of_filter. simpl.
  apply simple_groups_labels.
  eapply sublist_NoDup; [exact Hlabels|]. apply fmap_sublist, sublist_filter.
Qed.

Lemma frame_nil result : frame result = [] ↔ result = [].
Proof. split; [|by intros ->]. by destruct result. Qed.

Lemma apply_cm_filters_spec min_cm max_cm df row :
  row ∈ apply_cm_filters min_cm max_cm df ↔ row ∈ df ∧ within_range min_cm max_cm row.
Proof.
  unfold apply_cm_filters, within_range.
  destruct (PrimFloat.ltb 0 min_cm) eqn:Hmin, (PrimFloat.ltb max_cm infinity) eqn:Hmax;
    cbv zeta; rewrite ?list_elem_of_filter; naive_solver.
Qed.

Lemma apply_cm_filters_none min_cm max_cm df :
  PrimFloat.ltb 0 min_cm || PrimFloat.ltb max_cm infinity = false →
  apply_cm_filters min_cm max_cm df = df.
Proof.
  unfold apply_cm_filters. intros [-> ->]%orb_false_iff. done.
Qed.

Lemma analysis_groups_of sort_values cpu schedule algorithm df T k :
  (∀ l, sort_values l ≡ₚ l) →
  Scheduler.possible_run cpu schedule df T k None →
  NoDup (row_name <$> df) →
  ∃ groups,
    analysis_groups sort_values cpu schedule algorithm df T k = Returned groups
    ∧ Forall (group_of df k) groups
    ∧ Forall (λ g, NoDup (row_name <$> g)) groups.
Proof.
  intros Hperm Hrun Hlabels. unfold analysis_groups.
  case_decide; [|case_decide].
  - eexists. split; [done|]. split; [apply simple_groups_of|by apply simple_run_labels].
  - eexists. split; [by apply detect_optimized_returned|].
    split; [apply optimized_groups_of|].
    apply (optimized_detect_groups (λ _ g, NoDup (row_name <$> g))).
    intros c chr_data.
    by destruct (optimized_groups_traced c chr_data T k) as (_ & ? & _).
  - eexists. split; [done|]. split; [by apply painter_groups_of|].
    unfold Painter.detect_triangulation_groups.
    apply Forall_concat, Forall_fmap, Forall_forall. intros c _. simpl.
    apply painter_seed_fold. constructor.
Qed.

End gui.

(** X18.  The triangulation tab.  The frame read from the database is
    filtered by centimorgans before any engine sees it, and its labels
    are the positions of its rows.  So whichever algorithm is chosen,
    every group of the analysis has at least [min_group_size] members,
    all of them rows of the frame within the bounds that are set, no
    label twice; the analysis does not raise.  Without an
    analysis, the database is empty, or nothing is within the bounds, or
    the question about the slow algorithm on more than 5000 segments was
    answered with no. *)
Theorem analysis_sees_only_rows_in_the_cm_range
    sort_values cpu schedule response result algorithm T k min_cm max_cm :
  (∀ l, sort_values l ≡ₚ l) →
  Scheduler.possible_run cpu schedule
    (Gui.apply_cm_filters min_cm max_cm (Gui.frame result)) T k None →
  match Gui.run_triangulation sort_values cpu schedule response result algorithm
          T k min_cm max_cm with
  | Gui.no_data => result = []
  | Gui.declined =>
      response = false ∧ 5000 < length result ∧ algorithm = "Original (Slow)"%string
  | Gui.nothing_remains =>
      result ≠ []
      ∧ Forall (λ row, ¬ Gui.within_range min_cm max_cm row) (Gui.frame result)
  | Gui.analysis (Raised _) => False
  | Gui.analysis (Returned groups) =>
      Forall (λ g, (k ≤ Z.of_nat (length g))%Z
                   ∧ NoDup (row_name <$> g)
                   ∧ Forall (λ m, m ∈ Gui.frame result
                                  ∧ Gui.within_range min_cm max_cm m) g) groups
  end.
Proof.
  intros Hperm Hrun. unfold Gui.run_triangulation. cbv zeta.
  destruct (Gui.frame result) as [|row0 df] eqn:Hframe.
  { by apply frame_nil. }
  assert (result ≠ []) as Hsome by (intros ->; done).
  rewrite <- Hframe in *.
  destruct (bool_decide _ && negb response) eqn:Hask.
  { apply andb_true_iff in Hask as [Hbig Hno].
    apply bool_decide_eq_true in Hbig as [Hbig ->].
    unfold Gui.frame in Hbig. rewrite length_imap in Hbig.
    by destruct response. }
  assert (match Gui.analysis_groups sort_values cpu schedule algorithm
                  (Gui.apply_cm_filters min_cm max_cm (Gui.frame result)) T k with
          | Returned groups =>
              Forall (λ g, (k ≤ Z.of_nat (length g))%Z
                           ∧ NoDup (row_name <$> g)
                           ∧ Forall (λ m, m ∈ Gui.frame result
                                          ∧ Gui.within_range min_cm max_cm m) g) groups
          | Raised _ => False
          end) as Hanalysis.
  { destruct (analysis_groups_of sort_values cpu schedule algorithm _ T k Hperm Hrun)
      as (groups & -> & Hall & Hlabels).
    { eapply sublist_NoDup; [apply frame_labels|].
      apply fmap_sublist, apply_cm_filters_sublist. }
    apply Forall_forall. intros g Hg. rewrite Forall_forall in Hall, Hlabels.
    destruct (Hall g Hg) as (Hk & Hsub & _).
    split; [done|]. split; [by apply Hlabels|]. apply Forall_forall. intros m Hm.
    by apply apply_cm_filters_spec, Hsub. }
  destruct (PrimFloat.ltb 0 min_cm || PrimFloat.ltb max_cm infinity) eqn:Hfilter.
  2:{ by rewrite (apply_cm_filters_none _ _ _ Hfilter) in Hanalysis. }
  destruct (Gui.apply_cm_filters min_cm max_cm (Gui.frame result))
    as [|row1 kept] eqn:Hkept; [|done].
  split; [done|]. apply Forall_forall. intros row Hrow Hin.
  assert (row ∈ Gui.apply_cm_filters min_cm max_cm (Gui.frame result)) as Hrow'
    by (by apply apply_cm_filters_spec).
  rewrite Hkept in Hrow'. by apply elem_of_nil in Hrow'.
Qed.

(** X18 on the two segments of the sample database, at least 7 cM. *)
Lemma analysis_sees_only_rows_in_the_cm_range_witness :
  match Gui.run_triangulation (sort_by Start_Location) 2 [0] true
          (Database.dna_segments sample_db) "Simple (Debug)" 3 2 7 infinity with
  | Gui.analysis (Returned groups) =>
      Forall (λ g, (2 ≤ Z.of_nat (length g))%Z
                   ∧ NoDup (row_name <$> g)
                   ∧ Forall (λ m, m ∈ Gui.frame (Database.dna_segments sample_db)
                                  ∧ Gui.within_range 7 infinity m) g) groups
  | _ => False
  end.
Proof.
  pose proof (analysis_sees_only_rows_in_the_cm_range (sort_by Start_Location) 2 [0] true
           (Database.dna_segments sample_db) "Simple (Debug)" 3 2 7 infinity) as H.
  vm_compute Gui.run_triangulation in H. apply H.
  - intros l. apply sort_by_perm.
  - split; [simpl; lia|]. unfold Pool.complete_schedule. vm_compute. reflexivity.
Defined.

(** ** What a run leaves over *)

Lemma length_filter_impl {A} (P Q : A → Prop)
    `{!∀ x, Decision (P x)} `{!∀ x, Decision (Q x)} (l : list A) :
  (∀ x, x ∈ l → P x → Q x) → length (filter P l) ≤ length (filter Q l).
Proof.
  induction l as [|x l IH]; intros HPQ; [done|].
  rewrite !filter_cons.
  assert (length (filter P l) ≤ length (filter Q l)) as Hle.
  { apply IH. intros y Hy. apply HPQ. by right. }
  destruct (decide (P x)) as [HP|HP].
  - rewrite decide_True by (apply HPQ; [left|done]). simpl. lia.
  - destruct (decide (Q x)); simpl; lia.
Qed.

Lemma sublist_of_filter {A} (P : A → Prop) `{!∀ x, Decision (P x)} (l1 l2 : list A) :
  l1 `sublist_of` l2 → Forall P l1 → l1 `sublist_of` filter P l2.
Proof.
  induction 1 as [|x l1 l2 _ IH|x l1 l2 _ IH]; intros Hall.
  - done.
  - apply Forall_cons in Hall as [Hx Hall].
    rewrite filter_cons_True by done. apply sublist_skip. by apply IH.
  - rewrite filter_cons. case_decide; [apply sublist_cons|]; by apply IH.
Qed.

Lemma filter_sublist_mono {A} (P : A → Prop) `{!∀ x, Decision (P x)} (l1 l2 : list A) :
  l1 `sublist_of` l2 → filter P l1 `sublist_of` filter P l2.
Proof.
  induction 1 as [|x l1 l2 _ IH|x l1 l2 _ IH]; [done| |].
  - rewrite !filter_cons. case_decide; [by apply sublist_skip|done].
  - rewrite filter_cons. case_decide; [by apply sublist_cons|done].
Qed.

(** A test on positions that is a test on the elements. *)
Lemma filter_enumerate_from {A} (P : nat * A → Prop) (Q : A → Prop)
    `{!∀ e, Decision (P e)} `{!∀ x, Decision (Q x)} n (l : list A) :
  (∀ e, e ∈ enumerate_from n l → P e ↔ Q e.2) →
  (filter P (enumerate_from n l)).*2 = filter Q l.
Proof.
  revert n. induction l as [|x l IH]; intros n HPQ; [done|].
  cbn [enumerate_from]. rewrite !filter_cons.
  assert ((filter P (enumerate_from (S n) l)).*2 = filter Q l) as Hrest.
  { apply IH. intros e He. apply HPQ. by right. }
  destruct (decide (P (n, x))) as [HP|HP], (decide (Q x)) as [HQ|HQ].
  - csimpl. by rewrite Hrest.
  - destruct HQ. by apply (HPQ (n, x)); [left|].
  - destruct HP. by apply (HPQ (n, x)); [left|].
  - done.
Qed.

Lemma at_positions_concat rows positions groups :
  Forall2 (at_positions rows) positions groups →
  at_positions rows (concat positions) (concat groups).
Proof.
  unfold at_positions. induction 1 as [|ps g positions groups Hg _ IH]; simpl.
  - constructor.
  - by apply Forall2_app.
Qed.

(** With distinct labels, a position is among those of a group exactly
    when the label of its row is among the labels of the group. *)
Lemma at_positions_label rows positions g j row :
  NoDup (row_name <$> rows) → at_positions rows positions g →
  rows !! j = Some row →
  j ∈ positions ↔ row_name row ∈ row_name <$> g.
Proof.
  intros Hnd Hat Hj. unfold at_positions in Hat. split.
  - intros [n Hn]%list_elem_of_lookup.
    destruct (Forall2_lookup_l _ _ _ _ _ Hat Hn) as (r & Hr & Hjr).
    assert (r = row) as -> by congruence.
    apply list_elem_of_fmap. exists row. split; [done|].
    by eapply list_elem_of_lookup_2.
  - intros (r & Hlabel & [n Hn]%list_elem_of_lookup)%list_elem_of_fmap.
    destruct (Forall2_lookup_r _ _ _ _ _ Hat Hn) as (j' & Hj' & Hr).
    assert (j = j') as ->; [|by eapply list_elem_of_lookup_2].
    apply (NoDup_lookup (row_name <$> rows) j j' (row_name row)); [done| |].
    + by rewrite list_lookup_fmap, Hj.
    + by rewrite list_lookup_fmap, Hr, Hlabel.
Qed.

Section simple_leftover.
Import Simple.
Implicit Types (segments : list segment).

(** The inner loop of the simple engine takes every segment at another,
    unused position that overlaps the seed enough. *)
Lemma simple_collect_exact T used i (segment1 : segment) cands g idx
    (joins := λ e : nat * segment,
       e.1 ≠ i ∧ (e.1 ∉ used) ∧ (T ≤ actual_overlap segment1 e.2)%Z) :
  foldl (collect_step T used i segment1) (g, idx) cands
  = (g ++ (filter joins cands).*2, idx ∪ list_to_set (filter joins cands).*1).
Proof.
  revert g idx. induction cands as [|[j segment2] cands IH]; intros g idx.
  { csimpl. rewrite app_nil_r. f_equal. set_solver. }
  cbn [foldl collect_step]. rewrite filter_cons.
  destruct (decide (j = i ∨ j ∈ used)) as [Hskip|Hnew].
  { rewrite decide_False by (unfold joins; simpl; tauto). apply IH. }
  destruct (decide (T ≤ actual_overlap segment1 segment2)%Z) as [Hov|Hno].
  - rewrite decide_True by (unfold joins; simpl; tauto).
    rewrite IH. csimpl. rewrite <- app_assoc. f_equal. set_solver.
  - rewrite decide_False by (unfold joins; simpl; tauto). apply IH.
Qed.

(** A position that the outer loop passes and that is unused at the
    end has too few unused positions overlapping it. *)
Lemma simple_seed_fold_leftover T k segments cands groups used :
  let final := foldl (seed_step T k segments) (groups, used) cands in
  used ⊆ final.2
  ∧ ∀ i s, (i, s) ∈ cands → i ∉ final.2 →
      (1 + Z.of_nat (length (filter (λ e : nat * segment,
                                       e.1 ≠ i ∧ (e.1 ∉ final.2)
                                       ∧ (T ≤ actual_overlap s e.2)%Z)
                                    (enumerate segments))) < k)%Z.
Proof.
  revert groups used. induction cands as [|[i0 s0] cands IH]; intros groups used.
  { simpl. split; [done|]. by intros i s ?%elem_of_nil. }
  cbn [foldl seed_step].
  destruct (decide (i0 ∈ used)) as [Hused|Hfree].
  { destruct (IH groups used) as [Hsub Hleft]. split; [done|].
    intros i s [[= -> ->]|Hin]%elem_of_cons Hi; [set_solver|by apply Hleft]. }
  unfold collect. rewrite simple_collect_exact.
  match goal with |- context [filter ?P (enumerate segments)] => set (joins := P) end.
  case_decide as Hlen.
  - match goal with |- context [foldl _ (?g, ?u) cands] =>
      destruct (IH g u) as [Hsub Hleft] end.
    split; [set_solver|].
    intros i s [[= -> ->]|Hin]%elem_of_cons Hi; [set_solver|by apply Hleft].
  - destruct (IH groups used) as [Hsub Hleft]. split; [done|].
    intros i s [[= -> ->]|Hin]%elem_of_cons Hi; [|by apply Hleft].
    rewrite length_app, length_fmap in Hlen. simpl in Hlen.
    assert (length (filter (λ e : nat * segment,
                              e.1 ≠ i0 ∧ (e.1 ∉ (foldl (seed_step T k segments)
                                                   (groups, used) cands).2)
                              ∧ (T ≤ actual_overlap s0 e.2)%Z) (enumerate segments))
            ≤ length (filter joins (enumerate segments))) as Hle.
    { apply length_filter_impl. unfold joins. intros e _ (? & ? & ?).
      split; [done|]. split; [set_solver|done]. }
    lia.
Qed.

(** The run of the simple engine on the rows of a chromosome: the
    groups, and the positions they are taken from, which are the used
    positions at the end. *)
Lemma simple_run_trace chr_data T k (segments := to_segment <$> chr_data) :
  ∃ seeds,
    foldl (seed_step T k segments) ([], ∅) (enumerate segments)
    = (simple_group <$> seeds, ∅ ∪ list_to_set (concat (simple_positions <$> seeds)))
    ∧ at_positions chr_data (concat (simple_positions <$> seeds))
                   (concat (simple_group <$> seeds))
    ∧ Forall (λ t, t.2 `sublist_of` enumerate segments
                   ∧ Forall (λ e, e.1 ≠ t.1.1
                                  ∧ (T ≤ actual_overlap t.1.2 e.2)%Z) t.2
                   ∧ (k ≤ Z.of_nat (length (simple_group t)))%Z
                   ∧ segments !! t.1.1 = Some t.1.2) seeds.
Proof.
  destruct (simple_seed_fold T k segments (enumerate segments) [] ∅)
    as (seeds & Hsub & Hfold & Hall & _).
  exists seeds. split; [done|].
  assert (∀ t, t ∈ seeds → segments !! t.1.1 = Some t.1.2) as Hseed.
  { intros t Ht. apply elem_of_enumerate. eapply elem_of_sublist; [|exact Hsub].
    apply list_elem_of_fmap. exists t. split; [|done]. by destruct t as [[??]?]. }
  rewrite Forall_forall in Hall. split.
  - apply at_positions_concat, Forall2_fmap_diag.
    intros [[i s1] extra] Ht. destruct (Hall _ Ht) as (Hes & _ & _). simpl in *.
    unfold at_positions, simple_positions, simple_group. csimpl. constructor.
    + by destruct (simple_segments_of_rows chr_data i s1 (Hseed (i, s1, extra) Ht)).
    + rewrite <- list_fmap_compose. apply Forall2_fmap_diag.
      intros [j s] He. simpl.
      assert (segments !! j = Some s) as Hj.
      { apply elem_of_enumerate. by eapply elem_of_sublist. }
      by destruct (simple_segments_of_rows chr_data j s Hj).
  - apply Forall_forall. intros t Ht. destruct (Hall t Ht) as (? & ? & ?).
    repeat split; try done. by apply Hseed.
Qed.

(** The rows that the simple engine leaves over: a row in no group has
    too few rows in no group overlapping it. *)
Lemma simple_left_out_small chr_data T k row
    (left := left_out chr_data (chromosome_groups chr_data T k)) :
  NoDup (row_name <$> chr_data) → row ∈ left →
  (1 + Z.of_nat (length (filter (λ r, row_name r ≠ row_name row
                                      ∧ (T ≤ actual_overlap (to_segment row)
                                                            (to_segment r))%Z) left))
   < k)%Z.
Proof.
  intros Hnd. subst left.
  unfold left_out, chromosome_groups, _find_overlapping_groups_simple.
  set (segments := to_segment <$> chr_data).
  destruct (simple_run_trace chr_data T k) as (seeds & Hfold & Hat & _).
  destruct (simple_seed_fold_leftover T k segments (enumerate segments) [] ∅)
    as [_ Hleft].
  fold segments in Hfold. rewrite Hfold in *. cbn [fst snd] in *.
  set (groups := simple_group <$> seeds) in *.
  set (used := concat (simple_positions <$> seeds)) in *.
  assert (∀ j r, chr_data !! j = Some r →
            j ∈ (∅ ∪ list_to_set used : gset nat)
            ↔ row_name r ∈ row_name <$> concat groups) as Hused.
  { intros j r Hj.
    rewrite <- (at_positions_label chr_data used (concat groups) j r Hnd Hat Hj).
    set_solver. }
  intros [Hout [i Hi]%list_elem_of_lookup]%list_elem_of_filter.
  assert (segments !! i = Some (to_segment row)) as Hseg.
  { unfold segments. by rewrite list_lookup_fmap, Hi. }
  specialize (Hleft i (to_segment row)).
  rewrite elem_of_enumerate, (Hused i row Hi) in Hleft.
  specialize (Hleft Hseg Hout).
  rewrite <- (length_fmap snd) in Hleft. unfold enumerate in Hleft.
  rewrite (filter_enumerate_from _
             (λ s, row_name (data s) ≠ row_name row
                   ∧ (row_name (data s) ∉ row_name <$> concat groups)
                   ∧ (T ≤ actual_overlap (to_segment row) s)%Z)) in Hleft.
  2:{ intros [j s] Hj%elem_of_enumerate. simpl.
      destruct (simple_segments_of_rows chr_data j s Hj) as [Hrow _].
      rewrite (Hused j (data s) Hrow).
      assert (j = i ↔ row_name (data s) = row_name row) as Hji.
      { split; [intros ->; congruence|]. intros Heq.
        apply (NoDup_lookup (row_name <$> chr_data) j i (row_name row)); [done| |].
        - rewrite list_lookup_fmap, Hrow. simpl. by rewrite Heq.
        - by rewrite list_lookup_fmap, Hi. }
      tauto. }
  unfold segments in Hleft.
  rewrite (filter_fmap_comm to_segment _
             (λ r, row_name r ≠ row_name row
                   ∧ (row_name r ∉ row_name <$> concat groups)
                   ∧ (T ≤ actual_overlap (to_segment row) (to_segment r))%Z)) in Hleft
    by done.
  rewrite length_fmap in Hleft.
  rewrite list_filter_filter.
  erewrite list_filter_iff; [exact Hleft|]. intros r. simpl. tauto.
Qed.

(** A list of rows in which every row has too few others overlapping it
    gives no group. *)
Lemma simple_no_groups rows T k :
  NoDup (row_name <$> rows) →
  (∀ row, row ∈ rows →
     (1 + Z.of_nat (length (filter (λ r, row_name r ≠ row_name row
                                         ∧ (T ≤ actual_overlap (to_segment row)
                                                               (to_segment r))%Z) rows))
      < k)%Z) →
  chromosome_groups rows T k = [].
Proof.
  intros Hnd Hsmall.
  unfold chromosome_groups, _find_overlapping_groups_simple.
  destruct (simple_run_trace rows T k) as (seeds & -> & _ & Hall).
  destruct seeds as [|[[i s1] extra] seeds]; [done|]. exfalso.
  apply Forall_cons in Hall as [(Hsub & Hov & Hk & Hi) _]. simpl in *.
  destruct (simple_segments_of_rows rows i s1 Hi) as [Hrow Hs1].
  specialize (Hsmall (data s1)). rewrite <- Hs1 in Hsmall.
  assert (length extra
          ≤ length (filter (λ r, row_name r ≠ row_name (data s1)
                                 ∧ (T ≤ actual_overlap s1 (to_segment r))%Z) rows))
    as Hle.
  { pose proof (filter_fmap_comm to_segment
                  (λ s, row_name (data s) ≠ row_name (data s1)
                        ∧ (T ≤ actual_overlap s1 s)%Z)
                  (λ r, row_name r ≠ row_name (data s1)
                        ∧ (T ≤ actual_overlap s1 (to_segment r))%Z) rows) as E1.
    pose proof (filter_enumerate_from
                  (λ e : nat * segment, e.1 ≠ i ∧ (T ≤ actual_overlap s1 e.2)%Z)
                  (λ s, row_name (data s) ≠ row_name (data s1)
                        ∧ (T ≤ actual_overlap s1 s)%Z) 0 (to_segment <$> rows)) as E2.
    rewrite <- (length_fmap to_segment), <- E1 by done.
    rewrite <- E2, length_fmap.
    - apply sublist_length, sublist_of_filter; done.
    - intros [j s] Hj%elem_of_enumerate. simpl.
      destruct (simple_segments_of_rows rows j s Hj) as [Hjr _].
      assert (j = i ↔ row_name (data s) = row_name (data s1)) as Hji.
      { split; [intros ->; congruence|]. intros Heq.
        apply (NoDup_lookup (row_name <$> rows) j i (row_name (data s1))); [done| |].
        - rewrite list_lookup_fmap, Hjr. simpl. by rewrite Heq.
        - by rewrite list_lookup_fmap, Hrow. }
      tauto. }
  unfold simple_group in Hk. simpl in Hk. rewrite !length_fmap in Hk.
  specialize (Hsmall ltac:(by eapply list_elem_of_lookup_2)). lia.
Qed.

End simple_leftover.
Section optimized_leftover.
Import Optimized.

(** A list of rows in which every row has too few others overlapping it
    gives no group. *)
Lemma optimized_no_groups c rows T k :
  NoDup (row_name <$> rows) →
  (∀ row, row ∈ rows →
     (1 + Z.of_nat (length (overlapping_rows T row rows)) < k)%Z) →
  _process_chromosome_optimized (c, rows, T, k) = [].
Proof.
  intros Hnd Hsmall. unfold _process_chromosome_optimized.
  rewrite optimized_sorted_rows.
  set (sorted := sort_by Start_Location rows).
  assert (NoDup (row_name <$> sorted)) as Hnd'.
  { unfold sorted. by rewrite sort_by_perm. }
  destruct (optimized_seed_and_collect T k (to_segment <$> sorted))
    as (seeds & Hsub & -> & Hk).
  destruct seeds as [|[i s1] seeds]; [done|]. exfalso.
  apply Forall_cons in Hk as [Hk _]. simpl in Hk.
  assert ((i, s1) ∈ enumerate (to_segment <$> sorted)) as He.
  { eapply elem_of_sublist; [left|exact Hsub]. }
  apply elem_of_enumerate in He. rewrite list_lookup_fmap in He.
  destruct (sorted !! i) as [row|] eqn:Hi; [|done]. injection He as <-.
  pose proof (optimized_collect_rows T sorted i row Hnd' Hi) as Heq.
  apply (f_equal length) in Heq. rewrite length_fmap in Heq.
  rewrite Heq in Hk. simpl in Hk.
  assert (row ∈ rows) as Hrow.
  { apply list_elem_of_lookup_2 in Hi. unfold sorted in Hi.
    by rewrite sort_by_perm in Hi. }
  specialize (Hsmall row Hrow).
  rewrite (overlapping_rows_perm T row rows sorted) in Hsmall
    by (unfold sorted; by rewrite sort_by_perm).
  lia.
Qed.

End optimized_leftover.

Lemma left_out_sublist rows groups : left_out rows groups `sublist_of` rows.
Proof. apply sublist_filter. Qed.

(** X19.  On rows with distinct labels both engines are exhaustive: a
    second run on the rows that the first run left out of every group
    returns no group. *)
Theorem a_second_run_finds_nothing c chr_data T k :
  NoDup (row_name <$> chr_data) →
  Simple.chromosome_groups
    (left_out chr_data (Simple.chromosome_groups chr_data T k)) T k = []
  ∧ Optimized._process_chromosome_optimized
      (c, left_out chr_data (Optimized._process_chromosome_optimized (c, chr_data, T, k)),
       T, k) = [].
Proof.
  intros Hnd.
  assert (∀ groups, NoDup (row_name <$> left_out chr_data groups)) as Hnd'.
  { intros groups. eapply sublist_NoDup; [exact Hnd|].
    apply fmap_sublist, left_out_sublist. }
  split.
  - apply simple_no_groups; [done|]. intros row Hrow.
    by apply simple_left_out_small.
  - apply optimized_no_groups; [done|]. intros row Hrow.
    set (groups := Optimized._process_chromosome_optimized (c, chr_data, T, k)) in *.
    apply list_elem_of_filter in Hrow as [Hout Hin].
    destruct (optimized_row_tried c chr_data T k row Hnd Hin)
      as [(g & Hg & Hlabel)|Hsmall].
    + destruct Hout. apply list_elem_of_fmap in Hlabel as (r & Hr & Hrg).
      apply list_elem_of_fmap. exists r. split; [done|].
      apply elem_of_concat. by exists g.
    + assert (length (overlapping_rows T row (left_out chr_data groups))
              ≤ length (overlapping_rows T row chr_data)) as Hle.
      { apply sublist_length, filter_sublist_mono, left_out_sublist. }
      rewrite (overlapping_rows_perm T row chr_data (sort_by Start_Location chr_data))
        in Hle by (by rewrite sort_by_perm).
      lia.
Qed.

(** X19 on three rows, the third of which is left out. *)
Lemma a_second_run_finds_nothing_witness :
  Simple.chromosome_groups
    (left_out [rowX; rowY; rowLone] (Simple.chromosome_groups [rowX; rowY; rowLone] 3 2))
    3 2 = []
  ∧ Optimized._process_chromosome_optimized
      ("1"%string,
       left_out [rowX; rowY; rowLone]
         (Optimized._process_chromosome_optimized ("1"%string, [rowX; rowY; rowLone], 3, 2)%Z),
       3, 2)%Z = [].
Proof.
  apply (a_second_run_finds_nothing "1" [rowX; rowY; rowLone] 3 2).
  apply (bool_decide_unpack _). vm_compute. exact I.
Defined.

(** ** The analysis of the original and of the optimized algorithm *)

Lemma map_raising_cases {A B} (bad : A → Prop) `{!∀ x, Decision (bad x)}
    (f : A → outcome B) e l :
  (∀ x, bad x → f x = Raised e) →
  (∀ x, ¬ bad x → ∃ y, f x = Returned y) →
  (Exists bad l → map_raising f l = Raised e)
  ∧ (Forall (λ x, ¬ bad x) l → ∃ ys, map_raising f l = Returned ys).
Proof.
  intros Hbad Hgood. induction l as [|x l [IHx IHa]].
  { split; [by intros ?%Exists_nil|]. intros _. by eexists. }
  cbn [map_raising]. destruct (decide (bad x)) as [Hx|Hx].
  - rewrite (Hbad x Hx). split; [done|]. by intros [? _]%Forall_cons.
  - destruct (Hgood x Hx) as [y ->]. cbn [bind]. split.
    + intros [?|Hl]%Exists_cons; [done|]. by rewrite IHx.
    + intros [_ Hl]%Forall_cons. destruct (IHa Hl) as [ys ->]. by eexists.
Qed.

Lemma numbered_cases {A B} (bad : A → Prop) `{!∀ x, Decision (bad x)}
    (body : nat → A → outcome (list B)) e number l :
  (∀ r x, bad x → body r x = Raised e) →
  (∀ r x, ¬ bad x → ∃ ys, body r x = Returned ys) →
  (Exists bad l → numbered body number l = Raised e)
  ∧ (Forall (λ x, ¬ bad x) l → ∃ ys, numbered body number l = Returned ys).
Proof.
  intros Hbad Hgood. revert number. induction l as [|x l IH]; intros number.
  { split; [by intros ?%Exists_nil|]. intros _. by eexists. }
  destruct (IH (S number)) as [IHx IHa].
  cbn [numbered]. destruct (decide (bad x)) as [Hx|Hx].
  - rewrite (Hbad number x Hx). split; [done|]. by intros [? _]%Forall_cons.
  - destruct (Hgood number x Hx) as [ys ->]. cbn [bind]. split.
    + intros [?|Hl]%Exists_cons; [done|]. by rewrite IHx.
    + intros [_ Hl]%Forall_cons. destruct (IHa Hl) as [rest ->]. by eexists.
Qed.

Section original_report.
Import OriginalReport.

Lemma original_group_text py fmt i group
    (bad := λ g : list Row, g = [] ∨ Exists (λ m, blank (Match_Name m)) g) :
  (bad group → group_text py fmt i group = Raised "IndexError: list index out of range")
  ∧ (¬ bad group → ∃ pieces, group_text py fmt i group = Returned pieces).
Proof.
  destruct (map_raising_cases (λ m, blank (Match_Name m)) (member_text py)
              "IndexError: list index out of range" group) as [Hmx Hma].
  { intros m Hm. unfold member_text. by rewrite browser_surname_blank. }
  { intros m Hm. unfold member_text. rewrite browser_surname_word by done. by eexists. }
  destruct (map_raising_cases (λ m, blank (Match_Name m))
              (λ member, Browser.extract_surname (Some (Match_Name member)))
              "IndexError: list index out of range" group) as [_ Hna].
  { intros m Hm. by rewrite browser_surname_blank. }
  { intros m Hm. rewrite browser_surname_word by done. by eexists. }
  unfold group_text. destruct group as [|seed members].
  { split; [done|]. intros []. by left. }
  cbn [Report.first_chromosome bind].
  destruct (py_min_returned (Start_Location <$> seed :: members)) as (lo & -> & _); [done|].
  destruct (py_max_returned (End_Location <$> seed :: members)) as (hi & -> & _); [done|].
  cbn [bind]. split.
  - intros [?|Hb]; [done|]. by rewrite Hmx.
  - intros Hgood.
    assert (Forall (λ m, ¬ blank (Match_Name m)) (seed :: members)) as Hall.
    { apply Forall_forall. intros m Hm Hb. apply Hgood. right.
      apply Exists_exists. by exists m. }
    destruct (Hma Hall) as [lines ->]. destruct (Hna Hall) as [names ->].
    by eexists.
Qed.

Lemma original_report_cases py fmt groups
    (bad := λ g : list Row, g = [] ∨ Exists (λ m, blank (Match_Name m)) g) :
  (Exists bad groups →
   generate_original_report py fmt groups = Raised "IndexError: list index out of range")
  ∧ (Forall (λ g, ¬ bad g) groups →
     ∃ text, generate_original_report py fmt groups = Returned text).
Proof.
  destruct (numbered_cases bad (group_text py fmt)
              "IndexError: list index out of range" 1 groups) as [Hx Ha].
  { intros r g. apply original_group_text. }
  { intros r g. apply original_group_text. }
  unfold generate_original_report. destruct groups as [|g groups].
  { split; [by intros ?%Exists_nil|]. by eexists. }
  split.
  - intros Hb. by rewrite Hx.
  - intros Hg. destruct (Ha Hg) as [pieces ->]. by eexists.
Qed.

End original_report.

(** X20.  The report of the original algorithm, which takes surnames with
    the original engine's [extract_surname], raises [IndexError] exactly
    when a stored group is empty or a member's name is whitespace only.
    The groups of the original engine are never empty, so its analysis
    ends in the error message exactly when a grouped row has such a
    name, and in a report otherwise.  The message is made of [str(e)],
    the text of the exception without the name of its class. *)
Theorem original_report_fails_on_a_blank_name py fmt sort_values data T k :
  (∀ groups,
     (Exists (λ g, g = [] ∨ Exists (λ m, blank (Match_Name m)) g) groups →
      OriginalReport.generate_original_report py fmt groups
      = Raised "IndexError: list index out of range")
     ∧ (Forall (λ g, ¬ (g = [] ∨ Exists (λ m, blank (Match_Name m)) g)) groups →
        ∃ text, OriginalReport.generate_original_report py fmt groups = Returned text))
  ∧ (Exists (λ m, blank (Match_Name m))
            (concat (Painter.detect_triangulation_groups sort_values data T k)) →
     Gui.original_analysis py fmt sort_values data T k
     = Scheduler.show_triangulation_error
         "Error during analysis: list index out of range")
  ∧ (Forall (λ m, ¬ blank (Match_Name m))
            (concat (Painter.detect_triangulation_groups sort_values data T k)) →
     ∃ text, Gui.original_analysis py fmt sort_values data T k
             = Scheduler.update_triangulation_results text).
Proof.
  split; [intros groups; apply original_report_cases|].
  unfold Gui.original_analysis.
  set (groups := Painter.detect_triangulation_groups sort_values data T k).
  destruct (original_report_cases py fmt groups) as [Hx Ha]. split.
  - intros Hb. rewrite Hx; [done|].
    apply Exists_exists in Hb as (m & Hm & Hb).
    apply elem_of_concat in Hm as (g & Hg & Hm).
    apply Exists_exists. exists g. split; [done|]. right.
    apply Exists_exists. by exists m.
  - intros Hg. destruct Ha as [text ->]; [|by eexists].
    apply Forall_forall. intros g Hin [->|Hb].
    + revert Hin. subst groups. rewrite painter_chromosome_groups.
      intros (gs & (c & -> & _)%list_elem_of_fmap & Hin)%elem_of_concat.
      destruct (painter_groups_traced sort_values data T k c) as [Hall _].
      rewrite Forall_forall in Hall.
      by destruct (Hall _ Hin) as (seed & members & ? & _).
    + apply Exists_exists in Hb as (m & Hm & Hb).
      rewrite Forall_forall in Hg. apply (Hg m); [|done].
      apply elem_of_concat. by exists g.
Qed.

(** X20 on two overlapping rows, one with a name of two blanks. *)
Lemma original_report_fails_on_a_blank_name_witness :
  Gui.original_analysis sample_runtime sample_original_format (sort_by Start_Location)
    [rowX; sample_row 1 blank_name "1" 5 20] 3 2
  = Scheduler.show_triangulation_error
      "Error during analysis: list index out of range".
Proof.
  apply (original_report_fails_on_a_blank_name sample_runtime sample_original_format
           (sort_by Start_Location) [rowX; sample_row 1 blank_name "1" 5 20] 3 2).
  vm_compute. apply Exists_cons_tl, Exists_cons_hd. split; [done|].
  by repeat constructor.
Defined.

(** X21.  The analysis of the optimized algorithm never ends in the
    error message: whatever the thresholds, the filter and the report
    format, the window is handed a report of the groups of the run. *)
Theorem optimized_analysis_shows_a_report
    py qf cpu schedule report_format df T k min_cm :
  Scheduler.possible_run cpu schedule df T k None →
  ∃ groups text,
    Scheduler.detect_triangulation_groups_optimized cpu schedule df T k None
      = Returned groups
    ∧ Gui.optimized_analysis py qf cpu schedule report_format df T k min_cm
      = Scheduler.update_triangulation_results text
    ∧ (report_format = "Quick Summary"%string →
       QuickList.create_simple_group_list py qf groups = Returned text)
    ∧ (report_format ≠ "Quick Summary"%string →
       OptimizedReport.create_triangulation_report_by_size py groups (Some min_cm)
       = Returned text).
Proof.
  intros Hrun. unfold Gui.optimized_analysis.
  rewrite detect_optimized_returned by done. cbn [bind].
  set (groups := concat _).
  assert ([] ∉ groups) as Hne.
  { apply (star_not_empty T), (optimized_detect_groups star).
    intros c chr_data. by destruct (optimized_groups_traced c chr_data T k) as (? & _). }
  destruct (reports_returned py qf groups (Some min_cm) Hne)
    as ([text Ht] & _ & [summary Hs]).
  exists groups. case_decide.
  - exists summary. rewrite Hs. by repeat split.
  - exists text. rewrite Ht. by repeat split.
Qed.

(** X21 on the sample data, in the quick format. *)
Lemma optimized_analysis_shows_a_report_witness :
  ∃ groups text,
    Scheduler.detect_triangulation_groups_optimized 2 [0; 1; 2] sample_data 3 2 None
      = Returned groups
    ∧ Gui.optimized_analysis sample_runtime sample_format 2 [0; 1; 2] "Quick Summary"
        sample_data 3 2 7
      = Scheduler.update_triangulation_results text
    ∧ ("Quick Summary"%string = "Quick Summary"%string →
       QuickList.create_simple_group_list sample_runtime sample_format groups
       = Returned text)
    ∧ ("Quick Summary"%string ≠ "Quick Summary"%string →
       OptimizedReport.create_triangulation_report_by_size sample_runtime groups (Some 7%float)
       = Returned text).
Proof.
  apply (optimized_analysis_shows_a_report sample_runtime sample_format 2 [0; 1; 2]
           "Quick Summary" sample_data 3 2 7).
  split; [simpl; lia|]. unfold Pool.complete_schedule. vm_compute. reflexivity.
Defined.

(** ** The strict pass on the groups of a run *)

Section strict_pass_on_stars.
Import Optimized Verify.

Lemma actual_overlap_sym (s1 s2 : segment) : actual_overlap s1 s2 = actual_overlap s2 s1.
Proof. unfold actual_overlap. lia. Qed.

Lemma lookup_total_seq (segments : list segment) :
  (λ j, segments !!! j) <$> seq 0 (length segments) = segments.
Proof.
  apply list_eq. intros i. rewrite list_lookup_fmap.
  destruct (decide (i < length segments)) as [Hi|Hi].
  - rewrite lookup_seq_lt by done. simpl.
    destruct (lookup_lt_is_Some_2 segments i Hi) as [s Hs].
    by rewrite (list_lookup_total_correct _ _ _ Hs).
  - rewrite lookup_seq_ge by lia. simpl. symmetry. apply lookup_ge_None. lia.
Qed.

(** The pass for small groups keeps a candidate set all of whose members
    overlap the first one. *)
Lemma small_star_fold T first valid rest :
  first ∈ valid →
  Forall (λ s, (T ≤ actual_overlap first s)%Z) rest →
  foldl (small_group_step T) valid rest = valid ++ rest.
Proof.
  revert valid. induction rest as [|candidate rest IH]; intros valid Hfirst Hall.
  { by rewrite app_nil_r. }
  apply Forall_cons in Hall as [Hc Hall].
  cbn [foldl]. unfold small_group_step at 2.
  replace (existsb _ valid) with true.
  - rewrite IH; [by rewrite <- app_assoc| |done]. apply elem_of_app. by left.
  - symmetry. apply existsb_exists. exists first. split.
    + by apply list_elem_of_In.
    + apply bool_decide_eq_true. by rewrite actual_overlap_sym.
Qed.

(** In a candidate set all of whose members overlap the first one, every
    two positions are connected. *)
Lemma star_connected T first rest a b :
  Forall (λ s, (T ≤ actual_overlap first s)%Z) rest →
  a < S (length rest) → b < S (length rest) →
  connected T (first :: rest) a b.
Proof.
  intros Hall Ha Hb.
  assert (∀ j, j < S (length rest) → connected T (first :: rest) 0 j) as Hzero.
  { intros [|j] Hj; [done|]. apply rtc_once. split; [simpl; lia|].
    split; [simpl; lia|]. split; [done|]. simpl.
    destruct (lookup_lt_is_Some_2 rest j ltac:(lia)) as [s Hs].
    rewrite (list_lookup_total_correct _ _ _ Hs).
    rewrite Forall_forall in Hall. apply Hall. by eapply list_elem_of_lookup_2. }
  etrans; [|by apply Hzero]. apply connected_sym. by apply Hzero.
Qed.

Lemma verify_star iter T first rest :
  (∀ X, iter X ≡ₚ elements X) →
  Forall (λ s, (T ≤ actual_overlap first s)%Z) rest →
  ∃ result,
    _verify_triangulation_group iter (first :: rest) T = Some result
    ∧ result ≡ₚ first :: rest
    ∧ (length (first :: rest) ≤ 5 → result = first :: rest).
Proof.
  intros Hiter Hall. unfold _verify_triangulation_group.
  case_decide as H2; [by eexists|].
  case_decide as H5.
  { eexists. split; [done|]. rewrite (small_star_fold T first); [done|left|done]. }
  destruct (find_connected_components_largest iter Hiter (first :: rest) T)
    as (result & -> & r & nodes & (Hr & Hnd & Hnodes) & -> & _); [simpl in *; lia|].
  eexists. split; [done|]. split; [|simpl in *; lia].
  transitivity ((λ j, (first :: rest) !!! j) <$> seq 0 (length (first :: rest)));
    [|by rewrite (lookup_total_seq (first :: rest))].
  apply fmap_Permutation, NoDup_Permutation; [done|apply NoDup_seq|].
  intros j. rewrite Hnodes, elem_of_seq. split.
  - intros Hj. split; [lia|]. by eapply connected_range.
  - intros [_ Hj]. apply star_connected; simpl in *; done.
Qed.

End strict_pass_on_stars.

(** X22.  The strict pass, which the engine defines and does not call,
    would take nothing from a group of a run: applied to a returned group
    with the threshold of the run it returns the group's segments, the
    same list for a group of at most five and the same segments in some
    order for a larger one.  Every member overlaps the seed, so the
    group is one connected component. *)
Theorem strict_pass_keeps_the_groups_of_a_run iter c chr_data T k :
  (∀ X, iter X ≡ₚ elements X) →
  Forall (λ g, ∃ result,
            Verify._verify_triangulation_group iter (Optimized.to_segment <$> g) T
            = Some result
            ∧ result ≡ₚ Optimized.to_segment <$> g
            ∧ (length g ≤ 5 → result = Optimized.to_segment <$> g))
         (Optimized._process_chromosome_optimized (c, chr_data, T, k)).
Proof.
  intros Hiter.
  destruct (optimized_groups_traced c chr_data T k) as (Hstar & _).
  eapply Forall_impl; [exact Hstar|]. simpl.
  intros g (seed & members & -> & Hov). csimpl.
  destruct (verify_star iter T (Optimized.to_segment seed)
              (Optimized.to_segment <$> members) Hiter)
    as (result & Hres & Hperm & Hsame).
  { apply Forall_fmap. eapply Forall_impl; [exact Hov|]. simpl.
    intros m Hm. by rewrite optimized_overlap_rows. }
  exists result. split; [done|]. split; [done|].
  intros Hlen. apply Hsame. simpl in *. by rewrite length_fmap.
Qed.

(** X22 on a long row and two short ones. *)
Lemma strict_pass_keeps_the_groups_of_a_run_witness :
  Forall (λ g, ∃ result,
            Verify._verify_triangulation_group elements (Optimized.to_segment <$> g) 30
            = Some result
            ∧ result ≡ₚ Optimized.to_segment <$> g
            ∧ (length g ≤ 5 → result = Optimized.to_segment <$> g))
         (Optimized._process_chromosome_optimized ("1"%string, [rowS; rowA; rowB], 30, 2)%Z).
Proof.
  apply (strict_pass_keeps_the_groups_of_a_run elements "1" [rowS; rowA; rowB] 30 2).
  intros X. reflexivity.
Defined.

(** ** The groups of the simple engine, exactly *)

Section simple_exact.
Import Simple.

(** The used positions are those of the rows in the groups. *)
Local Abbreviation used_is_grouped chr_data groups used :=
  (∀ j r, chr_data !! j = Some r →
     j ∈ (used : gset nat) ↔ row_name r ∈ row_name <$> concat groups).

Lemma simple_collect_rows chr_data T groups used i row :
  NoDup (row_name <$> chr_data) →
  used_is_grouped chr_data groups used →
  chr_data !! i = Some row →
  let collected := collect T used (to_segment <$> chr_data) i (to_segment row) in
  data <$> collected.1 = row :: unused_overlapping_rows T groups row chr_data
  ∧ ∀ j r, chr_data !! j = Some r →
      j ∈ collected.2
      ↔ row_name r ∈ row_name <$> row :: unused_overlapping_rows T groups row chr_data.
Proof.
  intros Hnd Hused Hi. cbv zeta. unfold collect. rewrite simple_collect_exact.
  cbn [fst snd].
  set (joins := λ e : nat * segment,
         e.1 ≠ i ∧ (e.1 ∉ used) ∧ (T ≤ actual_overlap (to_segment row) e.2)%Z).
  set (Qs := λ s : segment,
         row_name (data s) ≠ row_name row
         ∧ (row_name (data s) ∉ row_name <$> concat groups)
         ∧ (T ≤ actual_overlap (to_segment row) s)%Z).
  assert (∀ j s, (to_segment <$> chr_data) !! j = Some s → joins (j, s) ↔ Qs s) as Hjoin.
  { intros j s Hj. unfold joins, Qs. simpl.
    destruct (simple_segments_of_rows chr_data j s Hj) as [Hrow _].
    rewrite (Hused j (data s) Hrow).
    assert (j = i ↔ row_name (data s) = row_name row) as Hji.
    { split; [intros ->; congruence|]. intros Heq.
      apply (NoDup_lookup (row_name <$> chr_data) j i (row_name row)); [done| |].
      - rewrite list_lookup_fmap, Hrow. simpl. by rewrite Heq.
      - by rewrite list_lookup_fmap, Hi. }
    tauto. }
  assert ((filter joins (enumerate (to_segment <$> chr_data))).*2
          = to_segment <$> unused_overlapping_rows T groups row chr_data) as Hrows.
  { unfold enumerate. rewrite (filter_enumerate_from joins Qs).
    - by apply filter_fmap_comm.
    - intros [j s] Hj%elem_of_enumerate. by apply Hjoin. }
  split.
  - csimpl. f_equal. rewrite Hrows, <- list_fmap_compose. apply list_fmap_id.
  - intros j r Hj.
    assert ((to_segment <$> chr_data) !! j = Some (to_segment r)) as Hseg
      by (by rewrite list_lookup_fmap, Hj).
    rewrite elem_of_union, elem_of_singleton, elem_of_list_to_set, fmap_cons, elem_of_cons.
    assert (j ∈ (filter joins (enumerate (to_segment <$> chr_data))).*1
            ↔ row_name r ∈ row_name <$> unused_overlapping_rows T groups row chr_data)
      as Hin.
    { split.
      - intros ([j' s] & -> & [Hjoins He]%list_elem_of_filter)%list_elem_of_fmap.
        simpl in *. apply elem_of_enumerate in He.
        assert (s = to_segment r) as -> by congruence.
        apply list_elem_of_fmap. exists r. split; [done|].
        apply list_elem_of_filter. split; [|by eapply list_elem_of_lookup_2].
        by apply (Hjoin j' (to_segment r) He) in Hjoins.
      - intros (r' & Heq & [Hq Hr']%list_elem_of_filter)%list_elem_of_fmap.
        assert (r = r') as <-.
        { apply (NoDup_fmap_eq row_name chr_data); try done.
          by eapply list_elem_of_lookup_2. }
        apply list_elem_of_fmap. exists (j, to_segment r). split; [done|].
        apply list_elem_of_filter. split; [|by apply elem_of_enumerate].
        by apply (Hjoin j (to_segment r) Hseg). }
    rewrite Hin. split; (intros [Hl|Hr]; [left|by right]).
    + subst j. congruence.
    + apply (NoDup_lookup (row_name <$> chr_data) j i (row_name row)); [done| |].
      * rewrite list_lookup_fmap, Hj. simpl. by rewrite Hl.
      * by rewrite list_lookup_fmap, Hi.
Qed.

(** The outer loop, group by group. *)
Lemma simple_seed_fold_exact chr_data T k cands groups used :
  NoDup (row_name <$> chr_data) →
  (∀ e, e ∈ cands → e ∈ enumerate (to_segment <$> chr_data)) →
  used_is_grouped chr_data groups used →
  let final := foldl (seed_step T k (to_segment <$> chr_data)) (groups, used) cands in
  groups `prefix_of` final.1
  ∧ ∀ n g, final.1 !! n = Some g → length groups ≤ n →
      ∃ seed, seed ∈ chr_data
              ∧ g = seed :: unused_overlapping_rows T (take n final.1) seed chr_data.
Proof.
  intros Hnd. revert groups used.
  induction cands as [|[i s1] cands IH]; intros groups used Hc Hused.
  { simpl. split; [done|]. intros n g Hg Hn.
    apply lookup_lt_Some in Hg. lia. }
  assert (∀ e, e ∈ cands → e ∈ enumerate (to_segment <$> chr_data)) as Hc'.
  { intros e He. apply Hc. by right. }
  cbn [foldl seed_step].
  destruct (decide (i ∈ used)) as [Hiu|Hiu]; [by apply IH|].
  assert ((to_segment <$> chr_data) !! i = Some s1) as Hi
    by (apply elem_of_enumerate, Hc; left).
  destruct (simple_segments_of_rows chr_data i s1 Hi) as [Hrow Hs1].
  destruct (simple_collect_rows chr_data T groups used i (data s1) Hnd Hused Hrow)
    as [Hgroup Hci].
  rewrite <- Hs1 in Hgroup, Hci.
  destruct (collect T used (to_segment <$> chr_data) i s1) as [current_group ci].
  cbn [fst snd] in *.
  case_decide; [|by apply IH].
  rewrite Hgroup.
  set (g0 := data s1 :: unused_overlapping_rows T groups (data s1) chr_data) in *.
  destruct (IH (groups ++ [g0]) (used ∪ ci) Hc') as [Hpre Hall].
  { intros j r Hj. rewrite elem_of_union, (Hused j r Hj), (Hci j r Hj).
    rewrite concat_app, fmap_app, elem_of_app. simpl. by rewrite app_nil_r. }
  split.
  { etrans; [|exact Hpre]. by apply prefix_app_r. }
  intros n g Hg Hn. destruct (decide (n = length groups)) as [->|Hne].
  - destruct Hpre as [more Hmore]. rewrite Hmore in *.
    rewrite <- app_assoc in *. rewrite take_app_length.
    rewrite lookup_app_r in Hg by lia.
    replace (length groups - length groups) with 0 in Hg by lia.
    injection Hg as <-. exists (data s1). split; [|done].
    by eapply list_elem_of_lookup_2.
  - apply Hall; [done|]. rewrite length_app. simpl. lia.
Qed.

End simple_exact.

(** X23.  On rows with distinct labels a group of the simple engine is
    its seed followed by all the other rows of the chromosome that are in
    no earlier group and whose overlap with the seed is at least
    [min_overlap_bp], in the order of the input: the earlier groups
    decide what a later seed may collect. *)
Theorem simple_group_is_the_star_among_the_unused chr_data T k n g :
  NoDup (row_name <$> chr_data) →
  Simple.chromosome_groups chr_data T k !! n = Some g →
  ∃ seed,
    seed ∈ chr_data
    ∧ g = seed :: unused_overlapping_rows T
                    (take n (Simple.chromosome_groups chr_data T k)) seed chr_data.
Proof.
  intros Hnd Hg.
  unfold Simple.chromosome_groups, Simple._find_overlapping_groups_simple in *.
  destruct (simple_seed_fold_exact chr_data T k
              (enumerate (Simple.to_segment <$> chr_data)) [] ∅ Hnd) as [_ Hall].
  - done.
  - intros j r _. set_solver.
  - apply Hall; [done|simpl; lia].
Qed.

(** X23 on four rows in a chain: the first group takes [rowX] and
    [rowY]; the second, seeded by [rowZ], takes [rowW] and cannot take
    [rowY], which overlaps [rowZ] but is in the first group. *)
Lemma simple_group_is_the_star_among_the_unused_witness :
  ∃ seed,
    seed ∈ [rowX; rowY; rowZ; rowW]
    ∧ [rowZ; rowW]
      = seed :: unused_overlapping_rows 3
                  (take 1 (Simple.chromosome_groups [rowX; rowY; rowZ; rowW] 3 2))
                  seed [rowX; rowY; rowZ; rowW].
Proof.
  apply (simple_group_is_the_star_among_the_unused [rowX; rowY; rowZ; rowW] 3 2 1).
  - apply (bool_decide_unpack _). vm_compute. exact I.
  - reflexivity.
Defined.

(** ** The groups of the original engine, exactly *)

Section painter_exact.
Import Painter.

Lemma painter_collect_exact T row1 cands g :
  NoDup (row_name <$> cands) →
  (∀ m r, m ∈ g → r ∈ cands → (row_name row1 < row_name r)%Z →
          row_name m ≠ row_name r) →
  foldl (collect_step T row1) g cands = g ++ later_overlapping_rows T row1 cands.
Proof.
  unfold later_overlapping_rows.
  revert g. induction cands as [|row2 cands IH]; intros g Hnd Hg.
  { simpl. by rewrite app_nil_r. }
  csimpl in Hnd. apply NoDup_cons in Hnd as [Hfresh Hnd].
  cbn [foldl]. unfold collect_step at 2. rewrite filter_cons.
  destruct (decide (row_name row2 ≤ row_name row1)%Z) as [Hle|Hgt].
  { rewrite decide_False by lia. apply IH; [done|].
    intros m r Hm Hr. apply Hg; [done|by right]. }
  destruct (decide (T ≤ overlap_length row1 row2)%Z) as [Hov|Hno].
  2:{ rewrite decide_False by (rewrite <- painter_overlap_rows; tauto).
      apply IH; [done|]. intros m r Hm Hr. apply Hg; [done|by right]. }
  rewrite decide_True by (rewrite <- painter_overlap_rows; split; [lia|done]).
  unfold found_in_group. rewrite bool_decide_eq_false_2.
  2:{ intros (m & Hm & Heq)%Exists_exists. apply (Hg m row2 Hm); [left|lia|done]. }
  rewrite IH; [by rewrite <- app_assoc|done|].
  intros m r [Hm|Hm%list_elem_of_singleton]%elem_of_app Hr Hlt.
  - apply Hg; [done|by right|done].
  - subst m. intros Heq. apply Hfresh. rewrite Heq.
    apply list_elem_of_fmap. by exists r.
Qed.

Lemma painter_collect_star T chr_data row1 :
  NoDup (row_name <$> chr_data) →
  collect T chr_data row1 = row1 :: later_overlapping_rows T row1 chr_data.
Proof.
  intros Hnd. unfold collect. rewrite painter_collect_exact; [done|done|].
  intros m r Hm%list_elem_of_singleton _ Hlt. subst m. lia.
Qed.

(** What the outer loop keeps and what it drops. *)
Lemma painter_seed_fold_exact T k chr_data cands groups :
  let final := foldl (seed_step T k chr_data) groups cands in
  groups `prefix_of` final
  ∧ (∀ g, g ∈ final → g ∈ groups ∨ ∃ row1, row1 ∈ cands ∧ g = collect T chr_data row1)
  ∧ ∀ row1, row1 ∈ cands →
      (k ≤ Z.of_nat (length (collect T chr_data row1)))%Z →
      ∃ g, g ∈ final ∧ group_names g = group_names (collect T chr_data row1).
Proof.
  revert groups. induction cands as [|row1 cands IH]; intros groups.
  { simpl. split; [done|]. split; [by left|]. by intros ? ?%elem_of_nil. }
  cbn [foldl].
  destruct (IH (seed_step T k chr_data groups row1)) as (Hpre & Hfrom & Hall).
  assert (groups `prefix_of` seed_step T k chr_data groups row1) as Hstep.
  { unfold seed_step. case_decide; [|done].
    destruct (is_duplicate _ _); [done|]. by apply prefix_app_r. }
  split; [by etrans|]. split.
  - intros g Hg. destruct (Hfrom g Hg) as [Hin|(r & Hr & ->)].
    + revert Hin. unfold seed_step. case_decide; [|by left].
      destruct (is_duplicate _ _); [by left|].
      intros [?|Hg0%list_elem_of_singleton]%elem_of_app; [by left|].
      subst g. right. exists row1. split; [left|done].
    + right. exists r. split; [by right|done].
  - intros r [Hr|Hr]%elem_of_cons Hk; [subst r|by apply Hall].
    assert (∃ g, g ∈ seed_step T k chr_data groups row1
                 ∧ group_names g = group_names (collect T chr_data row1))
      as (g & Hg & Hnames).
    { unfold seed_step. rewrite decide_True by done.
      unfold is_duplicate. case_bool_decide as Hdup.
      - apply Exists_exists in Hdup as (g & Hg & Hnames). by exists g.
      - eexists. split; [|done]. apply elem_of_app. right. left. }
    exists g. split; [|done]. eapply elem_of_prefix; [exact Hg|exact Hpre].
Qed.

End painter_exact.

(** X24.  The original engine on a chromosome whose rows have distinct
    labels: every group is its seed followed by all rows of the
    chromosome with a greater label that overlap the seed by at least
    [min_overlap_bp]; and every row whose group of this kind is large
    enough is represented, by that group or by an earlier one with the
    same set of match names. *)
Theorem original_engine_drops_duplicates_only sort_values data T k chromosome :
  NoDup (row_name <$> data) →
  (∀ l, sort_values l ≡ₚ l) →
  let chr_data := sort_values (filter (λ row, Chromosome row = chromosome) data) in
  let groups := Browser.chromosome_groups sort_values data T k chromosome in
  Forall (λ g, ∃ seed, seed ∈ chr_data
                       ∧ g = seed :: later_overlapping_rows T seed chr_data) groups
  ∧ ∀ row, row ∈ chr_data →
      (k ≤ 1 + Z.of_nat (length (later_overlapping_rows T row chr_data)))%Z →
      ∃ g, g ∈ groups
           ∧ Painter.group_names g
             = Painter.group_names (row :: later_overlapping_rows T row chr_data).
Proof.
  intros Hnd Hperm chr_data groups.
  assert (NoDup (row_name <$> chr_data)) as Hnd'.
  { unfold chr_data. rewrite Hperm.
    eapply sublist_NoDup; [exact Hnd|]. apply fmap_sublist, sublist_filter. }
  subst groups. unfold Browser.chromosome_groups. fold chr_data.
  destruct (painter_seed_fold_exact T k chr_data chr_data []) as (_ & Hfrom & Hall).
  split.
  - apply Forall_forall. intros g Hg.
    destruct (Hfrom g Hg) as [[]%elem_of_nil|(row1 & Hrow1 & ->)].
    exists row1. split; [done|]. by apply painter_collect_star.
  - intros row Hrow Hk.
    destruct (Hall row Hrow) as (g & Hg & Hnames).
    + rewrite painter_collect_star by done. simpl. lia.
    + exists g. split; [done|]. by rewrite <- painter_collect_star.
Qed.

(** X24 on the sample data, chromosome 1. *)
Lemma original_engine_drops_duplicates_only_witness :
  let chr_data :=
    sort_by Start_Location (filter (λ row, Chromosome row = "1"%string) sample_data) in
  let groups :=
    Browser.chromosome_groups (sort_by Start_Location) sample_data 3 2 "1" in
  Forall (λ g, ∃ seed, seed ∈ chr_data
                       ∧ g = seed :: later_overlapping_rows 3 seed chr_data) groups
  ∧ ∀ row, row ∈ chr_data →
      (2 ≤ 1 + Z.of_nat (length (later_overlapping_rows 3 row chr_data)))%Z →
      ∃ g, g ∈ groups
           ∧ Painter.group_names g
             = Painter.group_names (row :: later_overlapping_rows 3 row chr_data).
Proof.
  apply (original_engine_drops_duplicates_only (sort_by Start_Location) sample_data 3 2 "1").
  - exact sample_labels_distinct.
  - intros l. apply sort_by_perm.
Defined.
